(** * Animation sequencer of the node graph (src/components/NodeGraph.tsx)

    A shallow embedding of the component: the sequencer [runAnimation] with
    [stopAnimation], the callbacks and effects of the editor
    ([handleDeleteNode], [onDeleteEdge], [addNode], the click on a node,
    the effects on the node list and on the node states), and the state
    updates of the page that hosts it (unnamed/part_000). The sequencer is
    written once, over an interface of JavaScript numbers, and read in three
    arithmetics: exact rationals (the arithmetic the specification speaks
    about), exact rationals with a non-finite value (to let a division by
    zero show), and IEEE-754 binary64 (the arithmetic the browser runs).
    The properties of the binary64 reading rest on bounds for the rounded
    operations that are derived here from their specification in the
    Standard Library. *)

From Stdlib Require Import ZArith QArith Qround Qminmax Qabs Qpower Lia Lqa String List Floats Uint63.
From stdpp Require Import base option list gmap strings pretty.

Set Default Proof Using "Type".

(** ** JavaScript numbers *)

Declare Scope js_scope.
Delimit Scope js_scope with js.

(** The operations [runAnimation] performs on values of type [number]. *)
Class JsNumber (num : Type) := {
  (** a numeric literal of the source, given as the rational it denotes *)
  nlit : Q → num;
  nadd : num → num → num;
  nsub : num → num → num;
  nmul : num → num → num;
  ndiv : num → num → num;
  (** [a < b] and [a <= b] *)
  nltb : num → num → bool;
  nleb : num → num → bool;
  (** [Math.floor] *)
  nfloor : num → num;
  (** [Math.pow(x, 2)], taken to be [x * x] in every instance *)
  npow2 : num → num;
  (** the number of milliseconds a timer armed with this delay runs *)
  nmillis : num → Q
}.

Infix "+" := nadd : js_scope.
Infix "-" := nsub : js_scope.
Infix "*" := nmul : js_scope.
Infix "/" := ndiv : js_scope.
Infix "<?" := nltb : js_scope.
Infix "<=?" := nleb : js_scope.

(** Exact rational arithmetic, the arithmetic the specification speaks
    about. *)
#[export] Instance Q_number : JsNumber Q := {
  nlit q := q;
  nadd := Qplus;
  nsub := Qminus;
  nmul := Qmult;
  ndiv := Qdiv;
  nltb a b := negb (Qle_bool b a);
  nleb := Qle_bool;
  nfloor q := inject_Z (Qfloor q);
  npow2 q := Qmult q q;
  nmillis q := q
}.

(** Exact rational arithmetic with one more value, [None], for a result
    that is not a finite number: the quotient by zero, and whatever is
    computed from such a result. It serves to show that a computation meets
    no division by zero; no comparison with [None] holds. *)
#[export] Instance XQ_number : JsNumber (option Q) := {
  nlit q := Some q;
  nadd a b := x ← a; y ← b; Some (Qplus x y);
  nsub a b := x ← a; y ← b; Some (Qminus x y);
  nmul a b := x ← a; y ← b; Some (Qmult x y);
  ndiv a b := x ← a; y ← b; if Qeq_bool y 0%Q then None else Some (Qdiv x y);
  nltb a b := match a, b with
              | Some x, Some y => negb (Qle_bool y x)
              | _, _ => false
              end;
  nleb a b := match a, b with
              | Some x, Some y => Qle_bool x y
              | _, _ => false
              end;
  nfloor a := x ← a; Some (inject_Z (Qfloor x));
  npow2 a := x ← a; Some (Qmult x x);
  nmillis a := default 0%Q a
}.

(** IEEE-754 binary64, the [number] of the running program. *)
Module F64.

(** The float of an integer; exact below 2^53 in absolute value. *)
Definition of_Z (z : Z) : float :=
  match z with
  | Z0 => PrimFloat.zero
  | Zpos _ => PrimFloat.of_uint63 (Uint63.of_Z z)
  | Zneg p => PrimFloat.opp (PrimFloat.of_uint63 (Uint63.of_Z (Zpos p)))
  end.

(** The integer a finite float without fractional part denotes. *)
Definition to_Z (f : float) : Z :=
  match Prim2SF f with
  | S754_finite s m e =>
      let v := match e with
               | Z0 => Zpos m
               | Zpos k => (Zpos m * 2 ^ Zpos k)%Z
               | Zneg k => (Zpos m / 2 ^ Zpos k)%Z
               end in
      if s then (- v)%Z else v
  | _ => 0%Z
  end.

(** The rational a finite float denotes; 0 for NaN and the infinities,
    which is the delay a timer takes for them. *)
Definition to_Q (f : float) : Q :=
  match Prim2SF f with
  | S754_finite s m e =>
      let v := (inject_Z (Zpos m) * Qpower (2 # 1) e)%Q in
      if s then Qopp v else v
  | _ => 0%Q
  end.

(** [Math.floor]: the largest integral float not above the argument;
    NaN, the infinities and the zeros are returned as they are. *)
Definition floor (f : float) : float :=
  match Prim2SF f with
  | S754_finite s m e =>
      match e with
      | Zneg k =>
          let q := (Zpos m / 2 ^ Zpos k)%Z in
          let r := (Zpos m mod 2 ^ Zpos k)%Z in
          if s then
            PrimFloat.opp (of_Z (if (r =? 0)%Z then q else (q + 1)%Z))
          else of_Z q
      | _ => f
      end
  | _ => f
  end.

End F64.

(** A literal is read as numerator / denominator, one correctly rounded
    division: the float nearest to the rational, as the parser of the
    language yields it, for the literals of the source and of the samples. *)
#[export] Instance F64_number : JsNumber float := {
  nlit q := PrimFloat.div (F64.of_Z (Qnum q)) (F64.of_Z (Zpos (Qden q)));
  nadd := PrimFloat.add;
  nsub := PrimFloat.sub;
  nmul := PrimFloat.mul;
  ndiv := PrimFloat.div;
  nltb := PrimFloat.ltb;
  nleb := PrimFloat.leb;
  nfloor := F64.floor;
  npow2 x := PrimFloat.mul x x;
  nmillis := F64.to_Q
}.

(** ** Interpolation arithmetic of a smooth transition
    (runAnimation, lines 355-383) *)

Section Interpolation.
Context {num : Type} `{JsNumber num}.
Local Open Scope js_scope.

Definition minDuration : num := nlit 500.
Definition maxDuration : num := nlit 5000.

Definition durationMs (smoothness : num) : num :=
  maxDuration - (smoothness / nlit 100) * (maxDuration - minDuration).

Definition frameRate : num := nlit 60.
Definition frameTime : num := nlit 1000 / frameRate.

Definition totalFrames (smoothness : num) : num :=
  nfloor (durationMs smoothness / frameTime).

(** [t < 0.5 ? 2 * t * t : 1 - Math.pow(-2 * t + 2, 2) / 2] *)
Definition easedT (t : num) : num :=
  if t <? nlit 0.5 then nlit 2 * t * t
  else nlit 1 - npow2 (nlit (-2) * t + nlit 2) / nlit 2.

(** The duration mapping and the frame count as the specification words
    them, to be compared with the two definitions above. *)
Definition spec_duration (s : num) : num :=
  nlit 5000 - (s / nlit 100) * nlit 4500.

Definition spec_totalFrames (s : num) : num :=
  nfloor (spec_duration s / (nlit 1000 / nlit 60)).

End Interpolation.

(** ** Data model *)

(** Modelled from the spec: the types [JointParameter], [TransitionOptions]
    and the per-node state of the store module (store/useJointStore), which
    [runAnimation] reads through [type], [joints] and [transition]. *)
Record JointParameter (num : Type) := {
  name : string;
  value : num
}.
Arguments name {num} _.
Arguments value {num} _.

Record TransitionOptions (num : Type) := {
  smooth : bool;
  smoothness : num
}.
Arguments smooth {num} _.
Arguments smoothness {num} _.

Inductive NodeType := joint | transition.

Record NodeState (num : Type) := {
  ns_id : string;
  ns_type : NodeType;
  ns_joints : option (list (JointParameter num));
  ns_transition : option (TransitionOptions num)
}.
Arguments ns_id {num} _.
Arguments ns_type {num} _.
Arguments ns_joints {num} _.
Arguments ns_transition {num} _.

(** The part of a graph-editor node and of an edge the sequencer reads. *)
Record Node := {
  node_id : string;
  node_type : NodeType
}.

Record Edge := {
  edge_id : string;
  source : string;
  target : string
}.

(** ** Sequence graph model: node deletion (handleDeleteNode, lines 117-123) *)

(** The three state cells the callback writes. *)
Record GraphState := {
  graph_nodes : list Node;
  graph_edges : list Edge;
  focusedNodeId : option string
}.

Definition handleDeleteNode (nodeId : string) (graph : GraphState)
  : GraphState :=
  {| graph_nodes :=
       List.filter (λ node, negb (node_id node =? nodeId)%string)
         (graph_nodes graph);
     graph_edges :=
       List.filter (λ edge, negb (source edge =? nodeId)%string
                            && negb (target edge =? nodeId)%string)
         (graph_edges graph);
     focusedNodeId :=
       match focusedNodeId graph with
       | Some focused =>
           if (focused =? nodeId)%string then None else Some focused
       | None => None
       end |}.

(** No edge has an endpoint outside the node list. *)
Definition no_dangling (graph : GraphState) : Prop :=
  ∀ edge, In edge (graph_edges graph) →
    (∃ n, In n (graph_nodes graph) ∧ node_id n = source edge) ∧
    (∃ n, In n (graph_nodes graph) ∧ node_id n = target edge).

(** ** What a run does to its surroundings *)

(** What a joint name holds in an object handed to [setJointValues]: a
    number, and in an interpolated pose (line 382) also what the sum
    [startValue + (endValue - startValue) * easedT] is when one of its
    operands is a member of [Object.prototype]: the number NaN when
    [endValue] is the member (kept apart from [Number], not every arithmetic
    of this file having a NaN), and when [startValue] is the member the
    string that [+] concatenates from the member and "NaN". *)
Inductive JsValue (num : Type) :=
  | Number (v : num)
  | NotANumber
  | Text (member : string).
Arguments Number {num} _.
Arguments NotANumber {num}.
Arguments Text {num} _.

(** An operand of the interpolation: a number, or a member of
    [Object.prototype]. *)
Inductive operand (num : Type) :=
  | Num (v : num)
  | Member (member : string).
Arguments Num {num} _.
Arguments Member {num} _.

Inductive event (num : Type) :=
  | SetAnimationAbortController (present : bool)
  | SetIsAnimating (b : bool)
  | SetActiveNodeId (nodeId : option string)
  | SetJointValues (pose : gmap string (JsValue num))
  | Wait (ms : Q)
  | ToastError (msg : string)
  | ConsoleError (msg : string).
Arguments SetAnimationAbortController {num} _.
Arguments SetIsAnimating {num} _.
Arguments SetActiveNodeId {num} _.
Arguments SetJointValues {num} _.
Arguments Wait {num} _.
Arguments ToastError {num} _.
Arguments ConsoleError {num} _.

(** The collaborator calls made inside the [try] block. *)
Inductive call (num : Type) :=
  | CallSetActiveNodeId (nodeId : string)
  | CallGetNodeState (nodeId : string)
  | CallSetJointValues (pose : gmap string (JsValue num)).
Arguments CallSetActiveNodeId {num} _.
Arguments CallGetNodeState {num} _.
Arguments CallSetJointValues {num} _.

(** Modelled from the spec: the state the store module (store/useJointStore)
    keeps and its setters; [setJointValues] merges the pose into the
    current values and leaves the other keys unchanged. The abort
    controller is the component's own [useState] cell. *)
Record UiState (num : Type) := {
  jointValues : gmap string (JsValue num);
  isAnimating : bool;
  activeNodeId : option string;
  animationAbortController : bool
}.
Arguments jointValues {num} _.
Arguments isAnimating {num} _.
Arguments activeNodeId {num} _.
Arguments animationAbortController {num} _.

Definition apply_event {num} (e : event num) (st : UiState num) : UiState num :=
  match e with
  | SetAnimationAbortController b =>
      {| jointValues := jointValues st; isAnimating := isAnimating st;
         activeNodeId := activeNodeId st; animationAbortController := b |}
  | SetIsAnimating b =>
      {| jointValues := jointValues st; isAnimating := b;
         activeNodeId := activeNodeId st;
         animationAbortController := animationAbortController st |}
  | SetActiveNodeId i =>
      {| jointValues := jointValues st; isAnimating := isAnimating st;
         activeNodeId := i;
         animationAbortController := animationAbortController st |}
  | SetJointValues pose =>
      {| jointValues := pose ∪ jointValues st; isAnimating := isAnimating st;
         activeNodeId := activeNodeId st;
         animationAbortController := animationAbortController st |}
  | Wait _ | ToastError _ | ConsoleError _ => st
  end.

(** The state after a trace, oldest event first. *)
Definition replay {num} (trace : list (Q * event num)) (st : UiState num)
  : UiState num :=
  foldl (λ s te, apply_event te.2 s) st trace.

(** ** The run monad: a clock, a trace, exceptions and fuel *)

(** [Pending]: the observation ended (fuel ran out) with the run in flight. *)
Inductive result (A : Type) :=
  | Ret (a : A)
  | Throw
  | Pending.
Arguments Ret {A} _.
Arguments Throw {A}.
Arguments Pending {A}.

(** What a computation started at some time has done: the events with the
    times at which they happened, oldest first, the time at which it
    stopped, and how it stopped. *)
Record Outcome (num A : Type) := {
  events : list (Q * event num);
  now : Q;
  outcome : result A
}.
Arguments events {num A} _.
Arguments now {num A} _.
Arguments outcome {num A} _.

Definition Run (num A : Type) : Type := Q → Outcome num A.

Definition ret {num A} (a : A) : Run num A :=
  λ t, {| events := []; now := t; outcome := Ret a |}.

Definition bind {num A B} (m : Run num A) (k : A → Run num B) : Run num B :=
  λ t, let o := m t in
       match outcome o with
       | Ret a =>
           let o' := k a (now o) in
           {| events := events o ++ events o'; now := now o';
              outcome := outcome o' |}
       | Throw => {| events := events o; now := now o; outcome := Throw |}
       | Pending => {| events := events o; now := now o; outcome := Pending |}
       end.

#[export] Instance run_ret {num} : MRet (Run num) := λ A, ret.
#[export] Instance run_bind {num} : MBind (Run num) := λ A B k m, bind m k.

Definition throw {num A} : Run num A :=
  λ t, {| events := []; now := t; outcome := Throw |}.
Definition pending {num A} : Run num A :=
  λ t, {| events := []; now := t; outcome := Pending |}.

Definition emit {num} (e : event num) : Run num unit :=
  λ t, {| events := [(t, e)]; now := t; outcome := Ret tt |}.

(** [setTimeout] runs a negative delay as 0. *)
Definition timer (ms : Q) : Q := Qmax 0 ms.

(** [await new Promise((resolve) => setTimeout(resolve, ms))] *)
Definition wait {num} (ms : Q) : Run num unit :=
  λ t, {| events := [(t, Wait (timer ms))]; now := Qred (t + timer ms);
          outcome := Ret tt |}.

(** [try { body } catch (error) { handler } finally { final }]; the handler
    and the final block of [runAnimation] call no collaborator that is
    modelled as throwing. *)
Definition try_catch_finally {num A} (body : Run num A)
    (handler final : Run num unit) : Run num unit :=
  λ t, let o := body t in
       match outcome o with
       | Ret _ =>
           let o' := final (now o) in
           {| events := events o ++ events o'; now := now o';
              outcome := outcome o' |}
       | Throw =>
           let o' := (handler;; final) (now o) in
           {| events := events o ++ events o'; now := now o';
              outcome := outcome o' |}
       | Pending => {| events := events o; now := now o; outcome := Pending |}
       end.

(** The shapes an outcome takes: a throw, events followed by another
    outcome, and an outcome whose value is replaced or goes through [f]. *)
Definition thrown {num A} (t : Q) : Outcome num A :=
  {| events := []; now := t; outcome := Throw |}.

Definition after {num A} (evs : list (Q * event num)) (o : Outcome num A)
  : Outcome num A :=
  {| events := evs ++ events o; now := now o; outcome := outcome o |}.

Definition returning {num A B} (a : B) (o : Outcome num A) : Outcome num B :=
  {| events := events o; now := now o;
     outcome := match outcome o with
                | Ret _ => Ret a
                | Throw => Throw
                | Pending => Pending
                end |}.

Definition mapped {num A B} (f : A → B) (o : Outcome num A) : Outcome num B :=
  {| events := events o; now := now o;
     outcome := match outcome o with
                | Ret a => Ret (f a)
                | Throw => Throw
                | Pending => Pending
                end |}.

(** ** The animation sequencer (runAnimation, lines 289-410) *)

(** The variables of the loop. *)
Record Locals (num : Type) := {
  currentNodeId : string;
  previousJointPose : option (gmap string num);
  skipNextJointApplication : bool
}.
Arguments currentNodeId {num} _.
Arguments previousJointPose {num} _.
Arguments skipNextJointApplication {num} _.

Inductive control (A : Type) :=
  | Break
  | Continue (next : A).
Arguments Break {A}.
Arguments Continue {A} _.

Section Sequencer.
Context {num : Type} `{JsNumber num}.
Local Open Scope js_scope.

(** [Object.fromEntries(joints.map((j) => [j.name, j.value]))]: a later
    entry replaces an earlier one of the same name. *)
Definition pose_of (joints : list (JointParameter num)) : gmap string num :=
  foldl (λ pose j, <[name j := value j]> pose) ∅ joints.

(** The number a record of numbers has for a name, 0 for a name it has no
    number for: [typeof values[name] === "number" ? values[name] : 0]
    (lines 177 and 261; a member inherited from [Object.prototype] is no
    number). *)
Definition joint_or_0 (pose : gmap string num) (jointName : string) : num :=
  default (nlit 0) (pose !! jointName).

(** The names for which [Object.prototype] has a member: the lookup
    [pose[name]] of a name the pose has no entry for finds that member,
    a function, or for [__proto__] the prototype itself. *)
Definition object_prototype_members : list string :=
  ["constructor"; "__defineGetter__"; "__defineSetter__"; "hasOwnProperty";
   "__lookupGetter__"; "__lookupSetter__"; "isPrototypeOf";
   "propertyIsEnumerable"; "toString"; "valueOf"; "__proto__";
   "toLocaleString"].

(** [pose[jointName] ?? 0] (lines 380-381): the entry of the pose; for a
    name without entry the member of [Object.prototype] of that name, which
    is not nullish; 0 if there is none. *)
Definition member_or_0 (pose : gmap string num) (jointName : string)
  : operand num :=
  match pose !! jointName with
  | Some v => Num v
  | None =>
      if bool_decide (jointName ∈ object_prototype_members)
      then Member jointName
      else Num (nlit 0)
  end.

(** [startValue + (endValue - startValue) * easedT] (line 382). A member
    converts to the number NaN under [-], so that a number start value gives
    NaN; under [+] a member start value converts to a string, and the sum is
    that string followed by "NaN". *)
Definition interpolated (startValue endValue : operand num) (eased : num)
  : JsValue num :=
  match startValue, endValue with
  | Num a, Num b => Number (a + (b - a) * eased)
  | Num _, Member _ => NotANumber
  | Member member, _ => Text member
  end.

(** The names of [allJointNames]. *)
Definition allJointNames (previous next : gmap string num) : gset string :=
  dom previous ∪ dom next.

(** The pose built by the [forEach] of one frame (lines 378-383). The
    assignment [interpolatedPose[jointName] = ...] to the name [__proto__]
    runs the setter of [Object.prototype], which ignores a number and a
    string: the pose gets no entry of that name. *)
Definition interpolatedPose (previous next : gmap string num) (eased : num)
  : gmap string (JsValue num) :=
  set_to_map
    (λ jointName,
       let startValue := member_or_0 previous jointName in
       let endValue := member_or_0 next jointName in
       (jointName, interpolated startValue endValue eased))
    (allJointNames previous next ∖ {["__proto__"]}).

(** The pose of frame number [frame] (lines 371-383). *)
Definition framePose (previous next : gmap string num) (frames : num)
    (frame : Z) : gmap string (JsValue num) :=
  let t := nlit (inject_Z frame) / frames in
  interpolatedPose previous next (easedT t).

(** The graph the callback closes over, the node states of the store (no
    node is edited while the run is in flight), the time from which
    [signal.aborted] reads true (the caller has invoked the cancellation
    handle), if ever, and the collaborator calls that throw. *)
Context (nodes : list Node) (edges : list Edge).
Context (nodeStates : gmap string (NodeState num)).
Context (cancelAt : option Q).
Context (faulty : call num → bool).

(** [abortController.signal.aborted], read at time [t]. *)
Definition cancelled (t : Q) : bool :=
  match cancelAt with
  | Some c => Qle_bool c t
  | None => false
  end.

Definition aborted : Run num bool :=
  λ t, {| events := []; now := t; outcome := Ret (cancelled t) |}.

(** A collaborator call: it throws, or it has its effect. *)
Definition collaborate {A} (c : call num) (effect : Run num A) : Run num A :=
  if faulty c then throw else effect.

Definition setActiveNodeId (nodeId : string) : Run num unit :=
  collaborate (CallSetActiveNodeId nodeId)
    (emit (SetActiveNodeId (Some nodeId))).

Definition setStoreJointValues (pose : gmap string (JsValue num))
  : Run num unit :=
  collaborate (CallSetJointValues pose) (emit (SetJointValues pose)).

Definition getNodeState (nodeId : string) : Run num (option (NodeState num)) :=
  collaborate (CallGetNodeState nodeId) (mret (nodeStates !! nodeId)).

(** [edges.find((edge) => edge.source === currentNodeId)] *)
Definition nextEdge (nodeId : string) : option Edge :=
  List.find (λ edge, (source edge =? nodeId)%string) edges.

(** The [for] loop over the frames (lines 370-387); [frame] counts in
    integers, which [number] holds exactly. *)
Fixpoint frame_loop (fuel : nat) (previous next : gmap string num)
    (frames : num) (frame : Z) : Run num unit :=
  match fuel with
  | O => pending
  | S fuel' =>
      stop ← aborted;
      if (nlit (inject_Z frame) <=? frames) && negb stop then
        setStoreJointValues (framePose previous next frames frame);;
        wait (nmillis frameTime);;
        frame_loop fuel' previous next frames (frame + 1)%Z
      else mret tt
  end.

(** A node whose state is a pose (lines 318-335). *)
Definition pose_step (joints : list (JointParameter num))
    (locals : Locals num) : Run num (Locals num) :=
  let pose := pose_of joints in
  skip ← (if negb (skipNextJointApplication locals) then
            setStoreJointValues (Number <$> pose);;
            wait 1000;;
            mret (skipNextJointApplication locals)
          else
            wait 100;;
            mret false);
  mret {| currentNodeId := currentNodeId locals;
          previousJointPose := Some pose;
          skipNextJointApplication := skip |}.

(** The pose of the node a transition leads to (lines 344-349), if that
    node has a state, of type "joint", with joints. *)
Definition pose_of_state (nodeState : option (NodeState num))
  : option (gmap string num) :=
  match nodeState with
  | Some {| ns_type := joint; ns_joints := Some joints |} =>
      Some (pose_of joints)
  | _ => None
  end.

(** A node whose state is a transition (lines 336-396). *)
Definition transition_step (fuel : nat) (trans : TransitionOptions num)
    (locals : Locals num) : Run num (Locals num) :=
  nextNodeState ← match nextEdge (currentNodeId locals) with
                  | Some edge => getNodeState (target edge)
                  | None => mret None
                  end;
  let nextJointPose := pose_of_state nextNodeState in
  match smooth trans, previousJointPose locals, nextJointPose with
  | true, Some previous, Some next =>
      frame_loop fuel previous next (totalFrames (smoothness trans)) 0;;
      mret {| currentNodeId := currentNodeId locals;
              previousJointPose := previousJointPose locals;
              skipNextJointApplication := true |}
  | _, _, _ =>
      wait 500;;
      mret locals
  end.

(** The two branches on the state of the current node (lines 318-396);
    a state that is neither a pose with joints nor a transition with
    options is passed over. *)
Definition node_step (fuel : nat) (nodeState : NodeState num)
    (locals : Locals num) : Run num (Locals num) :=
  match ns_type nodeState, ns_joints nodeState, ns_transition nodeState with
  | joint, Some joints, _ => pose_step joints locals
  | transition, _, Some trans => transition_step fuel trans locals
  | _, _, _ => mret locals
  end.

(** [currentNodeId = nextEdge ? nextEdge.target : ""] (lines 399-400). *)
Definition advance (locals : Locals num) : Locals num :=
  {| currentNodeId :=
       match nextEdge (currentNodeId locals) with
       | Some edge => target edge
       | None => ""
       end;
     previousJointPose := previousJointPose locals;
     skipNextJointApplication := skipNextJointApplication locals |}.

(** The body of the [while] loop (lines 312-400). *)
Definition loop_body (fuel : nat) (locals : Locals num)
  : Run num (control (Locals num)) :=
  setActiveNodeId (currentNodeId locals);;
  let currentNode :=
    List.find (λ n, (node_id n =? currentNodeId locals)%string) nodes in
  nodeState ← getNodeState (currentNodeId locals);
  match currentNode, nodeState with
  | Some _, Some nodeState =>
      locals' ← node_step fuel nodeState locals;
      mret (Continue (advance locals'))
  | _, _ => mret Break
  end.

(** [while (currentNodeId && !abortController.signal.aborted)] *)
Fixpoint while_loop (fuel : nat) (locals : Locals num) : Run num unit :=
  match fuel with
  | O => pending
  | S fuel' =>
      stop ← aborted;
      if negb (currentNodeId locals =? "")%string && negb stop then
        c ← loop_body fuel' locals;
        match c with
        | Break => mret tt
        | Continue locals' => while_loop fuel' locals'
        end
      else mret tt
  end.

(** The nodes with no incoming edge (lines 293-295). *)
Definition startNodes : list Node :=
  List.filter
    (λ node, negb (existsb (λ edge, (target edge =? node_id node)%string) edges))
    nodes.

Definition runAnimation (fuel : nat) (isAnimating : bool) : Run num unit :=
  if isAnimating then mret tt
  else
    match startNodes with
    | [] =>
        emit (ToastError
          "No starting node found. Add a node without incoming connections.")
    | start :: _ =>
        emit (SetAnimationAbortController true);;
        emit (SetIsAnimating true);;
        try_catch_finally
          (while_loop fuel
             {| currentNodeId := node_id start;
                previousJointPose := None;
                skipNextJointApplication := false |})
          (emit (ConsoleError "Animation error:");;
           emit (ToastError "Animation encountered an error"))
          (emit (SetIsAnimating false);;
           emit (SetActiveNodeId None);;
           emit (SetAnimationAbortController false))
    end.

(** Invoking [runAnimation] at time 0. *)
Definition run (fuel : nat) (isAnimating : bool) : Outcome num unit :=
  runAnimation fuel isAnimating 0%Q.

(** *** Shapes used to describe the loop *)

(** A transition once the state of the next node has been read. *)
Definition transition_rest (fuel : nat) (trans : TransitionOptions num)
    (locals : Locals num) (nextNodeState : option (NodeState num)) (t : Q)
  : Outcome num (Locals num) :=
  match smooth trans, previousJointPose locals, pose_of_state nextNodeState with
  | true, Some previous, Some next =>
      returning {| currentNodeId := currentNodeId locals;
                   previousJointPose := previousJointPose locals;
                   skipNextJointApplication := true |}
        (frame_loop fuel previous next (totalFrames (smoothness trans)) 0 t)
  | _, _, _ =>
      {| events := [(t, Wait 500)]; now := Qred (t + 500);
         outcome := Ret locals |}
  end.

(** [nodes.find((n) => n.id === currentNodeId)] *)
Definition currentNode (locals : Locals num) : option Node :=
  List.find (λ n, (node_id n =? currentNodeId locals)%string) nodes.

(** The events of the loop: publications, activations and waits, each
    begun at a time at which the cancellation handle had not been
    invoked. *)
Definition loop_event (te : Q * event num) : Prop :=
  cancelled te.1 = false ∧
  match te.2 with
  | SetJointValues _ | SetActiveNodeId (Some _) | Wait _ => True
  | _ => False
  end.

End Sequencer.

Local Open Scope Q_scope.

(** ** The shape of a run *)

Definition started {num} (t : Q) : list (Q * event num) :=
  [(t, SetAnimationAbortController true); (t, SetIsAnimating true)].

Definition caught {num} (t : Q) : list (Q * event num) :=
  [(t, ConsoleError "Animation error:");
   (t, ToastError "Animation encountered an error")].

Definition cleanup {num} (t : Q) : list (Q * event num) :=
  [(t, SetIsAnimating false); (t, SetActiveNodeId None);
   (t, SetAnimationAbortController false)].

Definition first_locals {num} (start : Node) : Locals num :=
  {| currentNodeId := node_id start; previousJointPose := None;
     skipNextJointApplication := false |}.

(** The frame loop with no cancellation and no fault. *)
Definition undisturbed_frames {num} `{JsNumber num} (fuel : nat)
    (previous next : gmap string num) (frames : num) (frame : Z)
  : Run num unit :=
  frame_loop None (λ _, false) fuel previous next frames frame.

(** ** Observations on a trace *)

(** The poses published, oldest first. *)
Definition published {num} (trace : list (Q * event num))
  : list (gmap string (JsValue num)) :=
  omap (λ te, match te.2 with SetJointValues pose => Some pose | _ => None end)
    trace.

Definition clears_active {num} (e : event num) : bool :=
  match e with SetActiveNodeId None => true | _ => false end.

Definition clears_animating {num} (e : event num) : bool :=
  match e with SetIsAnimating false => true | _ => false end.

Definition releases_handle {num} (e : event num) : bool :=
  match e with SetAnimationAbortController false => true | _ => false end.

Definition occurrences {num} (p : event num → bool)
    (trace : list (Q * event num)) : nat :=
  length (List.filter (λ te, p te.2) trace).

(** [activeNodeId] is non-null iff [isAnimating] is true. *)
Definition flags_consistent {num} (st : UiState num) : Prop :=
  activeNodeId st ≠ None ↔ isAnimating st = true.

(** The states in which the waits of a trace begin. *)
Fixpoint wait_states {num} (st : UiState num) (trace : list (Q * event num))
  : list (UiState num) :=
  match trace with
  | [] => []
  | te :: rest =>
      match te.2 with Wait _ => [st] | _ => [] end
      ++ wait_states (apply_event te.2 st) rest
  end.

(** ** Poses and smoothness values of the statements *)

(** A pose read over a set of names, a name the pose has no entry for
    counting as 0. *)
Definition over {num} `{JsNumber num} (names : gset string)
    (pose : gmap string num) : gmap string num :=
  set_to_map
    (λ jointName, (jointName, default (nlit 0) (pose !! jointName))) names.

(** No joint of the pose bears the name of a member of
    [Object.prototype]. *)
Definition plain_names {num} (pose : gmap string num) : Prop :=
  ∀ jointName, is_Some (pose !! jointName) →
    jointName ∉ object_prototype_members.

(** A published object and a pose of rationals with the same names, the
    object holding at each a number equal to that of the pose. *)
Definition same_pose (a : gmap string (JsValue Q)) (b : gmap string Q)
  : Prop :=
  ∀ jointName,
    match a !! jointName, b !! jointName with
    | Some (Number x), Some y => x == y
    | None, None => True
    | _, _ => False
    end.

(** Every joint of the pose has a finite value. *)
Definition finite_pose (pose : gmap string (option Q)) : Prop :=
  ∀ jointName, pose !! jointName ≠ Some None.

(** Every joint of the published object holds a finite number. *)
Definition finite_values (pose : gmap string (JsValue (option Q))) : Prop :=
  ∀ jointName value, pose !! jointName = Some value →
    ∃ x : Q, value = Number (Some x).

(** An integer smoothness value, as a [number]. *)
Definition int_smoothness {num} `{JsNumber num} (s : Z) : num :=
  nlit (inject_Z s).

(** ** Checks on a frame in binary64 *)

(** The normalized time and the eased factor of a frame are finite and lie
    between 0 and 1. *)
Definition F64_frame_finite (frames : float) (f : Z) : bool :=
  let t := (nlit (inject_Z f) / frames)%js in
  is_finite t && (0 <=? t)%float && (t <=? 1)%float &&
  is_finite (easedT t) && (0 <=? easedT t)%float && (easedT t <=? 1)%float.

(** ** Sample graphs *)

(** Pose "a", transition "t", pose "b", in a chain. *)
Definition sample_graph : list Node * list Edge :=
  ([ {| node_id := "a"; node_type := joint |};
     {| node_id := "t"; node_type := transition |};
     {| node_id := "b"; node_type := joint |} ],
   [ {| edge_id := "e1"; source := "a"; target := "t" |};
     {| edge_id := "e2"; source := "t"; target := "b" |} ]).

(** The same graph in the editor, with the transition focused. *)
Definition focused_graph : GraphState :=
  {| graph_nodes := sample_graph.1; graph_edges := sample_graph.2;
     focusedNodeId := Some "t" |}.

(** A single pose node. *)
Definition single_graph : list Node * list Edge :=
  ([ {| node_id := "a"; node_type := joint |} ], []).

(** Two nodes on a cycle: every node has an incoming edge. *)
Definition cycle_graph : list Node * list Edge :=
  ([ {| node_id := "a"; node_type := joint |};
     {| node_id := "b"; node_type := joint |} ],
   [ {| edge_id := "e1"; source := "a"; target := "b" |};
     {| edge_id := "e2"; source := "b"; target := "a" |} ]).

(** Pose "a" followed by a node "x" that has no state. *)
Definition stateless_graph : list Node * list Edge :=
  ([ {| node_id := "a"; node_type := joint |};
     {| node_id := "x"; node_type := joint |} ],
   [ {| edge_id := "e1"; source := "a"; target := "x" |} ]).

Section Samples.
Context {num : Type} `{JsNumber num}.

Definition pose_state (nodeId : string) (joints : list (string * Q))
  : NodeState num :=
  {| ns_id := nodeId; ns_type := joint;
     ns_joints := Some (map (λ j, {| name := j.1; value := nlit j.2 |}) joints);
     ns_transition := None |}.

Definition transition_state (nodeId : string) (smooth : bool) (smoothness : Q)
  : NodeState num :=
  {| ns_id := nodeId; ns_type := transition; ns_joints := None;
     ns_transition := Some {| smooth := smooth; smoothness := nlit smoothness |} |}.

(** Pose "a", a smooth transition "t" of smoothness 100, pose "b". *)
Definition chain_states : gmap string (NodeState num) :=
  list_to_map
    [ ("a", pose_state "a" [("j1", 0.5); ("j2", 1)]);
      ("t", transition_state "t" true 100);
      ("b", pose_state "b" [("j1", 1.5); ("j3", 2)]) ].

Definition idle_state : UiState num :=
  {| jointValues := ∅; isAnimating := false; activeNodeId := None;
     animationAbortController := false |}.

Definition no_fault (c : call num) : bool := false.

(** Every publication throws. *)
Definition publish_fault (c : call num) : bool :=
  match c with CallSetJointValues _ => true | _ => false end.

Definition chain_run (cancelAt : option Q) (faulty : call num → bool)
    (fuel : nat) : Outcome num unit :=
  run sample_graph.1 sample_graph.2 chain_states cancelAt faulty fuel false.

End Samples.

Definition single_run : Outcome Q unit :=
  run single_graph.1 single_graph.2 chain_states None no_fault 10 false.

(** The chain at its transition "t", pose "a" having been applied. *)
Definition at_transition : Locals Q :=
  {| currentNodeId := "t";
     previousJointPose := Some (pose_of [ {| name := "j1"; value := 0.5 |};
                                          {| name := "j2"; value := 1 |} ]);
     skipNextJointApplication := false |}.

(** Two poses of one joint, -2.3 and 2.18, in each arithmetic. *)
Definition low_pose {num} `{JsNumber num} : gmap string num :=
  {[ "j" := nlit (-2.3) ]}.
Definition high_pose {num} `{JsNumber num} : gmap string num :=
  {[ "j" := nlit 2.18 ]}.

(** Two finite poses whose difference exceeds the range of binary64:
    -2^1023 and 2^1023 (about 8.99e307). *)
Definition huge_low : gmap string float := {[ "j" := (-0x1p+1023)%float ]}.
Definition huge_high : gmap string float := {[ "j" := 0x1p+1023%float ]}.

(** Two finite poses whose difference is finite as well: 3 * 2^970 and the
    largest double. *)
Definition top_low : gmap string float := {[ "j" := 0x1.8p+971%float ]}.
Definition top_high : gmap string float :=
  {[ "j" := 0x1.fffffffffffffp+1023%float ]}.

(** A pose whose one joint bears the name of a member of
    [Object.prototype], and a pose without that joint. *)
Definition member_pose {num} `{JsNumber num} : gmap string num :=
  {[ "constructor" := nlit 1 ]}.
Definition other_pose {num} `{JsNumber num} : gmap string num :=
  {[ "j" := nlit 1 ]}.

(** * Binary64 numbers as rationals *)

(** ** Binary64 values *)

(** Two to the power [e], as a rational. *)
Definition pow2 (e : Z) : Q := Qpower 2 e.

(** The mantissa of a shift record, at exponent [e], is the rational [x]
    cut off below that exponent, and its two bits are clear exactly when
    nothing was cut off. *)
Definition shr_inv (mrs : shr_record) (e : Z) (x : Q) : Prop :=
  (0 ≤ shr_m mrs)%Z ∧
  inject_Z (shr_m mrs) * pow2 e <= x ∧
  x < inject_Z (shr_m mrs + 1) * pow2 e ∧
  (shr_r mrs || shr_s mrs = false ↔ x == inject_Z (shr_m mrs) * pow2 e).

(** The same of a mantissa with a location. *)
Definition located (m e : Z) (l : location) (x : Q) : Prop :=
  (0 ≤ m)%Z ∧
  inject_Z m * pow2 e <= x ∧
  x < inject_Z (m + 1) * pow2 e ∧
  (l = loc_Exact ↔ x == inject_Z m * pow2 e).

(** A magnitude binary64 has a number for: an integer below 2^53 times a
    power of two from 2^-1074 to 2^971. *)
Definition repr (q : Q) : Prop :=
  ∃ M E : Z, (0 ≤ M < 2 ^ 53)%Z ∧ (-1074 ≤ E ≤ 971)%Z ∧
    q == inject_Z M * pow2 E.

(** What rounding makes of a mantissa and an exponent. *)
Definition rounded (s : bool) (m3 e3 : Z) : spec_float :=
  match m3 with
  | Z0 => S754_zero s
  | Zpos p => if (e3 <=? 971)%Z then S754_finite s p e3 else S754_infinity s
  | Zneg _ => S754_nan
  end.

(** A zero or a finite number. *)
Definition SFfin (f : spec_float) : bool :=
  match f with
  | S754_zero _ | S754_finite _ _ _ => true
  | _ => false
  end.

(** The rational a finite number denotes; 0 otherwise. *)
Definition SFval (f : spec_float) : Q :=
  match f with
  | S754_finite s m e =>
      if s then - (inject_Z (Zpos m) * pow2 e) else inject_Z (Zpos m) * pow2 e
  | _ => 0
  end.

(** A rational binary64 has a number for. *)
Definition srepr (q : Q) : Prop := repr q ∨ repr (- q).

(** ** The interpolation arithmetic in binary64 *)

(** A smoothness from 0 to 100, any double in that range. *)
Definition in_range (s : float) : Prop :=
  (0 <=? s)%float = true ∧ (s <=? 100)%float = true.

(** In the arithmetic [num] the frame count [frames] stands for the
    integer [n]: the loop condition [frame <= totalFrames] admits the
    frames 0..n and not the frame n + 1. *)
Definition counts {num} `{JsNumber num} (frames : num) (n : Z) : Prop :=
  (∀ f, (0 ≤ f ≤ n)%Z → (nlit (inject_Z f) <=? frames)%js = true) ∧
  (nlit (inject_Z (n + 1)) <=? frames)%js = false.

(** A joint value of moderate size: a double from -2^1022 to 2^1022
    (about 4.5e307). *)
Definition moderate (v : float) : Prop :=
  ((-0x1p+1022) <=? v)%float = true ∧ (v <=? 0x1p+1022)%float = true.

(** Every joint value of the pose is of moderate size. *)
Definition moderate_pose (pose : gmap string float) : Prop :=
  ∀ jointName value, pose !! jointName = Some value → moderate value.

(** A published object and a pose of doubles with the same names, the
    object holding at each a number equal ([===]) to that of the pose. *)
Definition same_numbers (a : gmap string (JsValue float))
    (b : gmap string float) : Prop :=
  ∀ jointName,
    match a !! jointName, b !! jointName with
    | Some (Number x), Some y => (x =? y)%float = true
    | None, None => True
    | _, _ => False
    end.

(** Every joint of the published object holds a finite double. *)
Definition finite_numbers (pose : gmap string (JsValue float)) : Prop :=
  ∀ jointName value, pose !! jointName = Some value →
    ∃ x : float, value = Number x ∧ is_finite x = true.

(** * The rest of the component *)

(** ** Sequence graph model: edge deletion (onDeleteEdge, lines 219-225) *)

(** The notices of the editor callbacks. *)
Inductive toast :=
  | ToastSuccess (msg : string)
  | ToastFailure (msg : string).

(** [setEdges((eds) => eds.filter((edge) => edge.id !== edgeId))] followed
    by [toast.success]. *)
Definition onDeleteEdge (edgeId : string) (graph : GraphState)
  : GraphState * list toast :=
  ({| graph_nodes := graph_nodes graph;
      graph_edges :=
        List.filter (λ edge, negb (edge_id edge =? edgeId)%string)
          (graph_edges graph);
      focusedNodeId := focusedNodeId graph |},
   [ToastSuccess "Connection removed"]).

(** The start nodes of a graph of the editor. *)
Definition graph_startNodes (graph : GraphState) : list Node :=
  startNodes (graph_nodes graph) (graph_edges graph).

(** ** The order of playback *)

(** The node ids a trace activates, oldest first. *)
Definition activated {num} (trace : list (Q * event num)) : list string :=
  omap (λ te, match te.2 with
              | SetActiveNodeId (Some nodeId) => Some nodeId
              | _ => None
              end) trace.

(** The target of the first edge that leaves a node, or "" (lines 399-400). *)
Definition successor (edges : list Edge) (nodeId : string) : string :=
  match nextEdge edges nodeId with
  | Some edge => target edge
  | None => ""
  end.

(** The ids met from [nodeId] on by following first outgoing edges, up to
    the first empty id, at most [steps] of them. *)
Fixpoint route (edges : list Edge) (steps : nat) (nodeId : string)
  : list string :=
  match steps with
  | O => []
  | S steps' =>
      if (nodeId =? "")%string then []
      else nodeId :: route edges steps' (successor edges nodeId)
  end.

(** Nodes "a", "t", "b" with the edges a -> t, t -> b and b -> t: a start
    node that leads into a cycle. *)
Definition lasso_graph : list Node * list Edge :=
  (sample_graph.1,
   sample_graph.2 ++ [ {| edge_id := "e3"; source := "b"; target := "t" |} ]).

(** Two chains, a -> b and c -> d: two start nodes. *)
Definition two_chains : list Node * list Edge :=
  ([ {| node_id := "a"; node_type := joint |};
     {| node_id := "b"; node_type := joint |};
     {| node_id := "c"; node_type := joint |};
     {| node_id := "d"; node_type := joint |} ],
   [ {| edge_id := "e1"; source := "a"; target := "b" |};
     {| edge_id := "e2"; source := "c"; target := "d" |} ]).

(** What one step inside a node does: it activates nothing, and if it
    returns it has kept [currentNodeId]. *)
Definition keeps_node {num} (locals : Locals num) (o : Outcome num (Locals num))
  : Prop :=
  activated (events o) = [] ∧
  ∀ locals', outcome o = Ret locals' →
    currentNodeId locals' = currentNodeId locals.

(** The wait of one frame, in milliseconds. *)
Definition frame_wait {num} `{JsNumber num} : Q :=
  timer (nmillis (frameTime : num)).

(** The longest a pass through the loop body takes when no transition has
    more than 301 frames: the settle pause of a pose, or the 301 frames. *)
Definition longest_step {num} `{JsNumber num} : Q :=
  Qmax 1000 (301 * frame_wait (num := num)).

(** The loop condition [frame <= totalFrames] fails at some frame number
    up to 301. *)
Definition frames_end {num} `{JsNumber num} (frames : num) : Prop :=
  ∃ n : Z, (0 ≤ n ≤ 301)%Z ∧ (nlit (inject_Z n) <=? frames)%js = false.

(** So it does for every transition of the store. *)
Definition transitions_end {num} `{JsNumber num}
    (nodeStates : gmap string (NodeState num)) : Prop :=
  ∀ nodeId nodeState trans,
    nodeStates !! nodeId = Some nodeState →
    ns_transition nodeState = Some trans →
    frames_end (totalFrames (smoothness trans)).

(** Every transition of the store has a smoothness from 0 to 100. *)
Definition smoothness_in_range (nodeStates : gmap string (NodeState float))
  : Prop :=
  ∀ nodeId nodeState trans,
    nodeStates !! nodeId = Some nodeState →
    ns_transition nodeState = Some trans → in_range (smoothness trans).

(** Where a computation stops: not before it started, and no later than
    [bound] after. *)
Definition within {num A} (t bound : Q) (o : Outcome num A) : Prop :=
  outcome o ≠ Pending ∧ t <= now o ∧ now o <= t + bound.

(** Every activation of a node throws. *)
Definition activation_fault {num} (c : call num) : bool :=
  match c with CallSetActiveNodeId _ => true | _ => false end.

(** The error notices of the [catch] block (lines 403-404). *)
Definition logs_error {num} (e : event num) : bool :=
  match e with ConsoleError _ => true | _ => false end.

Definition toasts_error {num} (e : event num) : bool :=
  match e with
  | ToastError msg => (msg =? "Animation encountered an error")%string
  | _ => false
  end.

(** In binary64 the eased factor does not decrease from one frame to the
    next. *)
Definition F64_eased_monotone (k : Z) : bool :=
  let frames : float := totalFrames (int_smoothness k) in
  forallb (λ f, (easedT (nlit (inject_Z f) / frames)
                 <=? easedT (nlit (inject_Z (f + 1)) / frames))%js)
    (seqZ 0 (F64.to_Z frames)).

(** The chain with a smooth transition of smoothness 120. *)
Definition overlarge_states : gmap string (NodeState float) :=
  <[ "t" := transition_state "t" true 120 ]> chain_states.

(** That chain at its transition "t", pose "a" having been applied. *)
Definition overlarge_start : Locals float :=
  {| currentNodeId := "t";
     previousJointPose :=
       Some (pose_of [ {| name := "j1"; value := 0.5%float |};
                       {| name := "j2"; value := 1%float |} ]);
     skipNextJointApplication := false |}.

(** The chain at its transition "t" before any pose has been applied. *)
Definition transition_first : Locals Q :=
  {| currentNodeId := "t"; previousJointPose := None;
     skipNextJointApplication := false |}.

(** Bounds, all of them doubles, on the intermediate results of the frame
    count of a smoothness between [s_lo] and [s_hi]: on [s / 100], on its
    product with 4500, on the duration and on the quotient of the duration
    by the frame time. *)
Record Enclosure := {
  s_lo : float; s_hi : float;
  ratio_lo : float; ratio_hi : float;
  product_lo : float; product_hi : float;
  duration_lo : float; duration_hi : float;
  quotient_lo : float; quotient_hi : float
}.

(** The bounds of an enclosure follow from one another in exact
    arithmetic. *)
Definition encloses (b : Enclosure) : bool :=
  is_finite (s_lo b) && is_finite (s_hi b) &&
  Qle_bool (F64.to_Q (ratio_lo b) * 100) (F64.to_Q (s_lo b)) &&
  Qle_bool (F64.to_Q (s_hi b)) (F64.to_Q (ratio_hi b) * 100) &&
  Qle_bool (F64.to_Q (product_lo b)) (F64.to_Q (ratio_lo b) * 4500) &&
  Qle_bool (F64.to_Q (ratio_hi b) * 4500) (F64.to_Q (product_hi b)) &&
  Qle_bool (F64.to_Q (duration_lo b)) (5000 - F64.to_Q (product_hi b)) &&
  Qle_bool (5000 - F64.to_Q (product_lo b)) (F64.to_Q (duration_hi b)) &&
  Qle_bool (F64.to_Q (quotient_lo b) * F64.to_Q frameTime)
    (F64.to_Q (duration_lo b)) &&
  Qle_bool (F64.to_Q (duration_hi b))
    (F64.to_Q (quotient_hi b) * F64.to_Q frameTime).

(** From 111.125 on the duration is negative. *)
Definition overlarge_bounds : Enclosure :=
  {| s_lo := 111.125; s_hi := 0x1p+1000;
     ratio_lo := 0x1.1c78p+0; ratio_hi := 0x1p+994;
     product_lo := 5000.25; product_hi := 0x1p+1007;
     duration_lo := -0x1p+1008; duration_hi := -0.25;
     quotient_lo := -0x1p+1008; quotient_hi := -0x1p-7 |}.

(** From 110.75 to 111.109375 the duration is positive and shorter than a
    frame. *)
Definition short_bounds : Enclosure :=
  {| s_lo := 110.75; s_hi := 111.109375;
     ratio_lo := 0x1.1b8p+0; ratio_hi := 0x1.1c71p+0;
     product_lo := 4983.375; product_hi := 4999.953125;
     duration_lo := 0.046875; duration_hi := 16.625;
     quotient_lo := 0x1p-9; quotient_hi := 0x1.ffp-1 |}.

(** A smoothness so large that the duration is negative. *)
Definition overlarge (s : float) : Prop :=
  (111.125 <=? s)%float = true ∧ (s <=? 0x1p+1000)%float = true.

(** A smoothness for which the duration is shorter than a frame. *)
Definition short_lived (s : float) : Prop :=
  (110.75 <=? s)%float = true ∧ (s <=? 111.109375)%float = true.

(** A published value that is no number: NaN, or a string. *)
Definition no_number (value : JsValue float) : Prop :=
  match value with
  | Number v => is_nan v = true
  | NotANumber | Text _ => True
  end.

(** ** The node cards of the editor (NodeGraph.tsx, lines 77-287, 480-496) *)

(** A function passed as a prop, named by a token. *)
Definition handler : Type := nat.

(** [NodeData] (lines 77-86); an optional field that is absent or
    [undefined] is [None]. [data_onDelete] holds the id the callback
    [() => handleDeleteNode(node.id)] deletes. *)
Record NodeData (num : Type) := {
  data_type : NodeType;
  data_joints : option (list (JointParameter num));
  data_transition : option (TransitionOptions num);
  data_onJointChange : option handler;
  data_jointValues : option (gmap string num);
  data_selectedJoint : option string;
  data_isFocused : option bool;
  data_onDelete : option string
}.
Arguments data_type {num} _.
Arguments data_joints {num} _.
Arguments data_transition {num} _.
Arguments data_onJointChange {num} _.
Arguments data_jointValues {num} _.
Arguments data_selectedJoint {num} _.
Arguments data_isFocused {num} _.
Arguments data_onDelete {num} _.

(** A node of the editor: the fields the component reads and writes. Its
    [type] is always "customNode"; what the graph library keeps besides
    (size, selection) is carried along unchanged by every [...node]; both
    are left out. *)
Record FlowNode (num : Type) := {
  flow_id : string;
  flow_position : num * num;
  flow_data : NodeData num
}.
Arguments flow_id {num} _.
Arguments flow_position {num} _.
Arguments flow_data {num} _.

Section NodeCards.
Context {num : Type} `{JsNumber num}.

(** [{ ...node, data }] *)
Definition with_data (node : FlowNode num) (data : NodeData num)
  : FlowNode num :=
  {| flow_id := flow_id node; flow_position := flow_position node;
     flow_data := data |}.

(** One joint per available joint, with the value the store has for it, or
    0 (lines 175-178 and 259-262):
    [typeof storeJointValues[name] === 'number' ? storeJointValues[name] : 0] *)
Definition seededJoints (availableJoints : list string)
    (storeJointValues : gmap string num) : list (JointParameter num) :=
  map (λ jointName,
         {| name := jointName; value := joint_or_0 storeJointValues jointName |})
    availableJoints.

(** Modelled from the spec: [setNodeState] of the store module
    (store/useJointStore) replaces the state kept for an id (last write
    wins, no merge); [getNodeState] is the lookup in the same map, and sees
    the states set before it. *)
Definition setNodeState (nodeId : string) (nodeState : NodeState num)
    (nodeStates : gmap string (NodeState num)) : gmap string (NodeState num) :=
  <[nodeId := nodeState]> nodeStates.

(** The body of the [forEach] that initializes the node states (lines
    173-190). *)
Definition initializeNodeState (availableJoints : list string)
    (storeJointValues : gmap string num)
    (nodeStates : gmap string (NodeState num)) (node : FlowNode num)
  : gmap string (NodeState num) :=
  match nodeStates !! flow_id node with
  | Some _ => nodeStates
  | None =>
      match data_type (flow_data node) with
      | joint =>
          setNodeState (flow_id node)
            {| ns_id := flow_id node; ns_type := joint;
               ns_joints := Some (seededJoints availableJoints storeJointValues);
               ns_transition := None |}
            nodeStates
      | transition =>
          setNodeState (flow_id node)
            {| ns_id := flow_id node; ns_type := transition;
               ns_joints := None;
               ns_transition := data_transition (flow_data node) |}
            nodeStates
      end
  end.

(** The effect "Initialize node states in store and seed empty joint
    nodes" (lines 169-192). *)
Definition initializeNodeStates (availableJoints : list string)
    (storeJointValues : gmap string num) (nodes : list (FlowNode num))
    (nodeStates : gmap string (NodeState num))
  : gmap string (NodeState num) :=
  match availableJoints with
  | [] => nodeStates
  | _ :: _ =>
      foldl (initializeNodeState availableJoints storeJointValues) nodeStates
        nodes
  end.

(** [addNode] (lines 251-287); [timestamp] is what [Date.now()] returns. *)
Definition addNode (type : NodeType) (position : option (num * num))
    (timestamp : Z) (mousePosition : option (num * num))
    (onJointChange : option handler) (availableJoints : list string)
    (storeJointValues : gmap string num) (nodes : list (FlowNode num))
  : list (FlowNode num) * list toast :=
  match availableJoints with
  | [] => (nodes, [ToastFailure "Please upload a URDF file first"])
  | _ :: _ =>
      let nodePosition :=
        match position, mousePosition with
        | Some p, _ => p
        | None, Some p => p
        | None, None => (nlit 300, nlit 200)
        end in
      let newNode :=
        {| flow_id := "node-" +:+ pretty timestamp;
           flow_position := nodePosition;
           flow_data :=
             match type with
             | joint =>
                 {| data_type := joint;
                    data_joints :=
                      Some (seededJoints availableJoints storeJointValues);
                    data_transition := None;
                    data_onJointChange := onJointChange;
                    data_jointValues := None; data_selectedJoint := None;
                    data_isFocused := None; data_onDelete := None |}
             | transition =>
                 {| data_type := transition; data_joints := None;
                    data_transition :=
                      Some {| smooth := true; smoothness := nlit 50 |};
                    data_onJointChange := None;
                    data_jointValues := None; data_selectedJoint := None;
                    data_isFocused := None; data_onDelete := None |}
             end |} in
      (nodes ++ [newNode], [])
  end.

(** The effect "Update all nodes with callbacks" (lines 126-137). *)
Definition updateCallbacks (onJointChange : option handler)
    (nodes : list (FlowNode num)) : list (FlowNode num) :=
  map (λ node,
         let data := flow_data node in
         with_data node
           {| data_type := data_type data; data_joints := data_joints data;
              data_transition := data_transition data;
              data_onJointChange := onJointChange;
              data_jointValues := data_jointValues data;
              data_selectedJoint := data_selectedJoint data;
              data_isFocused := data_isFocused data;
              data_onDelete := Some (flow_id node) |})
    nodes.

(** The effect "Only sync store values to focused node" (lines 141-152);
    [!focusedNodeId] holds of [null] and of the empty string. *)
Definition syncStoreValues (focusedNodeId : option string)
    (isAnimating : bool) (storeJointValues : gmap string num)
    (nodes : list (FlowNode num)) : list (FlowNode num) :=
  match focusedNodeId with
  | None => nodes
  | Some focused =>
      if (focused =? "")%string || isAnimating then nodes
      else
        map (λ node,
               let data := flow_data node in
               with_data node
                 {| data_type := data_type data;
                    data_joints := data_joints data;
                    data_transition := data_transition data;
                    data_onJointChange := data_onJointChange data;
                    data_jointValues :=
                      if (flow_id node =? focused)%string
                      then Some storeJointValues
                      else data_jointValues data;
                    data_selectedJoint := data_selectedJoint data;
                    data_isFocused := data_isFocused data;
                    data_onDelete := data_onDelete data |})
          nodes
  end.

(** The effect "Sync selected joint into nodes" (lines 155-166). *)
Definition syncSelectedJoint (selectedJoint : option string)
    (focusedNodeId : option string) (nodes : list (FlowNode num))
  : list (FlowNode num) :=
  map (λ node,
         let data := flow_data node in
         with_data node
           {| data_type := data_type data; data_joints := data_joints data;
              data_transition := data_transition data;
              data_onJointChange := data_onJointChange data;
              data_jointValues := data_jointValues data;
              data_selectedJoint := selectedJoint;
              data_isFocused :=
                Some (bool_decide (focusedNodeId = Some (flow_id node)));
              data_onDelete := data_onDelete data |})
    nodes.

(** The effect "Sync node data from store" (lines 195-212); [getNodeState]
    is the lookup in the node states of the store. *)
Definition syncNodeData (nodeStates : gmap string (NodeState num))
    (nodes : list (FlowNode num)) : list (FlowNode num) :=
  map (λ node,
         match nodeStates !! flow_id node with
         | Some nodeState =>
             let data := flow_data node in
             with_data node
               {| data_type := data_type data;
                  data_joints := ns_joints nodeState;
                  data_transition := ns_transition nodeState;
                  data_onJointChange := data_onJointChange data;
                  data_jointValues := data_jointValues data;
                  data_selectedJoint := data_selectedJoint data;
                  data_isFocused := data_isFocused data;
                  data_onDelete := data_onDelete data |}
         | None => node
         end)
    nodes.

(** What a click on a node does (lines 480-496): the new focus, the pose
    handed to [setStoreJointValues], if any, and the joint handed to
    [onSelectJoint], if any. *)
Record Click := {
  click_focus : option string;
  click_pose : option (gmap string num);
  click_joint : option string
}.

Definition onNodeClick (focusedNodeId : option string)
    (nodeStates : gmap string (NodeState num)) (node : FlowNode num) : Click :=
  let prevFocused := focusedNodeId in
  let focus_only :=
    {| click_focus := Some (flow_id node); click_pose := None;
       click_joint := None |} in
  match data_type (flow_data node) with
  | joint =>
      let joints :=
        match nodeStates !! flow_id node ≫= ns_joints with
        | Some joints => Some joints
        | None => data_joints (flow_data node)
        end in
      match joints with
      | Some ((first :: _) as joints) =>
          {| click_focus := Some (flow_id node);
             click_pose :=
               if bool_decide (prevFocused = Some (flow_id node)) then None
               else Some (pose_of joints);
             click_joint := Some (name first) |}
      | _ => focus_only
      end
  | transition => focus_only
  end.

(** The effects that rewrite the node list leave the nodes in place. *)
Definition same_nodes (before after : list (FlowNode num)) : Prop :=
  map flow_id after = map flow_id before ∧
  map flow_position after = map flow_position before ∧
  map (λ node, data_type (flow_data node)) after
    = map (λ node, data_type (flow_data node)) before.

End NodeCards.

(** A pose node and a transition node as the editor holds them. *)
Definition sample_cards : list (FlowNode Q) :=
  [ {| flow_id := "a"; flow_position := (0, 0);
       flow_data := {| data_type := joint; data_joints := None;
                       data_transition := None; data_onJointChange := None;
                       data_jointValues := None; data_selectedJoint := None;
                       data_isFocused := None; data_onDelete := None |} |};
    {| flow_id := "t"; flow_position := (100, 0);
       flow_data := {| data_type := transition; data_joints := None;
                       data_transition :=
                         Some {| smooth := true; smoothness := 50 |};
                       data_onJointChange := None;
                       data_jointValues := None; data_selectedJoint := None;
                       data_isFocused := None; data_onDelete := None |} |} ].

(** The joint values of a store with two joints. *)
Definition sample_values : gmap string Q :=
  {[ "j1" := 0.5; "j2" := 1 ]}.

(** ** The page (Index, unnamed/part_000) *)

(** The state cells of the page; a file or a blob is named by a token. *)
Record IndexState (num : Type) := {
  urdfFile : option string;
  meshFiles : gmap string string;
  selectedJoint : option string;
  index_jointValues : gmap string num;
  availableJoints : list string
}.
Arguments urdfFile {num} _.
Arguments meshFiles {num} _.
Arguments selectedJoint {num} _.
Arguments index_jointValues {num} _.
Arguments availableJoints {num} _.

Section Index.
Context {num : Type}.

(** [handleFileUpload] (lines 18-20) *)
Definition handleFileUpload (file : string) (st : IndexState num)
  : IndexState num :=
  {| urdfFile := Some file; meshFiles := meshFiles st;
     selectedJoint := selectedJoint st;
     index_jointValues := index_jointValues st;
     availableJoints := availableJoints st |}.

(** [handleSimulationUpload] (lines 22-25) *)
Definition handleSimulationUpload (urdf : string) (meshes : gmap string string)
    (st : IndexState num) : IndexState num :=
  {| urdfFile := Some urdf; meshFiles := meshes;
     selectedJoint := selectedJoint st;
     index_jointValues := index_jointValues st;
     availableJoints := availableJoints st |}.

(** [handleJointChange] (lines 27-32):
    [setJointValues(prev => ({ ...prev, [jointName]: value }))] *)
Definition handleJointChange (jointName : string) (value : num)
    (st : IndexState num) : IndexState num :=
  {| urdfFile := urdfFile st; meshFiles := meshFiles st;
     selectedJoint := selectedJoint st;
     index_jointValues := <[jointName := value]> (index_jointValues st);
     availableJoints := availableJoints st |}.

(** [onRobotJointsLoaded] (lines 47-51); [!selectedJoint] holds of [null]
    and of the empty string. *)
Definition onRobotJointsLoaded (joints : list string)
    (angles : gmap string num) (st : IndexState num) : IndexState num :=
  {| urdfFile := urdfFile st; meshFiles := meshFiles st;
     selectedJoint :=
       match selectedJoint st, joints with
       | None, first :: _ => Some first
       | Some selected, first :: _ =>
           if (selected =? "")%string then Some first else Some selected
       | selected, [] => selected
       end;
     index_jointValues := angles;
     availableJoints := joints |}.

End Index.

(** A page with joint "j9" selected and a value set for it. *)
Definition sample_page : IndexState Q :=
  {| urdfFile := Some "arm.urdf"; meshFiles := ∅;
     selectedJoint := Some "j9";
     index_jointValues := {[ "j9" := 1 ]};
     availableJoints := ["j9"] |}.

(** ** Stopping a run (stopAnimation, lines 412-416) *)

(** [stopAnimation] invoked at time [t]: the time from which the signal of
    the run reads aborted, if a controller is installed. *)
Definition stopAnimation (animationAbortController : bool) (t : Q) : option Q :=
  if animationAbortController then Some t else None.

(** Every state of the store is a pose with joints or a transition with
    options whose smoothness, a double, lies in [0,100]. *)
Definition playable (nodeStates : gmap string (NodeState float)) : Prop :=
  ∀ nodeId nodeState, nodeStates !! nodeId = Some nodeState →
    match ns_type nodeState with
    | joint => is_Some (ns_joints nodeState)
    | transition =>
        ∃ trans, ns_transition nodeState = Some trans ∧
          in_range (smoothness trans)
    end.

(** A step begun at [t], before the stop at [c]: it ends, no later than
    1000 ms after the stop, and unless it throws it has taken 100 ms or has
    reached the stop. *)
Definition step_ends {num A} (c t : Q) (o : Outcome num A) : Prop :=
  outcome o ≠ Pending ∧ now o <= c + 1000 ∧
  (outcome o = Throw ∨ t + 100 <= now o ∨ c <= now o).

(** ** The pace of the publications *)

(** The times at which a trace publishes a pose, oldest first. *)
Definition publish_times {num} (trace : list (Q * event num)) : list Q :=
  omap (λ te, match te.2 with
              | SetJointValues _ => Some te.1
              | _ => None
              end) trace.

(** Each time is at least [gap] before every later one. *)
Fixpoint spaced (gap : Q) (times : list Q) : Prop :=
  match times with
  | [] => True
  | t1 :: rest => Forall (λ t2, t1 + gap <= t2) rest ∧ spaced gap rest
  end.

(** A computation begun at [t] that paces its publications: it stops no
    earlier than [t], stamps nothing before [t], publishes no later than
    [gap] before it stops, and keeps its publications [gap] apart. *)
Definition paced {num A} (gap t : Q) (o : Outcome num A) : Prop :=
  t <= now o ∧
  Forall (λ te, t <= te.1) (events o) ∧
  Forall (λ t1, t1 + gap <= now o) (publish_times (events o)) ∧
  spaced gap (publish_times (events o)).

(** The store once the sample cards have been initialized from the sample
    values. *)
Definition sample_store : gmap string (NodeState Q) :=
  initializeNodeStates ["j1"; "j2"] sample_values sample_cards ∅.

(** * Binary64 arithmetic

    The operations on doubles are specified by [SpecFloat]: the exact
    result, rounded to nearest with ties to even. What is used of them
    below is that rounding does not cross a representable number: a bound
    on the exact result that is itself a double bounds the rounded result.
    A finite double is read as the rational it denotes. *)

Lemma pow2_pos e : 0 < pow2 e.
Proof. apply Qpower_0_lt. reflexivity. Qed.

Lemma pow2_add a b : pow2 (a + b) == pow2 a * pow2 b.
Proof. apply Qpower_plus. discriminate. Qed.

Lemma pow2_Z e : (0 ≤ e)%Z → pow2 e == inject_Z (2 ^ e).
Proof. intros He. unfold pow2. by rewrite Zpower_Qpower. Qed.

Lemma pow2_0 : pow2 0 == 1.
Proof. reflexivity. Qed.

Lemma pow2_S e : pow2 (e + 1) == 2 * pow2 e.
Proof. rewrite pow2_add. change (pow2 1) with 2. ring. Qed.

Lemma pow2_le a b : (a ≤ b)%Z → pow2 a <= pow2 b.
Proof.
  intros Hab. replace b with (a + (b - a))%Z by lia. rewrite pow2_add.
  assert (H1 : 1 <= pow2 (b - a)).
  { rewrite pow2_Z by lia. change 1 with (inject_Z 1). rewrite <- Zle_Qle.
    pose proof (Z.pow_pos_nonneg 2 (b - a)). lia. }
  pose proof (pow2_pos a). nra.
Qed.

Lemma pow2_lt a b : (a < b)%Z → pow2 a < pow2 b.
Proof.
  intros Hab. replace b with (a + 1 + (b - a - 1))%Z by lia.
  rewrite pow2_add, pow2_S.
  assert (H1 : 1 <= pow2 (b - a - 1)).
  { rewrite pow2_Z by lia. change 1 with (inject_Z 1). rewrite <- Zle_Qle.
    pose proof (Z.pow_pos_nonneg 2 (b - a - 1)). lia. }
  pose proof (pow2_pos a). nra.
Qed.

(** An integer multiple of a power of two, moved to a smaller exponent. *)
Lemma pow2_shift (m : Z) a b :
  (b ≤ a)%Z → inject_Z m * pow2 a == inject_Z (m * 2 ^ (a - b)) * pow2 b.
Proof.
  intros Hab. replace a with (b + (a - b))%Z at 1 by lia.
  rewrite pow2_add, (pow2_Z (a - b)) by lia. rewrite inject_Z_mult. ring.
Qed.

(** *** The number of binary digits *)

Lemma digits2_pos_bounds (p : positive) :
  (2 ^ (Zpos (digits2_pos p) - 1) ≤ Zpos p < 2 ^ Zpos (digits2_pos p))%Z.
Proof.
  induction p as [p IH | p IH |]; simpl digits2_pos.
  - rewrite Pos2Z.inj_succ. replace (Z.succ (Zpos (digits2_pos p)) - 1)%Z
      with (Z.succ (Zpos (digits2_pos p) - 1)) by lia.
    rewrite !Z.pow_succ_r by lia. lia.
  - rewrite Pos2Z.inj_succ. replace (Z.succ (Zpos (digits2_pos p)) - 1)%Z
      with (Z.succ (Zpos (digits2_pos p) - 1)) by lia.
    rewrite !Z.pow_succ_r by lia. lia.
  - simpl. lia.
Qed.

Lemma Zdigits2_bounds (m : Z) :
  (0 < m)%Z → (2 ^ (Zdigits2 m - 1) ≤ m < 2 ^ Zdigits2 m)%Z ∧ (0 < Zdigits2 m)%Z.
Proof.
  destruct m as [|p|p]; try lia. intros _. simpl.
  split; [apply digits2_pos_bounds | lia].
Qed.

Lemma Zdigits2_nonneg (m : Z) : (0 ≤ Zdigits2 m)%Z.
Proof. destruct m; simpl; lia. Qed.

Lemma Zdigits2_le (m d : Z) : (0 ≤ d)%Z → (0 ≤ m < 2 ^ d)%Z → (Zdigits2 m ≤ d)%Z.
Proof.
  intros Hd Hm. destruct (Z.eq_dec m 0%Z) as [-> | Hne]; [simpl; lia|].
  destruct (Zdigits2_bounds m) as [[Hlo _] Hpos]; [lia|].
  destruct (Z_lt_le_dec d (Zdigits2 m)) as [Hlt | Hle]; [|done].
  assert (2 ^ d ≤ 2 ^ (Zdigits2 m - 1))%Z by (apply Z.pow_le_mono_r; lia). lia.
Qed.

Lemma Zdigits2_ge (m d : Z) : (2 ^ (d - 1) ≤ m)%Z → (0 < m)%Z → (d ≤ Zdigits2 m)%Z.
Proof.
  intros Hm Hpos.
  destruct (Zdigits2_bounds m Hpos) as [[_ Hhi] Hd].
  destruct (Z_lt_le_dec (Zdigits2 m) d) as [Hlt | Hle]; [|done].
  assert (2 ^ Zdigits2 m ≤ 2 ^ (d - 1))%Z by (apply Z.pow_le_mono_r; lia). lia.
Qed.

Lemma shr_1_inv mrs e x :
  shr_inv mrs e x →
  shr_inv (shr_1 mrs) (e + 1) x ∧ shr_m (shr_1 mrs) = (shr_m mrs / 2)%Z.
Proof.
  destruct mrs as [m r s]. unfold shr_inv. cbn [shr_m shr_r shr_s].
  intros (Hm & Hlo & Hhi & Hex).
  pose proof (pow2_pos e) as HP. pose proof (pow2_S e) as HS.
  set (P := pow2 e) in *. set (P' := pow2 (e + 1)) in *.
  clearbody P P'.
  assert (Hdiv : ∀ p : positive, (Zpos (xO p) / 2 = Zpos p)%Z ∧ (Zpos (xI p) / 2 = Zpos p)%Z).
  { intros p. split.
    - change (Zpos (xO p)) with (2 * Zpos p)%Z. rewrite Z.mul_comm.
      by rewrite Z.div_mul.
    - change (Zpos (xI p)) with (2 * Zpos p + 1)%Z. rewrite Z.mul_comm.
      rewrite Z.div_add_l by done. change (1 / 2)%Z with 0%Z. lia. }
  destruct m as [|[p|p|]|p]; try lia; cbn [shr_1 shr_m shr_r shr_s].
  - (* 0 *)
    change (inject_Z (0 + 1)) with 1 in *. change (inject_Z 0) with 0 in *.
    split; [|done]. split; [lia|]. split; [nra|]. split; [nra|].
    cbn [orb]. rewrite Hex. split; intros Heq; nra.
  - (* 2p+1 *)
    change (Zpos (xI p)) with (2 * Zpos p + 1)%Z in *.
    rewrite ?inject_Z_plus, ?inject_Z_mult in *.
    change (inject_Z 2) with 2 in *. change (inject_Z 1) with 1 in *.
    set (q := inject_Z (Zpos p)) in *.
    split; [|rewrite Z.mul_comm, Z.div_add_l by done;
             change (1 / 2)%Z with 0%Z; lia].
    split; [lia|]. split; [nra|]. split; [nra|].
    split; [done|]. intros Heq. nra.
  - (* 2p *)
    change (Zpos (xO p)) with (2 * Zpos p)%Z in *.
    rewrite ?inject_Z_plus, ?inject_Z_mult in *.
    change (inject_Z 2) with 2 in *. change (inject_Z 1) with 1 in *.
    set (q := inject_Z (Zpos p)) in *.
    split; [|rewrite Z.mul_comm; by rewrite Z.div_mul].
    split; [lia|]. split; [nra|]. split; [nra|].
    cbn [orb]. rewrite Hex. split; intros Heq; nra.
  - (* 1 *)
    change (inject_Z (1 + 1)) with 2 in *. change (inject_Z 1) with 1 in *.
    change (inject_Z (0 + 1)) with 1. change (inject_Z 0) with 0.
    split; [|done]. split; [lia|]. split; [nra|]. split; [nra|].
    split; [done|]. intros Heq. nra.
Qed.

Lemma iter_shr_1_inv (p : positive) : ∀ mrs e x,
  shr_inv mrs e x →
  shr_inv (SpecFloat.iter_pos shr_1 p mrs) (e + Zpos p) x ∧
  shr_m (SpecFloat.iter_pos shr_1 p mrs) = (shr_m mrs / 2 ^ Zpos p)%Z.
Proof.
  induction p as [p IH | p IH |]; intros mrs e x Hinv; cbn [SpecFloat.iter_pos].
  - destruct (shr_1_inv mrs e x Hinv) as [H1 E1].
    destruct (IH _ _ _ H1) as [H2 E2]. destruct (IH _ _ _ H2) as [H3 E3].
    replace (e + Zpos (xI p))%Z with (e + 1 + Zpos p + Zpos p)%Z by lia.
    split; [done|]. rewrite E3, E2, E1.
    rewrite !Z.div_div by lia. f_equal.
    replace (Zpos (xI p)) with (1 + Zpos p + Zpos p)%Z by lia.
    rewrite !Z.pow_add_r by lia. lia.
  - destruct (IH _ _ _ Hinv) as [H2 E2]. destruct (IH _ _ _ H2) as [H3 E3].
    replace (e + Zpos (xO p))%Z with (e + Zpos p + Zpos p)%Z by lia.
    split; [done|]. rewrite E3, E2.
    rewrite !Z.div_div by lia. f_equal.
    replace (Zpos (xO p)) with (Zpos p + Zpos p)%Z by lia.
    rewrite !Z.pow_add_r by lia. lia.
  - destruct (shr_1_inv mrs e x Hinv) as [H1 E1]. split; [done|].
    by rewrite E1.
Qed.

Lemma shr_spec mrs e n x :
  shr_inv mrs e x →
  shr_inv (shr mrs e n).1 (shr mrs e n).2 x ∧
  (shr mrs e n).2 = (e + Z.max 0 n)%Z ∧
  shr_m (shr mrs e n).1 = (shr_m mrs / 2 ^ Z.max 0 n)%Z.
Proof.
  intros Hinv. destruct n as [|p|p]; cbn [shr fst snd].
  - rewrite Z.add_0_r. split; [done|]. split; [done|]. simpl.
    by rewrite Z.div_1_r.
  - destruct (iter_shr_1_inv p mrs e x Hinv) as [H1 E1].
    replace (Z.max 0 (Zpos p)) with (Zpos p) by lia. done.
  - replace (Z.max 0 (Zneg p)) with 0%Z by lia. rewrite Z.add_0_r.
    split; [done|]. split; [done|]. simpl. by rewrite Z.div_1_r.
Qed.

Lemma shr_record_of_loc_inv m e l x :
  located m e l x → shr_inv (shr_record_of_loc m l) e x.
Proof.
  intros (Hm & Hlo & Hhi & Hex). unfold shr_inv.
  destruct l as [|[]]; cbn [shr_record_of_loc shr_m shr_r shr_s orb];
    (split; [done|]); (split; [done|]); (split; [done|]);
    rewrite <- Hex; split; done.
Qed.

Lemma loc_of_shr_record_exact mrs :
  loc_of_shr_record mrs = loc_Exact ↔ shr_r mrs || shr_s mrs = false.
Proof. destruct mrs as [m [] []]; simpl; split; done. Qed.

Lemma fexp_eq (k : Z) : fexp prec emax k = Z.max (k - 53) (-1074).
Proof. reflexivity. Qed.

Lemma inject_Z_mul_lt (a b : Z) (P : Q) :
  0 < P → inject_Z a * P < inject_Z b * P → (a < b)%Z.
Proof.
  intros HP Hlt. rewrite Zlt_Qlt. nra.
Qed.

Lemma round_nearest_even_cases m l :
  (round_nearest_even m l = m ∨ round_nearest_even m l = (m + 1)%Z) ∧
  (l = loc_Exact → round_nearest_even m l = m).
Proof.
  split.
  - destruct l as [|[]]; simpl; auto. destruct (Z.even m); auto.
  - by intros ->.
Qed.

(** Rounding never crosses a magnitude that binary64 has a number for. *)
Lemma round_aux_spec (s : bool) (m e : Z) (l : location) (x : Q) :
  located m e l x →
  (e ≤ fexp prec emax (Zdigits2 m + e))%Z →
  ∃ m3 e3 : Z,
    binary_round_aux prec emax s m e l = rounded s m3 e3 ∧
    (0 ≤ m3 < 2 ^ 53)%Z ∧ (-1074 ≤ e3)%Z ∧ (-1074 < e3 → 2 ^ 52 ≤ m3)%Z ∧
    (∀ R, repr R → x <= R → inject_Z m3 * pow2 e3 <= R) ∧
    (∀ R, repr R → R <= x → R <= inject_Z m3 * pow2 e3).
Proof.
  intros Hloc Hcanon. rewrite fexp_eq in Hcanon.
  pose proof (shr_record_of_loc_inv m e l x Hloc) as Hinv.
  destruct Hloc as (Hm & _).
  unfold binary_round_aux, shr_fexp. rewrite !fexp_eq.
  set (d := Zdigits2 m) in *.
  set (n := (Z.max (d + e - 53) (-1074) - e)%Z).
  assert (Hn : (0 ≤ n)%Z) by lia.
  destruct (shr_spec (shr_record_of_loc m l) e n x Hinv) as (Hinv1 & He1 & Hm1).
  destruct (shr (shr_record_of_loc m l) e n) as [mrs1 e1].
  cbn [fst snd] in *.
  replace (shr_m (shr_record_of_loc m l)) with m in Hm1
    by (by destruct l as [|[]]).
  replace (Z.max 0 n) with n in * by lia.
  set (m1 := shr_m mrs1) in *.
  assert (He1' : e1 = Z.max (d + e - 53) (-1074)) by lia.
  assert (Hd : (0 ≤ d)%Z) by apply Zdigits2_nonneg.
  assert (Hpow : (0 < 2 ^ n)%Z) by (apply Z.pow_pos_nonneg; lia).
  (* the mantissa after the shift *)
  assert (Hm1hi : (m1 < 2 ^ 53)%Z).
  { rewrite Hm1. apply Z.div_lt_upper_bound; [done|].
    destruct (Z.eq_dec m 0%Z) as [-> | Hne]; [lia|].
    destruct (Zdigits2_bounds m) as [[_ Hhi] _]; [lia|]. fold d in Hhi.
    apply Z.lt_le_trans with (2 ^ d)%Z; [done|].
    rewrite <- Z.pow_add_r by lia. apply Z.pow_le_mono_r; lia. }
  assert (Hm1lo : (-1074 < e1 → 2 ^ 52 ≤ m1)%Z).
  { intros Hgt. assert (Hmpos : (0 < m)%Z).
    { destruct (Z.eq_dec m 0%Z) as [Hz | Hne]; [|lia].
      subst m. unfold d in *. simpl in *. lia. }
    destruct (Zdigits2_bounds m Hmpos) as [[Hlo _] _]. fold d in Hlo.
    rewrite Hm1. apply Z.div_le_lower_bound; [done|].
    rewrite <- Z.pow_add_r by lia.
    replace (n + 52)%Z with (d - 1)%Z by lia. done. }
  destruct Hinv1 as (Hm1pos & Hlo1 & Hhi1 & Hex1). fold m1 in Hlo1, Hhi1, Hex1.
  rewrite <- loc_of_shr_record_exact in Hex1.
  destruct (round_nearest_even_cases m1 (loc_of_shr_record mrs1))
    as [Hm2 Hm2ex].
  set (m2 := round_nearest_even m1 (loc_of_shr_record mrs1)) in *.
  pose proof (pow2_pos e1) as HP1.
  (* no crossing, for the mantissa m2 at exponent e1 *)
  assert (Hcross : ∀ R, repr R →
    (x <= R → inject_Z m2 * pow2 e1 <= R) ∧
    (R <= x → R <= inject_Z m2 * pow2 e1)).
  { intros R (M & E & HM & HE & HR).
    assert (Hm2le : inject_Z m1 * pow2 e1 <= inject_Z m2 * pow2 e1).
    { destruct Hm2 as [-> | ->]; [apply Qle_refl|].
      rewrite inject_Z_plus. change (inject_Z 1) with 1. nra. }
    assert (Hm2hi : inject_Z m2 * pow2 e1 <= inject_Z (m1 + 1) * pow2 e1).
    { destruct Hm2 as [-> | ->]; [|apply Qle_refl].
      rewrite inject_Z_plus. change (inject_Z 1) with 1. nra. }
    destruct (Z_le_gt_dec e1 E) as [HEe | HEe].
    - (* R is a multiple of 2^e1 *)
      rewrite (pow2_shift M E e1 HEe) in HR.
      set (K := (M * 2 ^ (E - e1))%Z) in *. split.
      + intros HxR.
        destruct (Qeq_dec x (inject_Z m1 * pow2 e1)) as [Heq | Hne].
        * rewrite (Hm2ex (proj2 Hex1 Heq)). by rewrite <- Heq.
        * assert (Hlt : inject_Z m1 * pow2 e1 < inject_Z K * pow2 e1).
          { rewrite <- HR. apply Qlt_le_trans with x; [|done].
            apply Qle_lteq in Hlo1 as [Hlt | Heq]; [done|].
            by destruct Hne. }
          apply inject_Z_mul_lt in Hlt; [|done].
          rewrite HR. apply Qle_trans with (inject_Z (m1 + 1) * pow2 e1);
            [done|].
          apply Qmult_le_compat_r; [|by apply Qlt_le_weak].
          rewrite <- Zle_Qle. lia.
      + intros HRx.
        assert (Hlt : inject_Z K * pow2 e1 < inject_Z (m1 + 1) * pow2 e1).
        { rewrite <- HR. by apply Qle_lt_trans with x. }
        apply inject_Z_mul_lt in Hlt; [|done].
        rewrite HR. apply Qle_trans with (inject_Z m1 * pow2 e1); [|done].
        apply Qmult_le_compat_r; [|by apply Qlt_le_weak].
        rewrite <- Zle_Qle. lia.
    - (* R lies below 2^52 * 2^e1 *)
      assert (Hbig : (2 ^ 52 ≤ m1)%Z) by (apply Hm1lo; lia).
      assert (HRlt : R <= inject_Z m1 * pow2 e1).
      { rewrite HR.
        apply Qle_trans with (inject_Z (2 ^ 53) * pow2 E).
        - apply Qmult_le_compat_r; [|apply Qlt_le_weak, pow2_pos].
          rewrite <- Zle_Qle. lia.
        - apply Qle_trans with (inject_Z (2 ^ 53) * pow2 (e1 - 1)).
          + apply Qmult_le_l; [reflexivity|]. apply pow2_le. lia.
          + replace e1 with (e1 - 1 + 1)%Z at 2 by lia.
            rewrite pow2_S.
            assert (Hq : inject_Z (2 ^ 52) <= inject_Z m1)
              by (by rewrite <- Zle_Qle).
            change (inject_Z (2 ^ 53)) with (2 * inject_Z (2 ^ 52)).
            pose proof (pow2_pos (e1 - 1)). nra. }
      split.
      + intros HxR.
        destruct (Qeq_dec x (inject_Z m1 * pow2 e1)) as [Heq | Hne].
        * rewrite (Hm2ex (proj2 Hex1 Heq)). by rewrite <- Heq.
        * exfalso. apply Hne. apply Qle_antisym; [|done].
          by apply Qle_trans with R.
      + intros _. by apply Qle_trans with (inject_Z m1 * pow2 e1). }
  assert (Hm2range : (0 ≤ m2 ≤ 2 ^ 53)%Z) by (destruct Hm2 as [-> | ->]; lia).
  (* the second shift *)
  rewrite fexp_eq. change (emax - prec)%Z with 971%Z.
  destruct (Z.eq_dec m2 (2 ^ 53)%Z) as [Hfull | Hnot].
  - exists (2 ^ 52)%Z, (e1 + 1)%Z.
    assert (Hd2 : Zdigits2 m2 = 54%Z) by (rewrite Hfull; reflexivity).
    rewrite Hd2.
    replace (Z.max (54 + e1 - 53) (-1074) - e1)%Z with 1%Z by lia.
    rewrite Hfull.
    assert (Hshr : shr (shr_record_of_loc (2 ^ 53) loc_Exact) e1 1
                   = ({| shr_m := 2 ^ 52; shr_r := false; shr_s := false |},
                      (e1 + 1)%Z)) by reflexivity.
    rewrite Hshr. cbn [shr_m].
    split; [reflexivity|]. split; [lia|]. split; [lia|]. split; [lia|].
    assert (Hsame : inject_Z (2 ^ 52) * pow2 (e1 + 1)
                    == inject_Z m2 * pow2 e1).
    { rewrite pow2_S, Hfull.
      change (inject_Z (2 ^ 53)) with (2 * inject_Z (2 ^ 52)). ring. }
    split; intros R HR Hx; rewrite Hsame; by apply (Hcross R HR).
  - exists m2, e1.
    assert (Hd2 : (Zdigits2 m2 ≤ 53)%Z) by (apply Zdigits2_le; lia).
    set (n2 := (Z.max (Zdigits2 m2 + e1 - 53) (-1074) - e1)%Z).
    assert (Hn2 : (n2 ≤ 0)%Z) by lia.
    assert (Hshr : shr (shr_record_of_loc m2 loc_Exact) e1 n2
                   = (shr_record_of_loc m2 loc_Exact, e1)).
    { destruct n2; done || lia. }
    rewrite Hshr. cbn [shr_record_of_loc shr_m].
    split; [reflexivity|]. split; [lia|]. split; [lia|].
    split; [intros Hgt; destruct Hm2 as [-> | ->]; specialize (Hm1lo Hgt); lia|].
    split; intros R HR Hx; by apply (Hcross R HR).
Qed.

Lemma repr_nonneg q : repr q → 0 <= q.
Proof.
  intros (M & E & HM & _ & ->). pose proof (pow2_pos E).
  assert (0 <= inject_Z M) by (change 0 with (inject_Z 0); rewrite <- Zle_Qle; lia).
  nra.
Qed.

Lemma repr_0 : repr 0.
Proof. exists 0%Z, 0%Z. split; [lia|]. split; [lia|]. reflexivity. Qed.

Lemma repr_proper q q' : q == q' → repr q → repr q'.
Proof. intros Heq (M & E & HM & HE & Hq). exists M, E. by rewrite <- Heq. Qed.

Lemma srepr_proper q q' : q == q' → srepr q → srepr q'.
Proof.
  intros Heq [Hr | Hr]; [left | right].
  - by apply (repr_proper q).
  - apply (repr_proper (- q)); [by rewrite Heq | done].
Qed.

Lemma srepr_nonneg q : srepr q → 0 <= q → repr q.
Proof.
  intros [Hr | Hr] Hq; [done|]. apply repr_nonneg in Hr.
  apply (repr_proper 0); [lra | apply repr_0].
Qed.

Lemma srepr_nonpos q : srepr q → q <= 0 → repr (- q).
Proof.
  intros [Hr | Hr] Hq; [|done]. apply repr_nonneg in Hr.
  apply (repr_proper 0); [lra | apply repr_0].
Qed.

Lemma srepr_opp q : srepr q → srepr (- q).
Proof.
  intros [Hr | Hr]; [right | left]; [|done].
  apply (repr_proper q); [ring | done].
Qed.

Lemma repr_lt_top q : repr q → q < inject_Z (2 ^ 53) * pow2 971.
Proof.
  intros (M & E & HM & HE & ->).
  apply Qlt_le_trans with (inject_Z (2 ^ 53) * pow2 E).
  - apply Qmult_lt_compat_r; [apply pow2_pos|]. rewrite <- Zlt_Qlt. lia.
  - apply Qmult_le_l; [reflexivity|]. apply pow2_le. lia.
Qed.

(** What a valid finite number is made of. *)
Lemma valid_finite s m e :
  valid_binary (S754_finite s m e) = true →
  (Zpos m < 2 ^ 53)%Z ∧ (-1074 ≤ e ≤ 971)%Z ∧
  (-1074 < e → 2 ^ 52 ≤ Zpos m)%Z ∧
  fexp prec emax (Zpos (digits2_pos m) + e) = e.
Proof.
  unfold valid_binary, bounded, canonical_mantissa.
  intros [Hcan Hle]%andb_true_iff.
  apply Z.eqb_eq in Hcan. apply Z.leb_le in Hle.
  change (emax - prec)%Z with 971%Z in Hle.
  pose proof Hcan as Hcan'. rewrite fexp_eq in Hcan'.
  pose proof (digits2_pos_bounds m) as [Hlo Hhi].
  set (d := Zpos (digits2_pos m)) in *.
  split; [|split; [lia|split; [|done]]].
  - apply Z.lt_le_trans with (2 ^ d)%Z; [done|].
    apply Z.pow_le_mono_r; lia.
  - intros Hgt. replace 52%Z with (d - 1)%Z by lia. done.
Qed.

Lemma valid_repr s m e :
  valid_binary (S754_finite s m e) = true →
  repr (inject_Z (Zpos m) * pow2 e).
Proof.
  intros (Hm & He & _)%valid_finite. exists (Zpos m), e.
  split; [lia|]. split; [done | reflexivity].
Qed.

Lemma SFval_srepr f : valid_binary f = true → srepr (SFval f).
Proof.
  destruct f as [| | |s m e]; try (intros _; left; apply repr_0).
  intros Hv%valid_repr. destruct s; simpl; [right | left]; [|done].
  apply (repr_proper (inject_Z (Zpos m) * pow2 e)); [ring | done].
Qed.

(** Rounding with a sign: the result is finite and within every pair of
    bounds that binary64 has numbers for. *)
Lemma rounded_bounds (s : bool) (m e : Z) (l : location) (x lo hi : Q) :
  located m e l x →
  (e ≤ fexp prec emax (Zdigits2 m + e))%Z →
  srepr lo → srepr hi →
  lo <= (if s then - x else x) → (if s then - x else x) <= hi →
  SFfin (binary_round_aux prec emax s m e l) = true ∧
  lo <= SFval (binary_round_aux prec emax s m e l) ∧
  SFval (binary_round_aux prec emax s m e l) <= hi.
Proof.
  intros Hloc Hcanon Hlo Hhi Hxlo Hxhi.
  assert (Hx : 0 <= x).
  { destruct Hloc as (Hm & Hle & _). pose proof (pow2_pos e).
    assert (0 <= inject_Z m)
      by (change 0 with (inject_Z 0); rewrite <- Zle_Qle; lia).
    nra. }
  destruct (round_aux_spec s m e l x Hloc Hcanon)
    as (m3 & e3 & -> & Hm3 & He3 & Hbig & Hle & Hge).
  set (v := inject_Z m3 * pow2 e3) in *.
  assert (Hv : 0 <= v).
  { unfold v. pose proof (pow2_pos e3).
    assert (0 <= inject_Z m3)
      by (change 0 with (inject_Z 0); rewrite <- Zle_Qle; lia).
    nra. }
  (* a bound on the magnitude *)
  assert (Htop : ∃ B, repr B ∧ v <= B).
  { destruct s.
    - exists (- lo). assert (HB : repr (- lo)) by (apply srepr_nonpos; [done | lra]).
      split; [done|]. apply Hle; [done | lra].
    - exists hi. assert (HB : repr hi) by (apply srepr_nonneg; [done | lra]).
      split; [done|]. by apply Hle. }
  destruct Htop as (B & HB & HvB). apply repr_lt_top in HB.
  assert (Hfin : m3 ≠ 0%Z → (e3 ≤ 971)%Z).
  { intros Hnz. destruct (Z_le_gt_dec e3 971) as [Hok | Hover]; [done|].
    exfalso. assert (Hm3big : (2 ^ 52 ≤ m3)%Z) by (apply Hbig; lia).
    assert (Hbigv : inject_Z (2 ^ 53) * pow2 971 <= v).
    { unfold v.
      change (inject_Z (2 ^ 53)) with (2 * inject_Z (2 ^ 52)).
      apply Qle_trans with (inject_Z (2 ^ 52) * pow2 972).
      - change 972%Z with (971 + 1)%Z. rewrite pow2_S. lra.
      - apply Qle_trans with (inject_Z (2 ^ 52) * pow2 e3).
        + apply Qmult_le_l; [reflexivity|]. apply pow2_le. lia.
        + apply Qmult_le_compat_r; [|apply Qlt_le_weak, pow2_pos].
          by rewrite <- Zle_Qle. }
    lra. }
  assert (Hval : SFfin (rounded s m3 e3) = true ∧
                 SFval (rounded s m3 e3) == (if s then - v else v)).
  { unfold rounded. destruct m3 as [|p|p]; [| |lia].
    - split; [done|]. unfold v. simpl. destruct s; ring.
    - assert (He : (e3 <=? 971)%Z = true) by (apply Z.leb_le, Hfin; lia).
      rewrite He. split; [done|]. unfold v. simpl. by destruct s. }
  destruct Hval as [Hf ->]. split; [done|].
  destruct s.
  - split.
    + assert (v <= - lo); [|lra].
      apply Hle; [apply srepr_nonpos; [done | lra] | lra].
    + destruct (Qlt_le_dec hi 0) as [Hneg | Hpos]; [|lra].
      assert (- hi <= v); [|lra].
      apply Hge; [apply srepr_nonpos; [done | lra] | lra].
  - split.
    + destruct (Qlt_le_dec 0 lo) as [Hpos | Hneg]; [|lra].
      apply Hge; [apply srepr_nonneg; [done | lra] | lra].
    + apply Hle; [apply srepr_nonneg; [done | lra] | lra].
Qed.

(** *** Multiplication *)

Lemma Zdigits2_mul (a b : positive) :
  (Zpos (digits2_pos a) + Zpos (digits2_pos b) - 1
   ≤ Zpos (digits2_pos (a * b)))%Z.
Proof.
  pose proof (digits2_pos_bounds a) as [Ha _].
  pose proof (digits2_pos_bounds b) as [Hb _].
  change (Zpos (digits2_pos (a * b))) with (Zdigits2 (Zpos (a * b))).
  apply Zdigits2_ge; [|lia].
  replace (Zpos (digits2_pos a) + Zpos (digits2_pos b) - 1 - 1)%Z
    with ((Zpos (digits2_pos a) - 1) + (Zpos (digits2_pos b) - 1))%Z by lia.
  rewrite Z.pow_add_r by lia. rewrite Pos2Z.inj_mul.
  apply Z.mul_le_mono_nonneg; lia.
Qed.

Lemma SFmul_bounds (x y : spec_float) (lo hi : Q) :
  valid_binary x = true → valid_binary y = true →
  SFfin x = true → SFfin y = true →
  srepr lo → srepr hi →
  lo <= SFval x * SFval y → SFval x * SFval y <= hi →
  SFfin (SF64mul x y) = true ∧
  lo <= SFval (SF64mul x y) ∧ SFval (SF64mul x y) <= hi.
Proof.
  intros Hvx Hvy Hfx Hfy Hlo Hhi Hxlo Hxhi.
  destruct x as [sx| | |sx mx ex], y as [sy| | |sy my ey]; try done;
    try (simpl in *; split; [done|]; split; lra).
  unfold SF64mul, SFmul.
  pose proof (valid_finite _ _ _ Hvx) as (Hmx & Hex & Hbx & Hcx).
  pose proof (valid_finite _ _ _ Hvy) as (Hmy & Hey & Hby & Hcy).
  rewrite fexp_eq in Hcx, Hcy.
  apply (rounded_bounds _ _ _ _
           (inject_Z (Zpos (mx * my)) * pow2 (ex + ey))); try done.
  - split; [lia|]. split; [apply Qle_refl|]. split; [|done].
    rewrite inject_Z_plus. pose proof (pow2_pos (ex + ey)).
    change (inject_Z 1) with 1. nra.
  - rewrite fexp_eq. pose proof (Zdigits2_mul mx my).
    simpl Zdigits2.
    pose proof (digits2_pos_bounds mx) as [Hlx Hhx].
    pose proof (digits2_pos_bounds my) as [Hly Hhy]. lia.
  - simpl in Hxlo. pose proof (pow2_add ex ey) as Hadd.
    rewrite Pos2Z.inj_mul, inject_Z_mult.
    destruct sx, sy; cbn [xorb]; nra.
  - simpl in Hxhi. pose proof (pow2_add ex ey) as Hadd.
    rewrite Pos2Z.inj_mul, inject_Z_mult.
    destruct sx, sy; cbn [xorb]; nra.
Qed.

(** *** Division *)

Lemma new_location_exact (nb k : Z) : new_location nb k = loc_Exact ↔ k = 0%Z.
Proof.
  unfold new_location, new_location_even, new_location_odd.
  destruct (Z.even nb), (Z.eqb_spec k 0); split; done.
Qed.

Lemma div_core_spec (mx my : positive) (ex ey : Z) :
  let '(q, e', l) := SFdiv_core_binary prec emax (Zpos mx) ex (Zpos my) ey in
  located q e' l
    ((inject_Z (Zpos mx) * pow2 ex) / (inject_Z (Zpos my) * pow2 ey)) ∧
  (e' ≤ fexp prec emax (Zdigits2 q + e'))%Z.
Proof.
  unfold SFdiv_core_binary. rewrite !fexp_eq.
  set (d1 := Zdigits2 (Zpos mx)). set (d2 := Zdigits2 (Zpos my)).
  set (D := (d1 + ex - (d2 + ey))%Z).
  set (e' := Z.min (Z.max (D - 53) (-1074)) (ex - ey)).
  set (s := (ex - ey - e')%Z).
  assert (Hs : (0 ≤ s)%Z) by lia.
  set (m' := match s with
             | 0%Z => Zpos mx
             | Zpos _ => Z.shiftl (Zpos mx) s
             | Zneg _ => 0%Z
             end).
  assert (Hm' : m' = (Zpos mx * 2 ^ s)%Z).
  { unfold m'. destruct s as [|p|p] eqn:Es; [simpl; lia | | lia].
    by rewrite Z.shiftl_mul_pow2. }
  pose proof (Z_div_mod m' (Zpos my) ltac:(lia)) as Hdm.
  destruct (Z.div_eucl m' (Zpos my)) as [q r]. destruct Hdm as [Hdm Hr].
  assert (Hpow : (0 < 2 ^ s)%Z) by (apply Z.pow_pos_nonneg; lia).
  assert (Hq : (0 ≤ q)%Z) by nia.
  (* the quotient, as a rational *)
  set (x := (inject_Z (Zpos mx) * pow2 ex) / (inject_Z (Zpos my) * pow2 ey)).
  pose proof (pow2_pos e') as HP. pose proof (pow2_pos ey) as HPy.
  assert (Ha : 0 < inject_Z (Zpos my)).
  { change 0 with (inject_Z 0). rewrite <- Zlt_Qlt. lia. }
  assert (Hx : x * inject_Z (Zpos my)
               == (inject_Z q * inject_Z (Zpos my) + inject_Z r) * pow2 e').
  { rewrite <- inject_Z_mult, <- inject_Z_plus.
    replace (q * Zpos my + r)%Z with m' by lia. rewrite Hm', inject_Z_mult.
    rewrite <- (pow2_Z s) by lia. unfold x.
    replace ex with (ey + (s + e'))%Z at 1 by lia. rewrite !pow2_add.
    field. split; lra. }
  assert (Hr0 : 0 <= inject_Z r)
    by (change 0 with (inject_Z 0); rewrite <- Zle_Qle; lia).
  assert (Hr1 : inject_Z r < inject_Z (Zpos my)) by (rewrite <- Zlt_Qlt; lia).
  assert (Hrz : r = 0%Z ↔ inject_Z r == 0).
  { change 0 with (inject_Z 0). by rewrite inject_Z_injective. }
  split.
  - split; [done|].
    set (a := inject_Z (Zpos my)) in *. set (qq := inject_Z q) in *.
    set (rr := inject_Z r) in *. set (P := pow2 e') in *.
    rewrite inject_Z_plus. fold qq. change (inject_Z 1) with 1.
    clearbody a qq rr P x.
    split; [nra|]. split; [nra|].
    rewrite new_location_exact, Hrz. split; intros Heq.
    + apply (Qmult_inj_r x (qq * P) a); [lra|]. rewrite Hx, Heq. ring.
    + apply (Qmult_inj_r rr 0 P); [lra|]. rewrite Heq in Hx.
      assert (Hrr : rr * P == qq * P * a - qq * a * P) by (rewrite Hx; ring).
      rewrite Hrr. ring.
  - rewrite ?fexp_eq.
    destruct (Z_le_gt_dec e' (-1074)) as [Hsmall | Hlarge]; [lia|].
    assert (He' : (e' ≤ D - 53)%Z) by lia.
    destruct (Zdigits2_bounds (Zpos mx)) as [[Hlo1 _] Hd1]; [lia|].
    destruct (Zdigits2_bounds (Zpos my)) as [[_ Hhi2] Hd2]; [lia|].
    fold d1 in Hlo1, Hd1. fold d2 in Hhi2, Hd2.
    assert (Hk : (0 ≤ d1 - 1 + s - d2)%Z) by lia.
    assert (Hqbig : (2 ^ (d1 - 1 + s - d2) ≤ q)%Z).
    { assert (Hle : (Zpos my * 2 ^ (d1 - 1 + s - d2) ≤ m')%Z).
      { rewrite Hm'.
        apply Z.le_trans with (2 ^ d2 * 2 ^ (d1 - 1 + s - d2))%Z.
        - apply Z.mul_le_mono_nonneg_r; [apply Z.pow_nonneg|]; lia.
        - rewrite <- Z.pow_add_r by lia.
          replace (d2 + (d1 - 1 + s - d2))%Z with ((d1 - 1) + s)%Z by lia.
          rewrite Z.pow_add_r by lia.
          apply Z.mul_le_mono_nonneg_r; lia. }
      assert (Hpk : (0 < 2 ^ (d1 - 1 + s - d2))%Z)
        by (apply Z.pow_pos_nonneg; lia).
      nia. }
    assert (Hdq : (d1 + s - d2 ≤ Zdigits2 q)%Z).
    { apply Zdigits2_ge.
      - by replace (d1 + s - d2 - 1)%Z with (d1 - 1 + s - d2)%Z by lia.
      - assert (0 < 2 ^ (d1 - 1 + s - d2))%Z
          by (apply Z.pow_pos_nonneg; lia). lia. }
    lia.
Qed.

Lemma SFdiv_bounds (x y : spec_float) (lo hi : Q) :
  valid_binary x = true → valid_binary y = true →
  SFfin x = true → SFfin y = true → ¬ SFval y == 0 →
  srepr lo → srepr hi →
  lo <= SFval x / SFval y → SFval x / SFval y <= hi →
  SFfin (SF64div x y) = true ∧
  lo <= SFval (SF64div x y) ∧ SFval (SF64div x y) <= hi.
Proof.
  intros Hvx Hvy Hfx Hfy Hnz Hlo Hhi Hxlo Hxhi.
  destruct y as [sy| | |sy my ey]; try done; try (by destruct Hnz).
  destruct x as [sx| | |sx mx ex]; try done.
  { simpl in *. split; [done|]. unfold Qdiv in *. split; lra. }
  unfold SF64div, SFdiv.
  pose proof (div_core_spec mx my ex ey) as Hcore.
  destruct (SFdiv_core_binary prec emax (Zpos mx) ex (Zpos my) ey)
    as [[q e'] l].
  destruct Hcore as [Hloc Hcanon].
  apply (rounded_bounds _ _ _ _ _ lo hi Hloc Hcanon); try done.
  - simpl in Hxlo.
    pose proof (pow2_pos ey) as HPy.
    assert (Hmy : 0 < inject_Z (Zpos my))
      by (change 0 with (inject_Z 0); rewrite <- Zlt_Qlt; lia).
    destruct sx, sy; cbn [xorb]; (eapply Qle_trans; [exact Hxlo|]);
      apply Qle_lteq; right; field; first [lra | split; lra].
  - simpl in Hxhi.
    pose proof (pow2_pos ey) as HPy.
    assert (Hmy : 0 < inject_Z (Zpos my))
      by (change 0 with (inject_Z 0); rewrite <- Zlt_Qlt; lia).
    destruct sx, sy; cbn [xorb]; (eapply Qle_trans; [|exact Hxhi]);
      apply Qle_lteq; right; field; first [lra | split; lra].
Qed.

(** *** Addition and subtraction *)

Lemma iter_xO (m d : positive) :
  Zpos (Pos.iter xO m d) = (Zpos m * 2 ^ Zpos d)%Z.
Proof.
  induction d as [|d IH] using Pos.peano_ind.
  - simpl. lia.
  - rewrite Pos.iter_succ, Pos2Z.inj_succ, Z.pow_succ_r by lia.
    rewrite Pos2Z.inj_xO, IH. lia.
Qed.

Lemma shl_align_spec (mx : positive) (ex ex' : Z) :
  (shl_align mx ex ex').2 = Z.min ex ex' ∧
  Zpos (shl_align mx ex ex').1 = (Zpos mx * 2 ^ (ex - Z.min ex ex'))%Z.
Proof.
  unfold shl_align. destruct (ex' - ex)%Z as [|d|d] eqn:Hd; cbn [fst snd].
  - replace (Z.min ex ex') with ex by lia. rewrite Z.sub_diag. simpl. lia.
  - replace (Z.min ex ex') with ex by lia. rewrite Z.sub_diag. simpl. lia.
  - replace (Z.min ex ex') with ex' by lia. split; [done|].
    rewrite iter_xO. f_equal. f_equal. lia.
Qed.

Lemma Zdigits2_shift (m k : Z) :
  (0 < m)%Z → (0 ≤ k)%Z → Zdigits2 (m * 2 ^ k) = (Zdigits2 m + k)%Z.
Proof.
  intros Hm Hk. destruct (Zdigits2_bounds m Hm) as [[Hlo Hhi] Hd].
  assert (Hp : (0 < 2 ^ k)%Z) by (apply Z.pow_pos_nonneg; lia).
  apply Z.le_antisymm.
  - apply Zdigits2_le; [lia|]. rewrite Z.pow_add_r by lia. nia.
  - apply Zdigits2_ge; [|nia].
    replace (Zdigits2 m + k - 1)%Z with ((Zdigits2 m - 1) + k)%Z by lia.
    rewrite Z.pow_add_r by lia. nia.
Qed.

Lemma binary_round_bounds (s : bool) (m : positive) (e : Z) (lo hi : Q) :
  srepr lo → srepr hi →
  lo <= (if s then - (inject_Z (Zpos m) * pow2 e)
         else inject_Z (Zpos m) * pow2 e) →
  (if s then - (inject_Z (Zpos m) * pow2 e)
   else inject_Z (Zpos m) * pow2 e) <= hi →
  SFfin (binary_round prec emax s m e) = true ∧
  lo <= SFval (binary_round prec emax s m e) ∧
  SFval (binary_round prec emax s m e) <= hi.
Proof.
  intros Hlo Hhi Hxlo Hxhi. unfold binary_round.
  set (F := fexp prec emax (Zpos (digits2_pos m) + e)).
  destruct (shl_align_spec m e F) as [He' Hm'].
  destruct (shl_align m e F) as [mz ez]. cbn [fst snd] in *.
  rewrite <- He' in Hm'.
  assert (Hval : inject_Z (Zpos mz) * pow2 ez == inject_Z (Zpos m) * pow2 e).
  { rewrite Hm'. symmetry. apply pow2_shift. lia. }
  apply (rounded_bounds _ _ _ _ (inject_Z (Zpos m) * pow2 e)); try done.
  - split; [lia|]. rewrite Hval. split; [apply Qle_refl|]. split; [|done].
    rewrite inject_Z_plus, Qmult_plus_distr_l, Hval.
    pose proof (pow2_pos ez). change (inject_Z 1) with 1. lra.
  - rewrite Hm', Zdigits2_shift by lia. simpl Zdigits2.
    replace (Zpos (digits2_pos m) + (e - ez) + ez)%Z
      with (Zpos (digits2_pos m) + e)%Z by lia.
    fold F. lia.
Qed.

Lemma binary_normalize_bounds (z e : Z) (lo hi : Q) :
  srepr lo → srepr hi →
  lo <= inject_Z z * pow2 e → inject_Z z * pow2 e <= hi →
  SFfin (binary_normalize prec emax z e false) = true ∧
  lo <= SFval (binary_normalize prec emax z e false) ∧
  SFval (binary_normalize prec emax z e false) <= hi.
Proof.
  intros Hlo Hhi Hxlo Hxhi. destruct z as [|p|p]; cbn [binary_normalize].
  - change (inject_Z 0) with 0 in *. cbn [SFfin SFval].
    split; [done|]. split; lra.
  - by apply binary_round_bounds.
  - apply binary_round_bounds; try done.
    + eapply Qle_trans; [exact Hxlo|].
      change (Zneg p) with (- Zpos p)%Z. rewrite inject_Z_opp.
      apply Qle_lteq; right; ring.
    + eapply Qle_trans; [|exact Hxhi].
      change (Zneg p) with (- Zpos p)%Z. rewrite inject_Z_opp.
      apply Qle_lteq; right; ring.
Qed.

(** The aligned mantissa of a finite number, with its sign. *)
Lemma aligned_value (s : bool) (m : positive) (e ez : Z) :
  (ez ≤ e)%Z →
  inject_Z (cond_Zopp s (Zpos (shl_align m e ez).1)) * pow2 ez
  == SFval (S754_finite s m e).
Proof.
  intros Hez. destruct (shl_align_spec m e ez) as [_ Hm].
  replace (Z.min e ez) with ez in Hm by lia.
  assert (Hv : inject_Z (Zpos (shl_align m e ez).1) * pow2 ez
               == inject_Z (Zpos m) * pow2 e).
  { rewrite Hm. symmetry. by apply pow2_shift. }
  destruct s; simpl; [|done]. rewrite inject_Z_opp, <- Hv. ring.
Qed.

Lemma SFadd_bounds (x y : spec_float) (lo hi : Q) :
  valid_binary x = true → valid_binary y = true →
  SFfin x = true → SFfin y = true →
  srepr lo → srepr hi →
  lo <= SFval x + SFval y → SFval x + SFval y <= hi →
  SFfin (SF64add x y) = true ∧
  lo <= SFval (SF64add x y) ∧ SFval (SF64add x y) <= hi.
Proof.
  intros Hvx Hvy Hfx Hfy Hlo Hhi Hxlo Hxhi.
  destruct x as [sx| | |sx mx ex], y as [sy| | |sy my ey]; try done.
  - simpl in *. destruct sx, sy; simpl; split; try done; split; lra.
  - simpl in *. split; [done|]. destruct sy; split; lra.
  - simpl in *. split; [done|]. destruct sx; split; lra.
  - unfold SF64add, SFadd. set (ez := Z.min ex ey).
    pose proof (aligned_value sx mx ex ez ltac:(lia)) as Hax.
    pose proof (aligned_value sy my ey ez ltac:(lia)) as Hay.
    apply binary_normalize_bounds; try done;
      rewrite inject_Z_plus, Qmult_plus_distr_l, Hax, Hay; done.
Qed.

Lemma SFsub_bounds (x y : spec_float) (lo hi : Q) :
  valid_binary x = true → valid_binary y = true →
  SFfin x = true → SFfin y = true →
  srepr lo → srepr hi →
  lo <= SFval x - SFval y → SFval x - SFval y <= hi →
  SFfin (SF64sub x y) = true ∧
  lo <= SFval (SF64sub x y) ∧ SFval (SF64sub x y) <= hi.
Proof.
  intros Hvx Hvy Hfx Hfy Hlo Hhi Hxlo Hxhi.
  destruct x as [sx| | |sx mx ex], y as [sy| | |sy my ey]; try done.
  - simpl in *. destruct sx, sy; simpl; split; try done; split; lra.
  - simpl in *. split; [done|]. destruct sy; simpl; split; lra.
  - simpl in *. split; [done|]. destruct sx; split; lra.
  - unfold SF64sub, SFsub. set (ez := Z.min ex ey).
    pose proof (aligned_value sx mx ex ez ltac:(lia)) as Hax.
    pose proof (aligned_value sy my ey ez ltac:(lia)) as Hay.
    apply binary_normalize_bounds; try done;
      unfold Z.sub; rewrite inject_Z_plus, inject_Z_opp;
      (eapply Qle_trans; [|first [exact Hxhi | apply Qle_refl]]);
      (eapply Qle_trans; [first [exact Hxlo | apply Qle_refl]|]);
      apply Qle_lteq; right; rewrite <- Hax, <- Hay; ring.
Qed.

(** *** Comparison *)

Lemma finite_lt_exp (m1 m2 : positive) (e1 e2 : Z) s1 s2 :
  valid_binary (S754_finite s1 m1 e1) = true →
  valid_binary (S754_finite s2 m2 e2) = true →
  (e1 < e2)%Z →
  inject_Z (Zpos m1) * pow2 e1 < inject_Z (Zpos m2) * pow2 e2.
Proof.
  intros (Hm1 & He1 & _)%valid_finite (Hm2 & He2 & Hb2 & _)%valid_finite Hlt.
  assert (Hbig : (2 ^ 52 ≤ Zpos m2)%Z) by (apply Hb2; lia).
  apply Qlt_le_trans with (inject_Z (2 ^ 53) * pow2 e1).
  - apply Qmult_lt_compat_r; [apply pow2_pos|]. by rewrite <- Zlt_Qlt.
  - apply Qle_trans with (inject_Z (2 ^ 53) * pow2 (e2 - 1)).
    + apply Qmult_le_l; [reflexivity|]. apply pow2_le. lia.
    + replace e2 with (e2 - 1 + 1)%Z at 2 by lia. rewrite pow2_S.
      assert (Hq : inject_Z (2 ^ 52) <= inject_Z (Zpos m2))
        by (by rewrite <- Zle_Qle).
      change (inject_Z (2 ^ 53)) with (2 * inject_Z (2 ^ 52)).
      pose proof (pow2_pos (e2 - 1)). nra.
Qed.

Lemma finite_compare (m1 m2 : positive) (e1 e2 : Z) s1 s2 :
  valid_binary (S754_finite s1 m1 e1) = true →
  valid_binary (S754_finite s2 m2 e2) = true →
  match (match Z.compare e1 e2 with
         | Lt => Lt
         | Gt => Gt
         | Eq => Pos.compare_cont Eq m1 m2
         end) with
  | Lt => inject_Z (Zpos m1) * pow2 e1 < inject_Z (Zpos m2) * pow2 e2
  | Eq => e1 = e2 ∧ m1 = m2
  | Gt => inject_Z (Zpos m2) * pow2 e2 < inject_Z (Zpos m1) * pow2 e1
  end.
Proof.
  intros Hv1 Hv2. destruct (Z.compare_spec e1 e2) as [-> | Hlt | Hgt].
  - fold (Pos.compare m1 m2).
    destruct (Pos.compare_spec m1 m2) as [-> | Hlt | Hgt]; [done| |];
      (apply Qmult_lt_compat_r; [apply pow2_pos|]); rewrite <- Zlt_Qlt; lia.
  - by apply (finite_lt_exp m1 m2 e1 e2 s1 s2).
  - by apply (finite_lt_exp m2 m1 e2 e1 s2 s1); [| |lia].
Qed.

Lemma SFcompare_spec (x y : spec_float) :
  valid_binary x = true → valid_binary y = true →
  SFfin x = true → SFfin y = true →
  match SFcompare x y with
  | Some Lt => SFval x < SFval y
  | Some Eq => SFval x == SFval y
  | Some Gt => SFval y < SFval x
  | None => False
  end.
Proof.
  intros Hvx Hvy Hfx Hfy.
  destruct x as [sx| | |sx mx ex], y as [sy| | |sy my ey]; try done.
  - cbn [SFcompare SFval]. pose proof (pow2_pos ey).
    assert (0 < inject_Z (Zpos my)) by (change 0 with (inject_Z 0); by rewrite <- Zlt_Qlt).
    destruct sy; nra.
  - cbn [SFcompare SFval]. pose proof (pow2_pos ex).
    assert (0 < inject_Z (Zpos mx)) by (change 0 with (inject_Z 0); by rewrite <- Zlt_Qlt).
    destruct sx; nra.
  - pose proof (finite_compare mx my ex ey sx sy Hvx Hvy) as Hc.
    pose proof (pow2_pos ex). pose proof (pow2_pos ey).
    assert (0 < inject_Z (Zpos mx)) by (change 0 with (inject_Z 0); by rewrite <- Zlt_Qlt).
    assert (0 < inject_Z (Zpos my)) by (change 0 with (inject_Z 0); by rewrite <- Zlt_Qlt).
    assert (Hpx : 0 < inject_Z (Zpos mx) * pow2 ex) by nra.
    assert (Hpy : 0 < inject_Z (Zpos my) * pow2 ey) by nra.
    cbn [SFcompare SFval].
    destruct sx, sy; [| lra | lra |];
      (destruct (ex ?= ey)%Z; [destruct (Pos.compare_cont Eq mx my)| |]);
      cbn [CompOpp];
      first [lra | destruct Hc as [Hex Hmx]; subst; apply Qeq_refl].
Qed.

Lemma SFleb_spec (x y : spec_float) :
  valid_binary x = true → valid_binary y = true →
  SFfin x = true → SFfin y = true →
  SFleb x y = true ↔ SFval x <= SFval y.
Proof.
  intros Hvx Hvy Hfx Hfy.
  pose proof (SFcompare_spec x y Hvx Hvy Hfx Hfy) as Hc. unfold SFleb.
  destruct (SFcompare x y) as [[]|]; [| | |done]; split; try done; lra.
Qed.

Lemma SFltb_spec (x y : spec_float) :
  valid_binary x = true → valid_binary y = true →
  SFfin x = true → SFfin y = true →
  SFltb x y = true ↔ SFval x < SFval y.
Proof.
  intros Hvx Hvy Hfx Hfy.
  pose proof (SFcompare_spec x y Hvx Hvy Hfx Hfy) as Hc. unfold SFltb.
  destruct (SFcompare x y) as [[]|]; [| | |done]; split; try done; lra.
Qed.

(** Two valid finite numbers with the same value, not 0, are the same. *)
Lemma SFval_inj (x y : spec_float) :
  valid_binary x = true → valid_binary y = true →
  SFfin x = true → SFfin y = true →
  SFval x == SFval y → ¬ SFval x == 0 → x = y.
Proof.
  intros Hvx Hvy Hfx Hfy Heq Hnz.
  destruct x as [sx| | |sx mx ex]; try done; try (by destruct Hnz).
  destruct y as [sy| | |sy my ey]; try done;
    try (rewrite Heq in Hnz; by destruct Hnz).
  pose proof (finite_compare mx my ex ey sx sy Hvx Hvy) as Hc.
  pose proof (pow2_pos ex). pose proof (pow2_pos ey).
  assert (0 < inject_Z (Zpos mx)) by (change 0 with (inject_Z 0); by rewrite <- Zlt_Qlt).
  assert (0 < inject_Z (Zpos my)) by (change 0 with (inject_Z 0); by rewrite <- Zlt_Qlt).
  assert (Hpx : 0 < inject_Z (Zpos mx) * pow2 ex) by nra.
  assert (Hpy : 0 < inject_Z (Zpos my) * pow2 ey) by nra.
  cbn [SFval] in Heq.
  assert (Hs : sx = sy) by (destruct sx, sy; try done; lra).
  subst sy.
  destruct (ex ?= ey)%Z; [destruct (Pos.compare_cont Eq mx my)| |];
    first [destruct sx; lra | by destruct Hc as [-> ->]].
Qed.

(** *** The numbers of the program *)

Lemma F64_to_Q_val (f : float) : F64.to_Q f = SFval (Prim2SF f).
Proof. unfold F64.to_Q, SFval. by destruct (Prim2SF f) as [| | |[]]. Qed.

Lemma SFcompare_refl (x : spec_float) :
  SFcompare x x = match x with S754_nan => None | _ => Some Eq end.
Proof.
  destruct x as [s|s| |s m e]; simpl; try done; [by destruct s|].
  rewrite Z.compare_refl, Pos.compare_cont_refl. by destruct s.
Qed.

Lemma is_nan_SF (f : float) :
  is_nan f = match Prim2SF f with S754_nan => true | _ => false end.
Proof.
  unfold is_nan. rewrite FloatAxioms.eqb_spec. unfold SFeqb. rewrite SFcompare_refl.
  by destruct (Prim2SF f).
Qed.

Lemma is_finite_SF (f : float) : is_finite f = SFfin (Prim2SF f).
Proof.
  unfold is_finite, is_infinity. rewrite is_nan_SF, FloatAxioms.eqb_spec, FloatAxioms.abs_spec.
  change (Prim2SF infinity) with (S754_infinity false).
  by destruct (Prim2SF f) as [s|s| |s m e].
Qed.

Lemma F64_srepr (f : float) : srepr (F64.to_Q f).
Proof. rewrite F64_to_Q_val. apply SFval_srepr, Prim2SF_valid. Qed.

Lemma F64_mul_bounds (x y : float) (lo hi : Q) :
  is_finite x = true → is_finite y = true → srepr lo → srepr hi →
  lo <= F64.to_Q x * F64.to_Q y → F64.to_Q x * F64.to_Q y <= hi →
  is_finite (x * y) = true ∧
  lo <= F64.to_Q (x * y) ∧ F64.to_Q (x * y) <= hi.
Proof.
  rewrite !is_finite_SF, !F64_to_Q_val, FloatAxioms.mul_spec.
  apply SFmul_bounds; apply Prim2SF_valid.
Qed.

Lemma F64_div_bounds (x y : float) (lo hi : Q) :
  is_finite x = true → is_finite y = true → ¬ F64.to_Q y == 0 →
  srepr lo → srepr hi →
  lo <= F64.to_Q x / F64.to_Q y → F64.to_Q x / F64.to_Q y <= hi →
  is_finite (x / y) = true ∧
  lo <= F64.to_Q (x / y) ∧ F64.to_Q (x / y) <= hi.
Proof.
  rewrite !is_finite_SF, !F64_to_Q_val, FloatAxioms.div_spec.
  apply SFdiv_bounds; apply Prim2SF_valid.
Qed.

Lemma F64_add_bounds (x y : float) (lo hi : Q) :
  is_finite x = true → is_finite y = true → srepr lo → srepr hi →
  lo <= F64.to_Q x + F64.to_Q y → F64.to_Q x + F64.to_Q y <= hi →
  is_finite (x + y) = true ∧
  lo <= F64.to_Q (x + y) ∧ F64.to_Q (x + y) <= hi.
Proof.
  rewrite !is_finite_SF, !F64_to_Q_val, FloatAxioms.add_spec.
  apply SFadd_bounds; apply Prim2SF_valid.
Qed.

Lemma F64_sub_bounds (x y : float) (lo hi : Q) :
  is_finite x = true → is_finite y = true → srepr lo → srepr hi →
  lo <= F64.to_Q x - F64.to_Q y → F64.to_Q x - F64.to_Q y <= hi →
  is_finite (x - y) = true ∧
  lo <= F64.to_Q (x - y) ∧ F64.to_Q (x - y) <= hi.
Proof.
  rewrite !is_finite_SF, !F64_to_Q_val, FloatAxioms.sub_spec.
  apply SFsub_bounds; apply Prim2SF_valid.
Qed.

Lemma F64_leb (x y : float) :
  is_finite x = true → is_finite y = true →
  (x <=? y)%float = true ↔ F64.to_Q x <= F64.to_Q y.
Proof.
  rewrite !is_finite_SF, !F64_to_Q_val, FloatAxioms.leb_spec.
  apply SFleb_spec; apply Prim2SF_valid.
Qed.

Lemma F64_ltb (x y : float) :
  is_finite x = true → is_finite y = true →
  (x <? y)%float = true ↔ F64.to_Q x < F64.to_Q y.
Proof.
  rewrite !is_finite_SF, !F64_to_Q_val, FloatAxioms.ltb_spec.
  apply SFltb_spec; apply Prim2SF_valid.
Qed.

(** A number between two finite numbers is finite. *)
Lemma F64_between_finite (lo x hi : float) :
  is_finite lo = true → is_finite hi = true →
  (lo <=? x)%float = true → (x <=? hi)%float = true → is_finite x = true.
Proof.
  rewrite !is_finite_SF, !FloatAxioms.leb_spec. unfold SFleb.
  destruct (Prim2SF x) as [s|[]| |s m e], (Prim2SF lo) as [| | |[]],
    (Prim2SF hi) as [| | |[]]; simpl; try done.
Qed.

Lemma F64_val_inj (x y : float) :
  is_finite x = true → is_finite y = true →
  F64.to_Q x == F64.to_Q y → ¬ F64.to_Q x == 0 → x = y.
Proof.
  rewrite !is_finite_SF, !F64_to_Q_val. intros Hx Hy Heq Hnz.
  apply Prim2SF_inj, SFval_inj; try done; apply Prim2SF_valid.
Qed.

(** *** Integers *)

Lemma srepr_Z (z : Z) : (Z.abs z < 2 ^ 53)%Z → srepr (inject_Z z).
Proof.
  intros Hz. destruct (Z_le_gt_dec 0 z); [left | right].
  - exists z, 0%Z. split; [lia|]. split; [lia|]. rewrite pow2_0. ring.
  - exists (- z)%Z, 0%Z. split; [lia|]. split; [lia|].
    rewrite pow2_0, inject_Z_opp. ring.
Qed.

Lemma SFopp_val (f : spec_float) :
  SFfin (SFopp f) = SFfin f ∧ SFval (SFopp f) == - SFval f.
Proof.
  destruct f as [s|s| |[] m e]; simpl; split; try done; ring.
Qed.

Lemma F64_opp (x : float) :
  is_finite (- x) = is_finite x ∧ F64.to_Q (- x) == - F64.to_Q x.
Proof. rewrite !is_finite_SF, !F64_to_Q_val, FloatAxioms.opp_spec. apply SFopp_val. Qed.

Lemma F64_of_uint63 (z : Z) :
  (0 ≤ z < 2 ^ 53)%Z →
  is_finite (of_uint63 (Uint63.of_Z z)) = true ∧
  F64.to_Q (of_uint63 (Uint63.of_Z z)) == inject_Z z.
Proof.
  intros Hz. rewrite is_finite_SF, F64_to_Q_val, FloatAxioms.of_uint63_spec.
  rewrite Uint63.of_Z_spec, Z.mod_small
    by (change wB with (2 ^ 63)%Z; split; [lia|];
        apply Z.lt_trans with (2 ^ 53)%Z; [lia | done]).
  destruct (binary_normalize_bounds z 0 (inject_Z z) (inject_Z z))
    as (Hfin & Hlo & Hhi).
  - apply srepr_Z. lia.
  - apply srepr_Z. lia.
  - rewrite pow2_0. apply Qle_lteq; right; ring.
  - rewrite pow2_0. apply Qle_lteq; right; ring.
  - split; [done|]. by apply Qle_antisym.
Qed.

Lemma F64_of_Z (z : Z) :
  (Z.abs z < 2 ^ 53)%Z →
  is_finite (F64.of_Z z) = true ∧ F64.to_Q (F64.of_Z z) == inject_Z z.
Proof.
  intros Hz. destruct z as [|p|p]; unfold F64.of_Z.
  - split; reflexivity.
  - apply F64_of_uint63. lia.
  - destruct (F64_of_uint63 (Zpos p)) as [Hfin Hval]; [lia|].
    destruct (F64_opp (of_uint63 (Uint63.of_Z (Zpos p)))) as [-> ->].
    split; [done|]. rewrite Hval.
    change (Zneg p) with (- Zpos p)%Z. by rewrite inject_Z_opp.
Qed.

(** The number of an integer literal. *)
Lemma F64_nlit_Z (z : Z) :
  (Z.abs z < 2 ^ 53)%Z →
  is_finite (nlit (inject_Z z) : float) = true ∧
  F64.to_Q (nlit (inject_Z z)) == inject_Z z.
Proof.
  intros Hz. destruct (F64_of_Z z Hz) as [Hfin Hval].
  cbn [nlit F64_number inject_Z Qnum Qden].
  replace (F64.of_Z 1) with 1%float by reflexivity.
  assert (H1 : F64.to_Q 1 == 1) by reflexivity.
  destruct (F64_div_bounds (F64.of_Z z) 1 (inject_Z z) (inject_Z z))
    as (Hf & Hlo & Hhi); try done.
  - by apply srepr_Z.
  - by apply srepr_Z.
  - rewrite Hval, H1. apply Qle_lteq; right; field.
  - rewrite Hval, H1. apply Qle_lteq; right; field.
  - split; [done|]. by apply Qle_antisym.
Qed.

(** *** Math.floor *)

Lemma Qfloor_unique (x : Q) (z : Z) :
  inject_Z z <= x → x < inject_Z (z + 1) → Qfloor x = z.
Proof.
  intros Hlo Hhi. pose proof (Qfloor_le x) as Hfl.
  pose proof (Qlt_floor x) as Hfh.
  assert (H1 : (z < Qfloor x + 1)%Z).
  { rewrite Zlt_Qlt. by apply Qle_lt_trans with x. }
  assert (H2 : (Qfloor x < z + 1)%Z).
  { rewrite Zlt_Qlt. by apply Qle_lt_trans with x. }
  lia.
Qed.

Lemma F64_floor (f : float) :
  is_finite f = true →
  is_finite (F64.floor f) = true ∧
  F64.to_Q (F64.floor f) == inject_Z (Qfloor (F64.to_Q f)).
Proof.
  intros Hfin.
  assert (Hint : ∀ z : Z, F64.to_Q f == inject_Z z →
            F64.to_Q f == inject_Z (Qfloor (F64.to_Q f))).
  { intros z Hz. rewrite (Qfloor_unique (F64.to_Q f) z); [done| |].
    - rewrite Hz. apply Qle_refl.
    - rewrite Hz, <- Zlt_Qlt. lia. }
  pose proof (Prim2SF_valid f) as Hvalid.
  pose proof Hfin as Hfin'. rewrite is_finite_SF in Hfin'.
  pose proof (F64_to_Q_val f) as Hval.
  unfold F64.floor.
  destruct (Prim2SF f) as [s| | |s m e] eqn:Hsf; try done.
  { split; [done|]. apply (Hint 0%Z). by rewrite Hval. }
  pose proof (valid_finite _ _ _ Hvalid) as (Hm & He & _).
  cbn [SFval] in Hval.
  destruct e as [|k|k].
  - split; [done|].
    apply (Hint (if s then - Zpos m else Zpos m)%Z). rewrite Hval.
    destruct s; [rewrite inject_Z_opp|]; rewrite pow2_0; ring.
  - split; [done|].
    apply (Hint (if s then - (Zpos m * 2 ^ Zpos k) else Zpos m * 2 ^ Zpos k)%Z).
    rewrite Hval.
    destruct s; [rewrite inject_Z_opp|];
      rewrite (pow2_Z (Zpos k)), inject_Z_mult by lia; ring.
  - set (K := (2 ^ Zpos k)%Z).
    assert (HK : (0 < K)%Z) by (apply Z.pow_pos_nonneg; lia).
    pose proof (Z_div_mod_eq_full (Zpos m) K) as Hdm.
    pose proof (Z.mod_pos_bound (Zpos m) K HK) as Hr.
    set (q := (Zpos m / K)%Z) in *. set (r := (Zpos m mod K)%Z) in *.
    assert (Hq : (0 ≤ q)%Z) by (apply Z.div_pos; lia).
    assert (HK2 : (2 ≤ K)%Z).
    { unfold K. change 2%Z with (2 ^ 1)%Z at 1.
      apply Z.pow_le_mono_r; lia. }
    assert (Hq53 : (q + 1 < 2 ^ 53)%Z) by nia.
    (* the value, as q + r / K *)
    assert (HP : inject_Z K * pow2 (Zneg k) == 1).
    { unfold K. rewrite <- (pow2_Z (Zpos k)) by lia.
      rewrite <- pow2_add. replace (Zpos k + Zneg k)%Z with 0%Z by lia.
      apply pow2_0. }
    pose proof (pow2_pos (Zneg k)) as HPpos.
    assert (Hmag : inject_Z (Zpos m) * pow2 (Zneg k)
                   == inject_Z q + inject_Z r * pow2 (Zneg k)).
    { assert (Hm_eq : inject_Z (Zpos m)
                      == inject_Z K * inject_Z q + inject_Z r)
        by (rewrite <- inject_Z_mult, <- inject_Z_plus; by rewrite <- Hdm).
      rewrite Hm_eq.
      assert (E : (inject_Z K * inject_Z q + inject_Z r) * pow2 (Zneg k)
                  == inject_Z q * (inject_Z K * pow2 (Zneg k))
                     + inject_Z r * pow2 (Zneg k)) by ring.
      rewrite E, HP. ring. }
    assert (Hfrac0 : 0 <= inject_Z r * pow2 (Zneg k)).
    { assert (0 <= inject_Z r)
        by (change 0 with (inject_Z 0); rewrite <- Zle_Qle; lia).
      nra. }
    assert (Hfrac1 : inject_Z r * pow2 (Zneg k) < 1).
    { rewrite <- HP. apply Qmult_lt_compat_r; [done|].
      rewrite <- Zlt_Qlt. lia. }
    assert (Hfracz : r = 0%Z ↔ inject_Z r * pow2 (Zneg k) == 0).
    { split; [intros ->; ring|]. intros Hz.
      assert (Hr0 : inject_Z r == 0) by nra.
      change 0 with (inject_Z 0) in Hr0. by rewrite inject_Z_injective in Hr0. }
    destruct s.
    + destruct (Z.eqb_spec r 0) as [Hz | Hnz].
      * destruct (F64_of_Z q ltac:(lia)) as [Hf Hv].
        destruct (F64_opp (F64.of_Z q)) as [-> ->].
        split; [done|]. rewrite Hv.
        rewrite (Qfloor_unique (F64.to_Q f) (- q)%Z).
        -- by rewrite inject_Z_opp.
        -- rewrite Hval, Hmag, inject_Z_opp.
           apply Hfracz in Hz. rewrite Hz. lra.
        -- rewrite Hval, Hmag, inject_Z_plus, inject_Z_opp.
           apply Hfracz in Hz. rewrite Hz. change (inject_Z 1) with 1. lra.
      * destruct (F64_of_Z (q + 1)%Z ltac:(lia)) as [Hf Hv].
        destruct (F64_opp (F64.of_Z (q + 1))) as [-> ->].
        split; [done|]. rewrite Hv.
        assert (Hpos : 0 < inject_Z r * pow2 (Zneg k)).
        { apply Qle_lteq in Hfrac0 as [Hlt | Heq]; [done|].
          symmetry in Heq. by apply Hfracz in Heq. }
        rewrite (Qfloor_unique (F64.to_Q f) (- (q + 1))%Z).
        -- by rewrite inject_Z_opp.
        -- rewrite Hval, Hmag, inject_Z_opp, inject_Z_plus.
           change (inject_Z 1) with 1. lra.
        -- rewrite Hval, Hmag.
           replace (- (q + 1) + 1)%Z with (- q)%Z by lia.
           rewrite inject_Z_opp. lra.
    + destruct (F64_of_Z q ltac:(lia)) as [Hf Hv].
      split; [done|]. rewrite Hv.
      rewrite (Qfloor_unique (F64.to_Q f) q); [done| |].
      * rewrite Hval, Hmag. lra.
      * rewrite Hval, Hmag, inject_Z_plus. change (inject_Z 1) with 1. lra.
Qed.

(** *** Not a number *)

Lemma F64_nan_mul_r (x y : float) : is_nan y = true → is_nan (x * y) = true.
Proof.
  rewrite !is_nan_SF, FloatAxioms.mul_spec.
  by destruct (Prim2SF x), (Prim2SF y).
Qed.

Lemma F64_nan_mul_l (x y : float) : is_nan x = true → is_nan (x * y) = true.
Proof.
  rewrite !is_nan_SF, FloatAxioms.mul_spec.
  by destruct (Prim2SF x), (Prim2SF y).
Qed.

Lemma F64_nan_add_r (x y : float) : is_nan y = true → is_nan (x + y) = true.
Proof.
  rewrite !is_nan_SF, FloatAxioms.add_spec.
  by destruct (Prim2SF x) as [| | |], (Prim2SF y).
Qed.

Lemma F64_nan_add_l (x y : float) : is_nan x = true → is_nan (x + y) = true.
Proof.
  rewrite !is_nan_SF, FloatAxioms.add_spec.
  by destruct (Prim2SF x), (Prim2SF y).
Qed.

Lemma F64_nan_sub_r (x y : float) : is_nan y = true → is_nan (x - y) = true.
Proof.
  rewrite !is_nan_SF, FloatAxioms.sub_spec.
  by destruct (Prim2SF x), (Prim2SF y).
Qed.

Lemma F64_nan_div_l (x y : float) : is_nan x = true → is_nan (x / y) = true.
Proof.
  rewrite !is_nan_SF, FloatAxioms.div_spec.
  by destruct (Prim2SF x), (Prim2SF y).
Qed.

Lemma F64_nan_ltb (x y : float) : is_nan x = true → (x <? y)%float = false.
Proof.
  rewrite !is_nan_SF, FloatAxioms.ltb_spec.
  by destruct (Prim2SF x), (Prim2SF y).
Qed.

(** The quotient of two zeros. *)
Lemma F64_zero_div_zero (x y : float) :
  is_finite x = true → is_finite y = true →
  F64.to_Q x == 0 → F64.to_Q y == 0 → is_nan (x / y) = true.
Proof.
  rewrite !is_finite_SF, !F64_to_Q_val, is_nan_SF, FloatAxioms.div_spec.
  intros Hfx Hfy Hx Hy.
  assert (Hz : ∀ f, SFfin f = true → SFval f == 0 → ∃ s, f = S754_zero s).
  { intros [s| | |s m e] Hf Hv; try done; [by eexists|].
    exfalso. cbn [SFval] in Hv. pose proof (pow2_pos e).
    assert (0 < inject_Z (Zpos m))
      by (change 0 with (inject_Z 0); by rewrite <- Zlt_Qlt).
    destruct s; nra. }
  destruct (Hz _ Hfx Hx) as [sx ->], (Hz _ Hfy Hy) as [sy ->]. done.
Qed.

Lemma srepr_float (q : Q) (c : float) : F64.to_Q c == q → srepr q.
Proof. intros Hc. apply (srepr_proper (F64.to_Q c)); [done | apply F64_srepr]. Qed.

Lemma in_range_finite (s : float) :
  in_range s →
  is_finite s = true ∧ 0 <= F64.to_Q s ∧ F64.to_Q s <= 100.
Proof.
  intros [H0 H100].
  assert (Hfin : is_finite s = true)
    by (by apply (F64_between_finite 0 s 100)).
  split; [done|]. split.
  - apply (F64_leb 0 s) in H0; done.
  - apply (F64_leb s 100) in H100; [|done..].
    assert (Hc : F64.to_Q 100 == 100) by reflexivity.
    by rewrite Hc in H100.
Qed.

Lemma F64_durationMs (s : float) :
  in_range s →
  is_finite (durationMs s) = true ∧
  500 <= F64.to_Q (durationMs s) ∧ F64.to_Q (durationMs s) <= 5000.
Proof.
  intros (Hfin & H0 & H100)%in_range_finite.
  change (durationMs s) with (5000 - s / 100 * 4500)%float.
  assert (C100 : F64.to_Q 100 == 100) by reflexivity.
  assert (C4500 : F64.to_Q 4500 == 4500) by reflexivity.
  assert (C5000 : F64.to_Q 5000 == 5000) by reflexivity.
  assert (R0 : srepr 0) by (apply (srepr_float 0 0); reflexivity).
  assert (R1 : srepr 1) by (apply (srepr_float 1 1); reflexivity).
  assert (R500 : srepr 500) by (apply (srepr_float 500 500); reflexivity).
  assert (R4500 : srepr 4500) by (apply (srepr_float 4500 4500); reflexivity).
  assert (R5000 : srepr 5000) by (apply (srepr_float 5000 5000); reflexivity).
  assert (N100 : ¬ F64.to_Q 100 == 0) by (rewrite C100; discriminate).
  destruct (F64_div_bounds s 100 0 1 Hfin eq_refl N100 R0 R1)
    as (F1 & L1 & U1).
  { rewrite C100. apply Qle_shift_div_l; lra. }
  { rewrite C100. apply Qle_shift_div_r; lra. }
  destruct (F64_mul_bounds (s / 100) 4500 0 4500 F1 eq_refl R0 R4500)
    as (F2 & L2 & U2).
  { rewrite C4500. nra. }
  { rewrite C4500. nra. }
  apply (F64_sub_bounds 5000 (s / 100 * 4500) 500 5000 eq_refl F2 R500 R5000).
  - rewrite C5000. lra.
  - rewrite C5000. lra.
Qed.

(** The frame count of a smoothness from 0 to 100 is an integer from 29 to
    300. *)
Lemma F64_totalFrames (s : float) :
  in_range s →
  ∃ n : Z, (29 ≤ n ≤ 300)%Z ∧
    is_finite (totalFrames s) = true ∧
    F64.to_Q (totalFrames s) == inject_Z n.
Proof.
  intros Hs. destruct (F64_durationMs s Hs) as (Fd & Ld & Ud).
  change (totalFrames s)
    with (F64.floor (durationMs s / 0x1.0aaaaaaaaaaabp+4)%float).
  set (d := durationMs s) in *. clearbody d.
  assert (Cft : F64.to_Q 0x1.0aaaaaaaaaaabp+4
                == 4691249611844267 # 281474976710656) by reflexivity.
  assert (R29 : srepr 29) by (apply (srepr_float 29 29); reflexivity).
  assert (R300 : srepr 300) by (apply (srepr_float 300 300); reflexivity).
  assert (Nft : ¬ F64.to_Q 0x1.0aaaaaaaaaaabp+4 == 0)
    by (rewrite Cft; discriminate).
  destruct (F64_div_bounds d 0x1.0aaaaaaaaaaabp+4 29 300 Fd eq_refl Nft
              R29 R300) as (Fq & Lq & Uq).
  { rewrite Cft. apply Qle_shift_div_l; [reflexivity|].
    apply Qle_trans with 500; [|done]. discriminate. }
  { rewrite Cft. apply Qle_shift_div_r; [reflexivity|].
    apply Qle_trans with 5000; [done|]. discriminate. }
  destruct (F64_floor _ Fq) as [Ff Vf].
  exists (Qfloor (F64.to_Q (d / 0x1.0aaaaaaaaaaabp+4))).
  split; [|split; [exact Ff | exact Vf]]. split.
  - change 29%Z with (Qfloor 29). by apply Qfloor_resp_le.
  - change 300%Z with (Qfloor 300). by apply Qfloor_resp_le.
Qed.

(** The loop condition [frame <= totalFrames] on a frame count that is an
    integer. *)
Lemma F64_frame_leb (frames : float) (n f : Z) :
  is_finite frames = true → F64.to_Q frames == inject_Z n →
  (Z.abs f < 2 ^ 53)%Z →
  (nlit (inject_Z f) <=? frames)%js = true ↔ (f ≤ n)%Z.
Proof.
  intros Hfin Hval Hf. destruct (F64_nlit_Z f Hf) as [Ff Vf].
  cbn [nleb F64_number]. rewrite (F64_leb _ _ Ff Hfin), Vf, Hval.
  by rewrite <- Zle_Qle.
Qed.

Lemma F64_counts (frames : float) (n : Z) :
  is_finite frames = true → F64.to_Q frames == inject_Z n →
  (-1 ≤ n < 2 ^ 52)%Z → counts frames n.
Proof.
  intros Hfin Hval Hn. split.
  - intros f Hf. apply (F64_frame_leb frames n f Hfin Hval); lia.
  - apply not_true_is_false.
    rewrite (F64_frame_leb frames n (n + 1) Hfin Hval); lia.
Qed.

(** The integer of a frame count. *)
Lemma F64_to_Z_val (f : float) (n : Z) :
  is_finite f = true → F64.to_Q f == inject_Z n → F64.to_Z f = n.
Proof.
  rewrite is_finite_SF, F64_to_Q_val. unfold F64.to_Z.
  destruct (Prim2SF f) as [s| | |s m e]; try done.
  { intros _ Hz. cbn [SFval] in Hz. change 0 with (inject_Z 0) in Hz.
    by rewrite inject_Z_injective in Hz. }
  intros _ Hval. cbn [SFval] in Hval.
  assert (Hmag : ∀ v : Z, inject_Z (Zpos m) * pow2 e == inject_Z v →
            match e with
            | 0%Z => Zpos m
            | Zpos k => (Zpos m * 2 ^ Zpos k)%Z
            | Zneg k => (Zpos m / 2 ^ Zpos k)%Z
            end = v).
  { intros v Hv. destruct e as [|k|k].
    - rewrite pow2_0, Qmult_1_r in Hv. by rewrite inject_Z_injective in Hv.
    - rewrite (pow2_Z (Zpos k)), <- inject_Z_mult in Hv by lia.
      by rewrite inject_Z_injective in Hv.
    - assert (HP : inject_Z (2 ^ Zpos k) * pow2 (Zneg k) == 1).
      { rewrite <- (pow2_Z (Zpos k)) by lia. rewrite <- pow2_add.
        replace (Zpos k + Zneg k)%Z with 0%Z by lia. apply pow2_0. }
      assert (Hm : inject_Z (Zpos m) == inject_Z (v * 2 ^ Zpos k)).
      { rewrite inject_Z_mult, <- Hv.
        assert (E : inject_Z (Zpos m) * pow2 (Zneg k) * inject_Z (2 ^ Zpos k)
                    == inject_Z (Zpos m)
                       * (inject_Z (2 ^ Zpos k) * pow2 (Zneg k))) by ring.
        rewrite E, HP. ring. }
      rewrite inject_Z_injective in Hm. rewrite Hm.
      apply Z.div_mul. pose proof (Z.pow_pos_nonneg 2 (Zpos k)). lia. }
  destruct s.
  - rewrite (Hmag (- n)%Z); [lia|]. rewrite inject_Z_opp, <- Hval. ring.
  - by apply Hmag.
Qed.

Lemma F64_eqb (x y : float) :
  is_finite x = true → is_finite y = true →
  (x =? y)%float = true ↔ F64.to_Q x == F64.to_Q y.
Proof.
  rewrite !is_finite_SF, !F64_to_Q_val, FloatAxioms.eqb_spec.
  intros Hx Hy.
  pose proof (SFcompare_spec _ _ (Prim2SF_valid x) (Prim2SF_valid y) Hx Hy)
    as Hc.
  unfold SFeqb. destruct (SFcompare _ _) as [[]|]; [| | |done];
    split; try done; intros Heq; rewrite Heq in Hc; by apply Qlt_irrefl in Hc.
Qed.

(** The normalized time of a frame. *)
Lemma F64_time (frames : float) (n f : Z) :
  is_finite frames = true → F64.to_Q frames == inject_Z n →
  (1 ≤ n < 2 ^ 52)%Z → (0 ≤ f ≤ n)%Z →
  is_finite (nlit (inject_Z f) / frames)%js = true ∧
  0 <= F64.to_Q (nlit (inject_Z f) / frames)%js ∧
  F64.to_Q (nlit (inject_Z f) / frames)%js <= 1.
Proof.
  intros Hfin Hval Hn Hf.
  destruct (F64_nlit_Z f ltac:(lia)) as [Ff Vf].
  assert (R0 : srepr 0) by (apply (srepr_float 0 0); reflexivity).
  assert (R1 : srepr 1) by (apply (srepr_float 1 1); reflexivity).
  assert (Hnpos : 0 < inject_Z n)
    by (change 0 with (inject_Z 0); rewrite <- Zlt_Qlt; lia).
  assert (Hf0 : 0 <= inject_Z f)
    by (change 0 with (inject_Z 0); rewrite <- Zle_Qle; lia).
  assert (Hfn : inject_Z f <= inject_Z n) by (rewrite <- Zle_Qle; lia).
  cbn [ndiv F64_number].
  apply (F64_div_bounds _ frames 0 1 Ff Hfin); try done.
  - rewrite Hval. lra.
  - rewrite Vf, Hval. apply Qle_shift_div_l; lra.
  - rewrite Vf, Hval. apply Qle_shift_div_r; lra.
Qed.

(** The eased factor of a normalized time. *)
Lemma F64_easedT (t : float) :
  is_finite t = true → 0 <= F64.to_Q t → F64.to_Q t <= 1 →
  is_finite (easedT t) = true ∧
  0 <= F64.to_Q (easedT t) ∧ F64.to_Q (easedT t) <= 1.
Proof.
  intros Hfin H0 H1.
  change (easedT t)
    with (if (t <? 0.5)%float then (2 * t * t)%float
          else (1 - ((-2) * t + 2) * ((-2) * t + 2) / 2)%float).
  assert (Chalf : F64.to_Q 0.5 == 1 # 2) by reflexivity.
  assert (C2 : F64.to_Q 2 == 2) by reflexivity.
  assert (Cm2 : F64.to_Q (-2) == - 2) by reflexivity.
  assert (C1 : F64.to_Q 1 == 1) by reflexivity.
  assert (R0 : srepr 0) by (apply (srepr_float 0 0); reflexivity).
  assert (R1 : srepr 1) by (apply (srepr_float 1 1); reflexivity).
  assert (Rhalf : srepr (1 # 2)) by (apply (srepr_float _ 0.5); reflexivity).
  assert (Rm1 : srepr (- 1)) by (apply (srepr_float _ (-1)); reflexivity).
  assert (Rm2 : srepr (- 2)) by (apply (srepr_float _ (-2)); reflexivity).
  assert (N2 : ¬ F64.to_Q 2 == 0) by (rewrite C2; discriminate).
  destruct (t <? 0.5)%float eqn:Hlt.
  - apply (F64_ltb t 0.5 Hfin eq_refl) in Hlt. rewrite Chalf in Hlt.
    destruct (F64_mul_bounds 2 t 0 1 eq_refl Hfin R0 R1) as (Fa & La & Ua).
    { rewrite C2. lra. }
    { rewrite C2. lra. }
    apply (F64_mul_bounds (2 * t) t 0 1 Fa Hfin R0 R1); nra.
  - assert (Hge : 1 # 2 <= F64.to_Q t).
    { apply Qnot_lt_le. intros Hlt'. rewrite <- Chalf in Hlt'.
      apply (F64_ltb t 0.5 Hfin eq_refl) in Hlt'. congruence. }
    destruct (F64_mul_bounds (-2) t (-2) (-1) eq_refl Hfin Rm2 Rm1)
      as (Fm & Lm & Um).
    { rewrite Cm2. lra. }
    { rewrite Cm2. lra. }
    destruct (F64_add_bounds (-2 * t) 2 0 1 Fm eq_refl R0 R1)
      as (Fx & Lx & Ux).
    { rewrite C2. lra. }
    { rewrite C2. lra. }
    destruct (F64_mul_bounds (-2 * t + 2) (-2 * t + 2) 0 1 Fx Fx R0 R1)
      as (Fs & Ls & Us).
    { nra. }
    { nra. }
    destruct (F64_div_bounds ((-2 * t + 2) * (-2 * t + 2)) 2 0 (1 # 2)
                Fs eq_refl N2 R0 Rhalf) as (Fh & Lh & Uh).
    { rewrite C2. apply Qle_shift_div_l; lra. }
    { rewrite C2. apply Qle_shift_div_r; lra. }
    destruct (F64_sub_bounds 1 ((-2 * t + 2) * (-2 * t + 2) / 2) 0 1
                eq_refl Fh R0 R1) as (Fr & Lr & Ur).
    { rewrite C1. lra. }
    { rewrite C1. lra. }
    done.
Qed.

Lemma moderate_finite (v : float) :
  moderate v →
  is_finite v = true ∧
  - F64.to_Q 0x1p+1022 <= F64.to_Q v ∧ F64.to_Q v <= F64.to_Q 0x1p+1022.
Proof.
  intros [Hlo Hhi].
  assert (Hfin : is_finite v = true)
    by (by apply (F64_between_finite (-0x1p+1022) v 0x1p+1022)).
  split; [done|].
  apply (F64_leb (-0x1p+1022) v eq_refl Hfin) in Hlo.
  apply (F64_leb v 0x1p+1022 Hfin eq_refl) in Hhi.
  destruct (F64_opp 0x1p+1022) as [_ Hopp].
  change (- 0x1p+1022)%float with (-0x1p+1022)%float in Hopp.
  rewrite Hopp in Hlo. done.
Qed.

(** The interpolated value of two joint values of moderate size is a
    finite number. *)
Lemma F64_interpolated (a b e : float) :
  moderate a → moderate b →
  is_finite e = true → 0 <= F64.to_Q e → F64.to_Q e <= 1 →
  is_finite (a + (b - a) * e) = true.
Proof.
  intros (Fa & La & Ua)%moderate_finite (Fb & Lb & Ub)%moderate_finite
    Fe He0 He1.
  set (B := F64.to_Q 0x1p+1022) in *.
  assert (HB : 0 < B) by reflexivity.
  assert (C2 : F64.to_Q 0x1p+1023 == 2 * B) by reflexivity.
  assert (C3 : F64.to_Q 0x1.8p+1023 == 3 * B) by reflexivity.
  assert (R2 : srepr (2 * B)) by (by apply (srepr_float _ 0x1p+1023)).
  assert (R3 : srepr (3 * B)) by (by apply (srepr_float _ 0x1.8p+1023)).
  clearbody B.
  destruct (F64_sub_bounds b a (- (2 * B)) (2 * B) Fb Fa) as (Fd & Ld & Ud);
    [by apply srepr_opp | done | lra | lra |].
  destruct (F64_mul_bounds (b - a) e (- (2 * B)) (2 * B) Fd Fe)
    as (Fp & Lp & Up); [by apply srepr_opp | done | nra | nra |].
  destruct (F64_add_bounds a ((b - a) * e) (- (3 * B)) (3 * B) Fa Fp)
    as (Fv & _); [by apply srepr_opp | done | lra | lra |].
  done.
Qed.

(** At the eased factor 0 the interpolated value is the start value. *)
Lemma F64_interpolated_0 (a b : float) :
  moderate a → moderate b →
  is_finite (a + (b - a) * 0) = true ∧ (a + (b - a) * 0 =? a)%float = true.
Proof.
  intros (Fa & La & Ua)%moderate_finite (Fb & Lb & Ub)%moderate_finite.
  set (B := F64.to_Q 0x1p+1022) in *.
  assert (HB : 0 < B) by reflexivity.
  assert (C2 : F64.to_Q 0x1p+1023 == 2 * B) by reflexivity.
  assert (R2 : srepr (2 * B)) by (by apply (srepr_float _ 0x1p+1023)).
  assert (R0 : srepr 0) by (apply (srepr_float 0 0); reflexivity).
  clearbody B.
  destruct (F64_sub_bounds b a (- (2 * B)) (2 * B) Fb Fa) as (Fd & Ld & Ud);
    [by apply srepr_opp | done | lra | lra |].
  assert (C0 : F64.to_Q 0 == 0) by reflexivity.
  destruct (F64_mul_bounds (b - a) 0 0 0 Fd eq_refl R0 R0)
    as (Fp & Lp & Up); [rewrite C0; lra | rewrite C0; lra |].
  destruct (F64_add_bounds a ((b - a) * 0) (F64.to_Q a) (F64.to_Q a) Fa Fp
              (F64_srepr a) (F64_srepr a))
    as (Fv & Lv & Uv); [lra | lra |].
  split; [done|]. apply (F64_eqb _ _ Fv Fa). by apply Qle_antisym.
Qed.

(** The normalized time of frame 0 is 0, and that of the last frame is 1. *)
Lemma F64_first_time (frames : float) (n : Z) :
  is_finite frames = true → F64.to_Q frames == inject_Z n → (1 ≤ n)%Z →
  (nlit (inject_Z 0) / frames)%js = 0%float.
Proof.
  rewrite is_finite_SF, F64_to_Q_val. intros Hfin Hval Hn.
  change (nlit (inject_Z 0) / frames)%js with (0 / frames)%float.
  apply Prim2SF_inj. rewrite FloatAxioms.div_spec.
  change (Prim2SF 0) with (S754_zero false).
  assert (Hnpos : 0 < inject_Z n)
    by (change 0 with (inject_Z 0); rewrite <- Zlt_Qlt; lia).
  destruct (Prim2SF frames) as [s| | |s m e]; try done.
  - cbn [SFval] in Hval. lra.
  - destruct s; [|done]. exfalso. cbn [SFval] in Hval.
    pose proof (pow2_pos e).
    assert (0 < inject_Z (Zpos m))
      by (change 0 with (inject_Z 0); by rewrite <- Zlt_Qlt).
    nra.
Qed.

Lemma F64_last_time (frames : float) (n : Z) :
  is_finite frames = true → F64.to_Q frames == inject_Z n →
  (1 ≤ n < 2 ^ 52)%Z →
  (nlit (inject_Z n) / frames)%js = 1%float.
Proof.
  intros Hfin Hval Hn.
  destruct (F64_nlit_Z n ltac:(lia)) as [Ff Vf].
  assert (R1 : srepr 1) by (apply (srepr_float 1 1); reflexivity).
  assert (C1 : F64.to_Q 1 == 1) by reflexivity.
  assert (Hnpos : 0 < inject_Z n)
    by (change 0 with (inject_Z 0); rewrite <- Zlt_Qlt; lia).
  cbn [ndiv F64_number].
  destruct (F64_div_bounds _ frames 1 1 Ff Hfin) as (Ft & Lt & Ut);
    try done.
  - rewrite Hval. lra.
  - rewrite Vf, Hval. apply Qle_shift_div_l; lra.
  - rewrite Vf, Hval. apply Qle_shift_div_r; lra.
  - apply F64_val_inj; try done.
    + rewrite C1. by apply Qle_antisym.
    + assert (F64.to_Q (nlit (inject_Z n) / frames) == 1)
        by (by apply Qle_antisym).
      lra.
Qed.

(** * Properties *)

(** ** Node deletion *)

Lemma handleDeleteNode_edges nodeId graph edge :
  In edge (graph_edges (handleDeleteNode nodeId graph)) ↔
  In edge (graph_edges graph) ∧ source edge ≠ nodeId ∧ target edge ≠ nodeId.
Proof.
  unfold handleDeleteNode; simpl. rewrite filter_In, andb_true_iff.
  rewrite !negb_true_iff, <- !not_true_iff_false, !String.eqb_eq. tauto.
Qed.

Lemma handleDeleteNode_nodes nodeId graph n :
  In n (graph_nodes (handleDeleteNode nodeId graph)) ↔
  In n (graph_nodes graph) ∧ node_id n ≠ nodeId.
Proof.
  unfold handleDeleteNode; simpl. rewrite filter_In.
  rewrite negb_true_iff, <- not_true_iff_false, String.eqb_eq. tauto.
Qed.

(** C9: deleting a node removes exactly the edges whose source or target is
    that node, and every node of that id (and the focus, if it was on that
    node); hence a graph in which no edge has a dangling endpoint is again
    such a graph after the deletion. *)
Theorem handleDeleteNode_no_dangling (nodeId : string) (graph : GraphState) :
  (∀ edge, In edge (graph_edges (handleDeleteNode nodeId graph)) ↔
     In edge (graph_edges graph) ∧
     source edge ≠ nodeId ∧ target edge ≠ nodeId) ∧
  (∀ n, In n (graph_nodes (handleDeleteNode nodeId graph)) →
     node_id n ≠ nodeId) ∧
  focusedNodeId (handleDeleteNode nodeId graph) ≠ Some nodeId ∧
  (no_dangling graph → no_dangling (handleDeleteNode nodeId graph)).
Proof.
  split; [|split; [|split]].
  - intros edge. apply handleDeleteNode_edges.
  - intros n Hn. apply handleDeleteNode_nodes in Hn; tauto.
  - simpl. destruct (focusedNodeId graph) as [focused|]; [|done].
    destruct (String.eqb_spec focused nodeId); congruence.
  - intros closed edge Hin.
    apply handleDeleteNode_edges in Hin as (Hin & Hs & Ht).
    destruct (closed edge Hin) as [(n & Hn & Hid) (n' & Hn' & Hid')].
    split; [exists n | exists n']; (split; [|done]);
      apply handleDeleteNode_nodes; split; congruence.
Qed.

Lemma sample_graph_closed : no_dangling focused_graph.
Proof.
  intros edge [<- | [<- | []]]; simpl; split.
  - exists {| node_id := "a"; node_type := joint |}; auto.
  - exists {| node_id := "t"; node_type := transition |}; auto.
  - exists {| node_id := "t"; node_type := transition |}; auto.
  - exists {| node_id := "b"; node_type := joint |}; auto.
Defined.

(** C9 on the chain: deleting the transition removes both edges. *)
Lemma handleDeleteNode_no_dangling_witness :
  graph_edges (handleDeleteNode "t" focused_graph) = [] ∧
  focusedNodeId (handleDeleteNode "t" focused_graph) = None ∧
  no_dangling (handleDeleteNode "t" focused_graph).
Proof.
  split; [reflexivity|]. split; [reflexivity|].
  apply (handleDeleteNode_no_dangling "t" focused_graph), sample_graph_closed.
Defined.

(** ** Binary64 on small cases *)

Example F64_floor_examples :
  F64.floor 0x1.dffffffffffffp+4 = 29%float ∧ F64.floor 300 = 300%float ∧
  F64.floor 0.5 = 0%float ∧ F64.floor (-0.5) = (-1)%float ∧
  F64.floor (-2) = (-2)%float ∧ F64.floor infinity = infinity.
Proof. repeat split; reflexivity. Qed.

Example F64_literal_examples :
  (nlit 0.5 : float) = 0.5%float ∧ (nlit (-2) : float) = (-2)%float ∧
  (nlit 5000 : float) = 5000%float ∧
  (nlit 2.18 : float) = 0x1.170a3d70a3d71p+1%float ∧
  (frameTime : float) = 0x1.0aaaaaaaaaaabp+4%float.
Proof. repeat split; reflexivity. Qed.

(** ** Duration mapping and frame count *)

(** Checking a boolean on every integer of a range. *)
Lemma forallb_seqZ (f : Z → bool) (lo n : Z) :
  forallb f (seqZ lo n) = true → ∀ z, (lo ≤ z < lo + n)%Z → f z = true.
Proof.
  intros Hall z Hz. rewrite forallb_forall in Hall.
  apply Hall, list_elem_of_In, elem_of_seqZ. lia.
Qed.

Lemma durationMs_Q (s : Q) : durationMs s == 5000 - (s / 100) * 4500.
Proof. unfold durationMs, maxDuration, minDuration; simpl. field. Qed.

Lemma durationMs_Q_linear (s : Q) : durationMs s == 5000 - 45 * s.
Proof. unfold durationMs, maxDuration, minDuration; simpl. field. Qed.

Lemma durationMs_Q_antitone (s1 s2 : Q) :
  s1 <= s2 → durationMs s2 <= durationMs s1.
Proof. intros Hle. rewrite !durationMs_Q_linear. lra. Qed.

Lemma durationMs_f64_grid :
  forallb (λ a, forallb (λ b,
      durationMs (int_smoothness b : float) <=? durationMs (int_smoothness a))%js
    (seqZ a (101 - a))) (seqZ 0 101) = true.
Proof. vm_compute. reflexivity. Qed.

(** C4: the duration of a smooth transition is
    5000 - (smoothness/100) * 4500 milliseconds, which is 5000 at 0 and 500
    at 100 and does not increase with the smoothness: for all rationals in
    exact arithmetic, and in binary64 for every number (the formula and the
    two values) and for the integers 0..100 (the monotonicity). *)
Theorem duration_mapping (s1 s2 : Q) (a b : Z)
    (Hs : 0 <= s1 ∧ s1 <= s2 ∧ s2 <= 100)
    (Hab : (0 ≤ a ∧ a ≤ b ∧ b ≤ 100)%Z) :
  ((∀ s : Q, durationMs s == spec_duration s) ∧
   durationMs (0 : Q) == 5000 ∧ durationMs (100 : Q) == 500 ∧
   durationMs s2 <= durationMs s1) ∧
  ((∀ s : float, durationMs s = spec_duration s) ∧
   durationMs (nlit 0 : float) = 5000%float ∧
   durationMs (nlit 100 : float) = 500%float ∧
   (durationMs (int_smoothness b : float)
      <=? durationMs (int_smoothness a))%js = true).
Proof.
  split; [split; [|split; [|split]] | split; [|split; [|split]]].
  - intros s. rewrite durationMs_Q. unfold spec_duration; simpl. reflexivity.
  - reflexivity.
  - reflexivity.
  - apply durationMs_Q_antitone, Hs.
  - intros s. reflexivity.
  - reflexivity.
  - reflexivity.
  - pose proof durationMs_f64_grid as Hgrid.
    apply forallb_seqZ with (z := a) in Hgrid; [|lia].
    apply forallb_seqZ with (z := b) in Hgrid; [done | lia].
Qed.

(** C4 at the smoothness values 25 and 75. *)
Lemma duration_mapping_witness :
  durationMs (75 : Q) <= durationMs (25 : Q) ∧
  (durationMs (int_smoothness 75 : float)
     <=? durationMs (int_smoothness 25))%js = true.
Proof.
  assert (H1 : 0 <= 25 ∧ 25 <= 75 ∧ 75 <= 100) by (repeat split; discriminate).
  assert (H2 : (0 ≤ 25 ∧ 25 ≤ 75 ∧ 75 ≤ 100)%Z) by lia.
  pose proof (duration_mapping 25 75 25 75 H1 H2) as [(_ & _ & _ & Hq) (_ & _ & _ & Hf)].
  exact (conj Hq Hf).
Defined.

Lemma frames_quotient_Q (s : Q) : durationMs s / frameTime == 300 - (27 # 10) * s.
Proof.
  rewrite durationMs_Q_linear. unfold frameTime, frameRate; simpl. field.
Qed.

Lemma totalFrames_Q_floor (s : Q) :
  totalFrames s = inject_Z (Qfloor (durationMs s / frameTime)).
Proof. reflexivity. Qed.

Lemma totalFrames_Q_bounds (s : Q) :
  0 <= s → s <= 100 → 30 <= totalFrames s ∧ totalFrames s <= 300.
Proof.
  intros H0 H100. rewrite totalFrames_Q_floor. split.
  - change 30 with (inject_Z (Qfloor 30)). rewrite <- Zle_Qle.
    apply Qfloor_resp_le. rewrite frames_quotient_Q. lra.
  - change 300 with (inject_Z (Qfloor 300)). rewrite <- Zle_Qle.
    apply Qfloor_resp_le. rewrite frames_quotient_Q. lra.
Qed.

(** The quotient at smoothness 100 is exactly 30 in rational arithmetic;
    in binary64 the divisor 1000/60 is rounded up, the quotient comes out as
    29.999999999999996, and the program counts 29 frames. *)
Remark totalFrames_exact_100 : totalFrames (100 : Q) = 30.
Proof. reflexivity. Qed.

(** C5: the frame count is floor(d(s) / (1000/60)) for the duration d(s) of
    the smoothness, in both arithmetics; at smoothness 100 (duration 500)
    the program, which computes in binary64, counts 29 frames. *)
Theorem frame_count :
  (∀ s : float, totalFrames s = spec_totalFrames s) ∧
  (∀ s : Q, totalFrames s == spec_totalFrames s) ∧
  durationMs (nlit 100 : float) = 500%float ∧
  (durationMs (nlit 100 : float) / frameTime)%js = 0x1.dffffffffffffp+4%float ∧
  (29 <=? 0x1.dffffffffffffp+4)%float = true ∧
  (0x1.dffffffffffffp+4 <? 30)%float = true ∧
  totalFrames (nlit 100 : float) = 29%float.
Proof.
  repeat split; reflexivity.
Qed.

(** ** The sequencer *)

Section SequencerFacts.
Context {num : Type} `{JsNumber num}.
Context (nodes : list Node) (edges : list Edge).
Context (nodeStates : gmap string (NodeState num)).
Context (cancelAt : option Q).
Context (faulty : call num → bool).

Local Abbreviation frame_loop := (frame_loop cancelAt faulty).
Local Abbreviation pose_step := (pose_step faulty).
Local Abbreviation transition_step :=
  (transition_step edges nodeStates cancelAt faulty).
Local Abbreviation transition_rest := (transition_rest cancelAt faulty).
Local Abbreviation node_step :=
  (node_step edges nodeStates cancelAt faulty).
Local Abbreviation loop_body :=
  (loop_body nodes edges nodeStates cancelAt faulty).
Local Abbreviation while_loop :=
  (while_loop nodes edges nodeStates cancelAt faulty).
Local Abbreviation runAnimation :=
  (runAnimation nodes edges nodeStates cancelAt faulty).
Local Abbreviation run := (run nodes edges nodeStates cancelAt faulty).
Local Abbreviation currentNode := (currentNode nodes).
Local Abbreviation loop_event := (loop_event cancelAt).
Local Abbreviation first_locals := (first_locals (num := num)).
Local Abbreviation cancelled := (cancelled cancelAt).

Ltac run_unfold :=
  unfold setActiveNodeId, setStoreJointValues, getNodeState, collaborate,
    aborted, wait, emit, throw, pending, mbind, run_bind, bind, mret,
    run_ret, ret.

(** *** The loop, one step at a time *)

Lemma frame_loop_S fuel previous next frames frame t :
  frame_loop (S fuel) previous next frames frame t =
    if (nlit (inject_Z frame) <=? frames)%js && negb (cancelled t) then
      let pose := framePose previous next frames frame in
      if faulty (CallSetJointValues pose) then thrown t
      else after [(t, SetJointValues pose); (t, Wait (timer (nmillis frameTime)))]
             (frame_loop fuel previous next frames (frame + 1)
                (Qred (t + timer (nmillis frameTime))))
    else {| events := []; now := t; outcome := Ret tt |}.
Proof.
  simpl. run_unfold. simpl.
  destruct (_ && _); [|done]. destruct (faulty _); [done|]. simpl.
  unfold after. by destruct (outcome _).
Qed.

Lemma pose_step_eq joints locals t :
  pose_step joints locals t =
    let pose := pose_of joints in
    let locals' := {| currentNodeId := currentNodeId locals;
                      previousJointPose := Some pose;
                      skipNextJointApplication := false |} in
    if skipNextJointApplication locals then
      {| events := [(t, Wait 100)]; now := Qred (t + 100);
         outcome := Ret locals' |}
    else if faulty (CallSetJointValues (Number <$> pose)) then thrown t
    else {| events := [(t, SetJointValues (Number <$> pose)); (t, Wait 1000)];
            now := Qred (t + 1000); outcome := Ret locals' |}.
Proof.
  unfold pose_step. run_unfold.
  destruct (skipNextJointApplication locals) eqn:Hskip; simpl; [done|].
  by destruct (faulty _).
Qed.

Lemma transition_step_eq fuel trans locals t :
  transition_step fuel trans locals t =
    match nextEdge edges (currentNodeId locals) with
    | Some edge =>
        if faulty (CallGetNodeState (target edge)) then thrown t
        else transition_rest fuel trans locals (nodeStates !! target edge) t
    | None => transition_rest fuel trans locals None t
    end.
Proof.
  unfold transition_step, transition_rest. run_unfold.
  destruct (nextEdge _ _) as [edge|]; simpl.
  - destruct (faulty _); simpl; [done|].
    destruct (smooth trans), (previousJointPose locals),
      (pose_of_state (nodeStates !! target edge));
      simpl; try done; unfold returning;
      destruct (outcome _); simpl; by rewrite ?app_nil_r.
  - destruct (smooth trans), (previousJointPose locals); done.
Qed.

Lemma loop_body_eq fuel locals t :
  loop_body fuel locals t =
    if faulty (CallSetActiveNodeId (currentNodeId locals)) then thrown t
    else after [(t, SetActiveNodeId (Some (currentNodeId locals)))]
      (if faulty (CallGetNodeState (currentNodeId locals)) then thrown t
       else match currentNode locals, nodeStates !! currentNodeId locals with
            | Some _, Some nodeState =>
                mapped (λ locals', Continue (advance edges locals'))
                  (node_step fuel nodeState locals t)
            | _, _ => {| events := []; now := t; outcome := Ret Break |}
            end).
Proof.
  unfold loop_body, currentNode. run_unfold.
  destruct (faulty (CallSetActiveNodeId _)); simpl; [done|].
  destruct (faulty (CallGetNodeState _)); simpl; [done|].
  destruct (find _ nodes), (nodeStates !! currentNodeId locals); simpl;
    try done.
  unfold after, mapped; simpl.
  destruct (outcome _); simpl; by rewrite ?app_nil_r.
Qed.

Lemma while_loop_S fuel locals t :
  while_loop (S fuel) locals t =
    if negb (currentNodeId locals =? "")%string && negb (cancelled t) then
      let o := loop_body fuel locals t in
      match outcome o with
      | Ret Break => {| events := events o; now := now o; outcome := Ret tt |}
      | Ret (Continue locals') => after (events o) (while_loop fuel locals' (now o))
      | Throw => {| events := events o; now := now o; outcome := Throw |}
      | Pending => {| events := events o; now := now o; outcome := Pending |}
      end
    else {| events := []; now := t; outcome := Ret tt |}.
Proof.
  simpl. run_unfold. simpl.
  destruct (_ && _); [|done]. simpl.
  destruct (outcome _) as [[|locals']| |]; simpl; try done.
  by rewrite app_nil_r.
Qed.

(** *** What the loop emits *)

Lemma frame_loop_emits fuel previous next frames frame t :
  Forall loop_event (events (frame_loop fuel previous next frames frame t)).
Proof.
  revert frame t. induction fuel as [|fuel IH]; intros frame t; [constructor|].
  rewrite frame_loop_S.
  destruct (_ && negb (cancelled t)) eqn:Hgo; [|constructor].
  apply andb_true_iff in Hgo as [_ Hgo%negb_true_iff]. simpl.
  destruct (faulty _); [constructor|]. simpl.
  repeat (constructor; [by split|]). apply IH.
Qed.

Lemma pose_step_emits joints locals t :
  cancelled t = false →
  Forall loop_event (events (pose_step joints locals t)).
Proof.
  intros Hgo. rewrite pose_step_eq. simpl.
  destruct (skipNextJointApplication locals);
    [by repeat (constructor; [by split|])|].
  destruct (faulty _); [constructor|]. by repeat (constructor; [by split|]).
Qed.

Lemma transition_step_emits fuel trans locals t :
  cancelled t = false →
  Forall loop_event (events (transition_step fuel trans locals t)).
Proof.
  intros Hgo. assert (Hrest : ∀ nextNodeState,
    Forall loop_event
      (events (transition_rest fuel trans locals nextNodeState t))).
  { intros nextNodeState. unfold transition_rest.
    destruct (smooth trans), (previousJointPose locals),
      (pose_of_state nextNodeState); simpl;
      try (by repeat (constructor; [by split|])); apply frame_loop_emits. }
  rewrite transition_step_eq.
  destruct (nextEdge _ _); [destruct (faulty _); [constructor|]|]; apply Hrest.
Qed.

Lemma node_step_emits fuel nodeState locals t :
  cancelled t = false →
  Forall loop_event (events (node_step fuel nodeState locals t)).
Proof.
  intros Hgo. unfold node_step.
  destruct (ns_type nodeState), (ns_joints nodeState),
    (ns_transition nodeState);
    first [by apply pose_step_emits | by apply transition_step_emits
          | constructor].
Qed.

Lemma loop_body_emits fuel locals t :
  cancelled t = false →
  Forall loop_event (events (loop_body fuel locals t)).
Proof.
  intros Hgo. rewrite loop_body_eq.
  destruct (faulty _); [constructor|]. simpl. constructor; [by split|].
  destruct (faulty _); [constructor|].
  destruct (currentNode locals), (nodeStates !! currentNodeId locals);
    simpl; try constructor.
  by apply node_step_emits.
Qed.

Lemma while_loop_emits fuel locals t :
  Forall loop_event (events (while_loop fuel locals t)).
Proof.
  revert locals t. induction fuel as [|fuel IH]; intros locals t;
    [constructor|].
  rewrite while_loop_S.
  destruct (_ && negb (cancelled t)) eqn:Hgo; [|constructor].
  apply andb_true_iff in Hgo as [_ Hgo%negb_true_iff]. simpl.
  pose proof (loop_body_emits fuel locals t Hgo) as Hbody.
  destruct (outcome _) as [[|locals']| |]; simpl; try done.
  apply Forall_app; split; [done | apply IH].
Qed.

(** The loop starts by activating its first node, unless that call
    throws or the loop is not entered. *)
Lemma while_loop_head fuel locals t :
  match events (while_loop fuel locals t) with
  | [] => True
  | te :: _ => ∃ nodeId, te.2 = SetActiveNodeId (Some nodeId)
  end.
Proof.
  destruct fuel as [|fuel]; [done|]. rewrite while_loop_S.
  destruct (_ && _); [|done]. simpl. rewrite loop_body_eq.
  destruct (faulty _); [done|]. remember (after _ _) as o eqn:Heqo.
  assert (Ho : ∃ rest, events o =
    (t, SetActiveNodeId (Some (currentNodeId locals))) :: rest)
    by (subst o; by eexists).
  clear Heqo. destruct Ho as [rest Ho].
  destruct (outcome o) as [[|locals']| |]; simpl; rewrite Ho; simpl; eauto.
Qed.

(** *** The shape of a run *)

Lemma runAnimation_started fuel start rest t :
  startNodes nodes edges = start :: rest →
  let o := while_loop fuel (first_locals start) t in
  runAnimation fuel false t =
    match outcome o with
    | Ret _ =>
        {| events := started t ++ events o ++ cleanup (now o);
           now := now o; outcome := Ret tt |}
    | Throw =>
        {| events := started t ++ events o ++ caught (now o) ++ cleanup (now o);
           now := now o; outcome := Ret tt |}
    | Pending =>
        {| events := started t ++ events o; now := now o;
           outcome := Pending |}
    end.
Proof.
  intros Hstart. unfold runAnimation. rewrite Hstart.
  fold (first_locals start).
  unfold mbind, run_bind, bind, try_catch_finally, emit.
  cbn [events now outcome app].
  destruct (outcome (while_loop fuel (first_locals start) t)); reflexivity.
Qed.

Lemma runAnimation_no_start fuel t :
  startNodes nodes edges = [] →
  runAnimation fuel false t =
    {| events := [(t, ToastError
         "No starting node found. Add a node without incoming connections.")];
       now := t; outcome := Ret tt |}.
Proof. intros Hstart. unfold runAnimation. by rewrite Hstart. Qed.

Lemma startNodes_nil :
  (∀ node, In node nodes → ∃ edge, In edge edges ∧ target edge = node_id node) ↔
  startNodes nodes edges = [].
Proof.
  unfold startNodes. induction nodes as [|node l IH]; simpl.
  - split; [done | by intros _ node []].
  - destruct (existsb _ edges) eqn:Hex; simpl.
    + rewrite <- IH. apply existsb_exists in Hex as (edge & Hin & Heq).
      apply String.eqb_eq in Heq. split; [by auto|].
      intros Hall n [<- | Hn]; eauto.
    + split; [|done]. intros Hall.
      destruct (Hall node) as (edge & Hin & Heq); [by left|].
      assert (existsb (λ edge, (target edge =? node_id node)%string) edges
              = true) as Hyes.
      { apply existsb_exists. exists edge.
        split; [done | by apply String.eqb_eq]. }
      congruence.
Qed.

Lemma run_started_events fuel start rest :
  startNodes nodes edges = start :: rest →
  let o := while_loop fuel (first_locals start) 0 in
  ∃ tail, events (run fuel false) = started 0 ++ events o ++ tail ∧
    (tail = [] ∨ tail = cleanup (now o) ∨
     tail = caught (now o) ++ cleanup (now o)).
Proof.
  intros Hstart o. unfold run.
  rewrite (runAnimation_started fuel start rest 0 Hstart). fold o.
  destruct (outcome o); simpl.
  - exists (cleanup (now o)); auto.
  - exists (caught (now o) ++ cleanup (now o)); auto.
  - exists []. rewrite app_nil_r; auto.
Qed.

Lemma run_returned fuel start rest :
  startNodes nodes edges = start :: rest →
  outcome (run fuel false) ≠ Pending →
  let o := while_loop fuel (first_locals start) 0 in
  ∃ mid, (mid = [] ∨ mid = caught (now o)) ∧
    events (run fuel false) = (started 0 ++ events o ++ mid) ++ cleanup (now o).
Proof.
  intros Hstart. unfold run.
  rewrite (runAnimation_started fuel start rest 0 Hstart). simpl.
  destruct (outcome (while_loop _ _ _));
    [exists [] | eexists (caught _) | done];
    (split; [by auto|]); simpl; by rewrite <- ?app_assoc, ?app_nil_r.
Qed.

Lemma timer_nonneg ms : 0 <= timer ms.
Proof. apply Q.le_max_l. Qed.

(** *** The claims on the run *)

(** C6: on a graph in which every node has an incoming edge, a run
      invoked while no run is active shows the "no starting node" notice
      and returns at once: nothing is published, no flag of the store
      changes and no cancellation handle is installed. *)
Theorem no_start_node (fuel : nat) (st : UiState num)
    (idle : isAnimating st = false)
    (no_root : ∀ node, In node nodes →
       ∃ edge, In edge edges ∧ target edge = node_id node) :
  let o := run fuel (isAnimating st) in
  events o = [(0, ToastError
    "No starting node found. Add a node without incoming connections.")] ∧
  outcome o = Ret tt ∧
  published (events o) = [] ∧
  replay (events o) st = st ∧
  isAnimating (replay (events o) st) = false ∧
  activeNodeId (replay (events o) st) = activeNodeId st ∧
  animationAbortController (replay (events o) st)
    = animationAbortController st.
Proof.
  apply startNodes_nil in no_root. simpl. rewrite idle. unfold run.
  rewrite (runAnimation_no_start fuel 0 no_root). simpl.
  by repeat split.
Qed.

(** C1: once the cancellation handle has been invoked, at time [c], the
    run publishes nothing, activates no node and begins no wait: every
    publication, activation and wait of the trace is stamped before [c],
    whichever wait (settle, display, fallback or frame) the request fell
    into. In particular no publication happens later than one frame
    interval after the request. *)
Theorem cancellation_observed (fuel : nat) (isAnimating : bool) (c : Q)
    (requested : cancelAt = Some c) :
  ∀ t e, In (t, e) (events (run fuel isAnimating)) →
    match e with
    | SetJointValues _ => t < c ∧ t <= c + timer (nmillis frameTime)
    | SetActiveNodeId (Some _) | Wait _ => t < c
    | _ => True
    end.
Proof.
  intros t e Hin.
  assert (Hloop : loop_event (t, e) → t < c).
  { intros [Hgo _]; simpl in Hgo. unfold cancelled in Hgo.
    rewrite requested in Hgo. apply Qnot_le_lt. intros Hle.
    apply Qle_bool_iff in Hle. congruence. }
  assert (Hkind : loop_event (t, e) ∨
    match e with
    | SetJointValues _ | SetActiveNodeId (Some _) | Wait _ => False
    | _ => True
    end).
  { destruct isAnimating; [by destruct Hin|].
    destruct (startNodes nodes edges) as [|start rest] eqn:Hstart.
    - unfold run in Hin. rewrite (runAnimation_no_start fuel 0 Hstart) in Hin.
      destruct Hin as [[= <- <-] | []]. by right.
    - destruct (run_started_events fuel start rest Hstart)
        as (tail & Hev & Htail).
      rewrite Hev in Hin. rewrite !in_app_iff in Hin.
      destruct Hin as [Hin | [Hin | Hin]].
      + destruct Hin as [[= <- <-] | [[= <- <-] | []]]; by right.
      + left.
        pose proof (while_loop_emits fuel (first_locals start) 0) as Hbody.
        rewrite Forall_forall in Hbody. by apply Hbody, list_elem_of_In.
      + right. destruct Htail as [-> | [-> | ->]]; simpl in Hin;
          repeat (destruct Hin as [[= <- <-] | Hin]; [done|]); destruct Hin. }
  pose proof (timer_nonneg (nmillis frameTime)) as Hframe.
  destruct Hkind as [Hk | Hk].
  - specialize (Hloop Hk). destruct e as [| |[]| | | |]; try done.
    split; [done|]. apply Qlt_le_weak in Hloop.
    apply Qle_trans with c; [done|].
    rewrite <- (Qplus_0_r c) at 1. by apply Qplus_le_r.
  - destruct e as [| |[]| | | |]; done.
Qed.

Lemma occurrences_app (p : event num → bool) l1 l2 :
  occurrences p (l1 ++ l2) = (occurrences p l1 + occurrences p l2)%nat.
Proof. unfold occurrences. by rewrite List.filter_app, length_app. Qed.

Lemma occurrences_loop (p : event num → bool) body :
  Forall loop_event body →
  (∀ e, p e = true →
     match e with
     | SetJointValues _ | SetActiveNodeId (Some _) | Wait _ => False
     | _ => True
     end) →
  occurrences p body = 0%nat.
Proof.
  intros Hbody Hp. unfold occurrences.
  induction Hbody as [|[t e] l [_ He] _ IH]; [done|]. simpl in *.
  destruct (p e) eqn:Hpe; [|done]. specialize (Hp e Hpe).
  destruct e as [| |[]| | | |]; done.
Qed.

Lemma replay_app (l1 l2 : list (Q * event num)) st :
  replay (l1 ++ l2) st = replay l2 (replay l1 st).
Proof. apply foldl_app. Qed.

(** C7: a run that has started and returned, whether at the end of the
    chain, at a node without state, after cancellation or after a fault
    thrown by a collaborator inside the loop, has cleared [activeNodeId],
    cleared [isAnimating] and released the cancellation handle exactly once
    each, as its last three events. *)
Theorem cleanup_exactly_once (fuel : nat) (st : UiState num)
    (idle : isAnimating st = false)
    (has_start : startNodes nodes edges ≠ [])
    (returned : outcome (run fuel (isAnimating st)) ≠ Pending) :
  let trace := events (run fuel (isAnimating st)) in
  occurrences clears_active trace = 1%nat ∧
  occurrences clears_animating trace = 1%nat ∧
  occurrences releases_handle trace = 1%nat ∧
  (∃ before t, trace = before ++ cleanup t) ∧
  isAnimating (replay trace st) = false ∧
  activeNodeId (replay trace st) = None ∧
  animationAbortController (replay trace st) = false.
Proof.
  rewrite idle in *. intros trace; subst trace.
  destruct (startNodes nodes edges) as [|start rest] eqn:Hstart; [done|].
  destruct (run_returned fuel start rest Hstart returned)
    as (mid & Hmid & ->).
  pose proof (while_loop_emits fuel (first_locals start) 0) as Hbody.
  set (o := while_loop fuel (first_locals start) 0) in *.
  assert (Hfree : ∀ p : event num → bool,
    (∀ e, p e = true →
       match e with
       | SetJointValues _ | SetActiveNodeId (Some _) | Wait _ => False
       | _ => True
       end) →
    p (SetAnimationAbortController true) = false →
    p (SetIsAnimating true) = false →
    p (ConsoleError "Animation error:") = false →
    p (ToastError "Animation encountered an error") = false →
    occurrences p (started 0 ++ events o ++ mid) = 0%nat).
  { intros p Hp H1 H2 H3 H4. rewrite !occurrences_app.
    rewrite (occurrences_loop p (events o) Hbody Hp).
    unfold occurrences; simpl. rewrite H1, H2.
    destruct Hmid as [-> | ->]; simpl; [done|]. by rewrite H3, H4. }
  rewrite !(occurrences_app _ (started 0 ++ events o ++ mid)), !Hfree,
    replay_app; try done; try (by intros [| |[]| | | |]).
  repeat split; try done. by eexists _, _.
Qed.

Lemma wait_states_app (st : UiState num) l1 l2 :
  wait_states st (l1 ++ l2)
  = wait_states st l1 ++ wait_states (replay l1 st) l2.
Proof.
  revert st. induction l1 as [|te l1 IH]; intros st; [done|].
  simpl. by rewrite IH, <- app_assoc.
Qed.

Lemma wait_states_prefix (st : UiState num) pre t d post :
  In (replay pre st) (wait_states st (pre ++ (t, Wait d) :: post)).
Proof. rewrite wait_states_app. apply in_or_app. right. by left. Qed.

Lemma loop_wait_states body (st : UiState num) :
  Forall loop_event body →
  isAnimating st = true → activeNodeId st ≠ None →
  Forall (λ s, isAnimating s = true ∧ activeNodeId s ≠ None)
    (wait_states st body).
Proof.
  intros Hbody. revert st.
  induction Hbody as [|[t e] l [_ He] _ IH]; intros st Hanim Hact;
    [constructor|].
  simpl in *. destruct e as [| |[]| | | |]; try done; simpl.
  - by apply IH.
  - by apply IH.
  - constructor; [done | by apply IH].
Qed.

(** C2, as amended: whenever a run is suspended in a wait, [isAnimating]
    is true and [activeNodeId] is non-null, and once the run has returned
    [isAnimating] is false and [activeNodeId] is null; the two flags agree
    at every such point, the run having been invoked with both clear. *)
Theorem flags_consistent_at_rest (fuel : nat) (st : UiState num)
    (idle : isAnimating st = false) (inactive : activeNodeId st = None) :
  let o := run fuel (isAnimating st) in
  (∀ pre t d post, events o = pre ++ (t, Wait d) :: post →
     flags_consistent (replay pre st) ∧
     isAnimating (replay pre st) = true ∧ activeNodeId (replay pre st) ≠ None) ∧
  (outcome o = Ret tt →
     flags_consistent (replay (events o) st) ∧
     isAnimating (replay (events o) st) = false ∧
     activeNodeId (replay (events o) st) = None).
Proof.
  rewrite idle. intros o; subst o. unfold flags_consistent.
  destruct (startNodes nodes edges) as [|start rest] eqn:Hstart.
  { unfold run. rewrite (runAnimation_no_start fuel 0 Hstart); simpl. split.
    - intros [|? [|]] t d post; simpl; intros [=].
    - intros _. rewrite idle, inactive. by repeat split. }
  split.
  - intros pre t d post Hev.
    assert (Hgoal : isAnimating (replay pre st) = true ∧
                    activeNodeId (replay pre st) ≠ None);
      [|destruct Hgoal as [Hanim Hact]; by rewrite Hanim].
    pose proof (wait_states_prefix st pre t d post) as Hin.
    rewrite <- Hev in Hin. revert Hin. generalize (replay pre st).
    apply List.Forall_forall. clear Hev pre t d post.
    destruct (run_started_events fuel start rest Hstart)
      as (tail & -> & Htail).
    pose proof (while_loop_emits fuel (first_locals start) 0) as Hbody.
    pose proof (while_loop_head fuel (first_locals start) 0) as Hhead.
    set (o := while_loop fuel (first_locals start) 0) in *.
    assert (Hloop : Forall (λ s, isAnimating s = true ∧ activeNodeId s ≠ None)
                      (wait_states (replay (started 0) st) (events o))).
    { destruct (events o) as [|[t e] body]; [constructor|].
      destruct Hhead as [nodeId Hhead]. simpl in Hhead; subst e.
      apply Forall_cons in Hbody as [_ Hbody]. simpl.
      by apply loop_wait_states. }
    rewrite !wait_states_app. apply Forall_app; split; [constructor|].
    apply Forall_app; split; [exact Hloop|].
    destruct Htail as [-> | [-> | ->]]; constructor.
  - intros Hret.
    destruct (run_returned fuel start rest Hstart) as (mid & _ & ->);
      [by rewrite Hret|].
    rewrite replay_app. simpl. by repeat split.
Qed.

Lemma mapped_Ret {A B} (f : A → B) (o : Outcome num A) b :
  outcome (mapped f o) = Ret b → ∃ a, outcome o = Ret a ∧ b = f a.
Proof.
  unfold mapped; simpl. destruct (outcome o) as [a| |]; [|done..].
  intros [= <-]. by exists a.
Qed.

(** C8: the loop body run on a smooth transition that has a previous pose
    and leads to a pose node hands over with the skip flag set; the body
    run next, on that pose node, publishes nothing: it activates the node,
    waits 100 ms, clears the flag and records the pose as
    [previousJointPose]. With the flag clear the same body publishes the
    pose and waits 1000 ms. *)
Theorem skip_after_smooth_transition (fuel fuel' : nat)
    (locals locals1 : Locals num) (t t1 : Q)
    (nodeT nodeB : Node) (stateT stateB : NodeState num)
    (trans : TransitionOptions num) (previous : gmap string num)
    (edge : Edge) (joints : list (JointParameter num))
    (at_transition : currentNode locals = Some nodeT ∧
       nodeStates !! currentNodeId locals = Some stateT ∧
       ns_type stateT = transition ∧ ns_transition stateT = Some trans)
    (is_smooth : smooth trans = true)
    (has_previous : previousJointPose locals = Some previous)
    (leads_to_pose : nextEdge edges (currentNodeId locals) = Some edge ∧
       List.find (λ n, (node_id n =? target edge)%string) nodes = Some nodeB ∧
       nodeStates !! target edge = Some stateB ∧
       ns_type stateB = joint ∧ ns_joints stateB = Some joints)
    (calls_succeed : faulty (CallSetActiveNodeId (target edge)) = false ∧
       faulty (CallGetNodeState (target edge)) = false)
    (completes : outcome (loop_body fuel locals t) = Ret (Continue locals1)) :
  let pose := pose_of joints in
  let recorded skip :=
    Continue (advance edges
      {| currentNodeId := target edge; previousJointPose := Some pose;
         skipNextJointApplication := skip |}) in
  locals1 = {| currentNodeId := target edge;
               previousJointPose := Some previous;
               skipNextJointApplication := true |} ∧
  loop_body fuel' locals1 t1
    = {| events := [(t1, SetActiveNodeId (Some (target edge))); (t1, Wait 100)];
         now := Qred (t1 + 100); outcome := Ret (recorded false) |} ∧
  published (events (loop_body fuel' locals1 t1)) = [] ∧
  (faulty (CallSetJointValues (Number <$> pose)) = false →
   loop_body fuel'
     {| currentNodeId := target edge; previousJointPose := Some previous;
        skipNextJointApplication := false |} t1
    = {| events := [(t1, SetActiveNodeId (Some (target edge)));
                    (t1, SetJointValues (Number <$> pose)); (t1, Wait 1000)];
         now := Qred (t1 + 1000); outcome := Ret (recorded false) |}).
Proof.
  destruct at_transition as (HnodeT & HstateT & HtypeT & Htrans).
  destruct leads_to_pose as (Hedge & HnodeB & HstateB & HtypeB & Hjoints).
  destruct calls_succeed as [Hactive Hget].
  intros pose recorded.
  assert (Hlocals1 : locals1 = {| currentNodeId := target edge;
                                  previousJointPose := Some previous;
                                  skipNextJointApplication := true |}).
  { rewrite loop_body_eq in completes.
    destruct (faulty (CallSetActiveNodeId (currentNodeId locals))); [done|].
    unfold after in completes; simpl in completes.
    destruct (faulty (CallGetNodeState (currentNodeId locals))); [done|].
    rewrite HnodeT, HstateT in completes.
    apply mapped_Ret in completes as (locals' & Hstep & [= ->]).
    unfold node_step in Hstep. rewrite HtypeT, Htrans in Hstep.
    rewrite transition_step_eq, Hedge, Hget, HstateB in Hstep.
    unfold transition_rest, pose_of_state in Hstep.
    rewrite is_smooth, has_previous in Hstep.
    destruct stateB as [idB typeB jointsB transB]; simpl in *; subst.
    unfold returning in Hstep; simpl in Hstep.
    destruct (outcome (frame_loop _ _ _ _ _ _)); [|done..].
    injection Hstep as <-. unfold advance; simpl.
    by rewrite Hedge. }
  assert (Hpose : ∀ skip, node_step fuel' stateB
     {| currentNodeId := target edge; previousJointPose := Some previous;
        skipNextJointApplication := skip |} t1
     = pose_step joints
         {| currentNodeId := target edge; previousJointPose := Some previous;
            skipNextJointApplication := skip |} t1).
  { intros skip. unfold node_step. by rewrite HtypeB, Hjoints. }
  assert (Hskip : loop_body fuel' locals1 t1
    = {| events := [(t1, SetActiveNodeId (Some (target edge))); (t1, Wait 100)];
         now := Qred (t1 + 100); outcome := Ret (recorded false) |}).
  { rewrite Hlocals1, loop_body_eq. unfold currentNode. simpl.
    by rewrite Hactive, Hget, HnodeB, HstateB, Hpose, pose_step_eq. }
  split; [done|]. split; [done|]. split; [by rewrite Hskip|].
  intros Hpublish. rewrite loop_body_eq. unfold currentNode. simpl.
  rewrite Hactive, Hget, HnodeB, HstateB, Hpose, pose_step_eq. simpl.
  fold pose. by rewrite Hpublish.
Qed.

End SequencerFacts.

(** ** The frames of a transition that runs to its end *)

Section FullTransition.
Context {num : Type} `{JsNumber num}.

Lemma frame_loop_all_frames previous next frames (n : Z) fuel frame t :
  (∀ f, (0 ≤ f ≤ n)%Z → (nlit (inject_Z f) <=? frames)%js = true) →
  (nlit (inject_Z (n + 1)) <=? frames)%js = false →
  (0 ≤ frame ≤ n + 1)%Z → (Z.to_nat (n + 1 - frame) < fuel)%nat →
  let o := undisturbed_frames fuel previous next frames frame t in
  outcome o = Ret tt ∧
  published (events o)
    = map (framePose previous next frames) (seqZ frame (n + 1 - frame)).
Proof.
  intros Hin Hout. revert frame t. unfold undisturbed_frames.
  induction fuel as [|fuel IH]; intros frame t Hframe Hfuel; [lia|].
  cbv zeta in *. rewrite frame_loop_S.
  unfold cancelled; rewrite andb_true_r.
  destruct (decide (frame = n + 1)%Z) as [-> | Hne].
  - rewrite Hout, Z.sub_diag. by split.
  - rewrite Hin by lia. simpl.
    destruct (IH (frame + 1)%Z (Qred (t + timer (nmillis frameTime))))
      as [Hret Hpub]; [lia | lia |].
    split; [done|]. unfold published in *; simpl. rewrite Hpub.
    rewrite (seqZ_cons frame) by lia. simpl. do 3 f_equal; lia.
Qed.

(** The first and the last pose of such a transition. *)
Lemma frame_loop_endpoints previous next frames (n : Z) fuel t :
  (∀ f, (0 ≤ f ≤ n)%Z → (nlit (inject_Z f) <=? frames)%js = true) →
  (nlit (inject_Z (n + 1)) <=? frames)%js = false →
  (0 ≤ n)%Z → (Z.to_nat (n + 1) < fuel)%nat →
  let o := undisturbed_frames fuel previous next frames 0 t in
  outcome o = Ret tt ∧
  length (published (events o)) = Z.to_nat (n + 1) ∧
  head (published (events o)) = Some (framePose previous next frames 0) ∧
  last (published (events o)) = Some (framePose previous next frames n).
Proof.
  intros Hin Hout Hn Hfuel.
  destruct (frame_loop_all_frames previous next frames n fuel 0 t)
    as [Hret Hpub]; [done | done | lia | by rewrite Z.sub_0_r |].
  cbv zeta. rewrite Hpub, Z.sub_0_r. split; [done|].
  split; [by rewrite length_map, length_seqZ|]. split.
  - rewrite (seqZ_cons 0) by lia. done.
  - replace (n + 1)%Z with (Z.of_nat (S (Z.to_nat n))) by lia.
    rewrite seqZ_S, map_app. simpl. rewrite last_snoc. do 2 f_equal. lia.
Qed.

Lemma interpolatedPose_lookup (previous next : gmap string num) eased j :
  interpolatedPose previous next eased !! j =
    if decide (j ∈ allJointNames previous next ∖ {["__proto__"]})
    then Some (interpolated (member_or_0 previous j) (member_or_0 next j)
                 eased)
    else None.
Proof.
  apply option_eq; intros x. unfold interpolatedPose.
  rewrite lookup_set_to_map by (by intros ?? _ _ [=]).
  case_decide as Hin; split.
  - by intros (y & _ & [= -> <-]).
  - intros [= <-]. by exists j.
  - by intros (y & Hy & [= -> _]).
  - done.
Qed.

Lemma member_or_0_plain (pose : gmap string num) j :
  j ∉ object_prototype_members → member_or_0 pose j = Num (joint_or_0 pose j).
Proof.
  intros Hj. unfold member_or_0, joint_or_0.
  destruct (pose !! j); [done|]. by rewrite bool_decide_eq_false_2.
Qed.

(** Between poses whose joints bear no name of a member of
    [Object.prototype], a frame holds a number for every joint of either
    pose. *)
Lemma plain_frame_lookup (previous next : gmap string num) eased j :
  plain_names previous → plain_names next →
  interpolatedPose previous next eased !! j =
    if decide (j ∈ allJointNames previous next)
    then Some (Number (joint_or_0 previous j
                       + (joint_or_0 next j - joint_or_0 previous j) * eased)%js)
    else None.
Proof.
  intros Hprev Hnext. rewrite interpolatedPose_lookup.
  destruct (decide (j ∈ allJointNames previous next)) as [Hin | Hout].
  - assert (Hplain : j ∉ object_prototype_members).
    { unfold allJointNames in Hin.
      apply elem_of_union in Hin as [Hin | Hin]; apply elem_of_dom in Hin;
        [by apply Hprev | by apply Hnext]. }
    rewrite decide_True.
    + by rewrite !member_or_0_plain.
    + apply elem_of_difference. split; [done|].
      intros ->%elem_of_singleton. apply Hplain.
      apply list_elem_of_In. simpl. tauto.
  - rewrite decide_False; [done|]. by intros [Hin _]%elem_of_difference.
Qed.

Lemma over_lookup names (pose : gmap string num) j :
  over names pose !! j =
    if decide (j ∈ names) then Some (joint_or_0 pose j) else None.
Proof.
  apply option_eq; intros x. unfold over.
  rewrite lookup_set_to_map by (by intros ?? _ _ [=]).
  case_decide as Hin; split.
  - by intros (y & _ & [= -> <-]).
  - intros [= <-]. by exists j.
  - by intros (y & Hy & [= -> _]).
  - done.
Qed.

End FullTransition.

(** ** The claims on the samples *)

(** C1 on the chain, the handle invoked at 1200 ms: the first frame of the
    transition, published at 1000 ms, precedes the request; the run
    publishes 13 poses in all and returns at 1200 ms. *)
Lemma cancellation_observed_witness :
  (1000 < 1200 ∧ 1000 <= 1200 + timer (nmillis (frameTime : Q))) ∧
  now (chain_run (num := Q) (Some 1200) no_fault 100) = 1200 ∧
  length (published (events (chain_run (num := Q) (Some 1200) no_fault 100)))
    = 13%nat.
Proof.
  split; [|split; vm_compute; reflexivity].
  apply (cancellation_observed (num := Q) sample_graph.1 sample_graph.2 chain_states
           (Some 1200) no_fault 100 false 1200 eq_refl 1000
           (SetJointValues
              (framePose (pose_of [ {| name := "j1"; value := 0.5 |};
                                    {| name := "j2"; value := 1 |} ])
                         (pose_of [ {| name := "j1"; value := 1.5 |};
                                    {| name := "j3"; value := 2 |} ])
                         (totalFrames 100) 0))).
  apply (nth_error_In _ 6). vm_compute. reflexivity.
Defined.

(** The handle invoked 1 ms into the settle pause of the first pose: nothing
    more is published, and the run returns when the pause is over, at
    1000 ms. *)
Remark cancel_during_settle_pause :
  map fst (events (chain_run (num := Q) (Some 1) no_fault 100))
    = [0; 0; 0; 0; 0; 1000; 1000; 1000] ∧
  length (published (events (chain_run (num := Q) (Some 1) no_fault 100)))
    = 1%nat ∧
  now (chain_run (num := Q) (Some 1) no_fault 100) = 1000.
Proof. repeat split; vm_compute; reflexivity. Qed.

(** C2 fails as stated: in the run of a single pose node the store holds
    [isAnimating = true] with [activeNodeId = null] after the first two
    events, and [isAnimating = false] with [activeNodeId = "a"] after the
    sixth. *)
Lemma flags_inconsistent_within_run :
  events single_run = take 2 (events single_run) ++ drop 2 (events single_run) ∧
  ¬ flags_consistent (replay (take 2 (events single_run)) idle_state) ∧
  events single_run = take 6 (events single_run) ++ drop 6 (events single_run) ∧
  ¬ flags_consistent (replay (take 6 (events single_run)) idle_state).
Proof.
  assert (H2 : replay (take 2 (events single_run)) idle_state
    = {| jointValues := ∅; isAnimating := true; activeNodeId := None;
         animationAbortController := true |}) by (vm_compute; reflexivity).
  assert (H6 : activeNodeId (replay (take 6 (events single_run)) idle_state)
               = Some "a" ∧
               isAnimating (replay (take 6 (events single_run)) idle_state)
               = false) by (split; vm_compute; reflexivity).
  split; [by rewrite take_drop|]. split; [|split; [by rewrite take_drop|]].
  - rewrite H2. intros [_ Hcon]. by apply Hcon.
  - destruct H6 as [Hact Hanim]. intros [Hcon _].
    rewrite Hact, Hanim in Hcon. by discriminate Hcon.
Qed.

(** C2 at the wait of the single pose node and after its run. *)
Lemma flags_consistent_at_rest_witness :
  flags_consistent (replay (take 4 (events single_run)) idle_state) ∧
  flags_consistent (replay (events single_run) idle_state).
Proof.
  pose proof (flags_consistent_at_rest (num := Q) single_graph.1
                single_graph.2 chain_states None no_fault 10 idle_state
                eq_refl eq_refl) as [Hwait Hend].
  split.
  - apply (Hwait (take 4 (events single_run)) 0 1000
             (drop 5 (events single_run))).
    vm_compute. reflexivity.
  - apply Hend. vm_compute. reflexivity.
Defined.

(** On the cycle every node has an incoming edge. *)
Lemma cycle_graph_no_root :
  ∀ node, In node cycle_graph.1 →
    ∃ edge, In edge cycle_graph.2 ∧ target edge = node_id node.
Proof.
  intros node [<- | [<- | []]].
  - exists {| edge_id := "e2"; source := "b"; target := "a" |}; simpl; auto.
  - exists {| edge_id := "e1"; source := "a"; target := "b" |}; simpl; auto.
Defined.

(** C6 on the cycle. *)
Lemma no_start_node_witness :
  events (run (num := Q) cycle_graph.1 cycle_graph.2 chain_states None
            no_fault 10 false)
    = [(0, ToastError
         "No starting node found. Add a node without incoming connections.")].
Proof.
  apply (no_start_node (num := Q) cycle_graph.1 cycle_graph.2 chain_states
           None no_fault 10 idle_state eq_refl cycle_graph_no_root).
Defined.

(** C7 on the four ways a run returns: at the end of the chain, at a node
    without state, after cancellation, and after a fault thrown in the
    loop. *)
Lemma cleanup_exactly_once_witness :
  occurrences clears_active
    (events (run (num := Q) sample_graph.1 sample_graph.2 chain_states
               None no_fault 100 (isAnimating (idle_state (num := Q))))) = 1%nat ∧
  occurrences clears_active
    (events (run (num := Q) stateless_graph.1 stateless_graph.2 chain_states
               None no_fault 100 (isAnimating (idle_state (num := Q))))) = 1%nat ∧
  occurrences clears_active
    (events (run (num := Q) sample_graph.1 sample_graph.2 chain_states
               (Some 1200) no_fault 100 (isAnimating (idle_state (num := Q))))) = 1%nat ∧
  occurrences clears_active
    (events (run (num := Q) sample_graph.1 sample_graph.2 chain_states
               None publish_fault 100 (isAnimating (idle_state (num := Q))))) = 1%nat.
Proof.
  split; [|split; [|split]].
  - assert (Hstart : startNodes sample_graph.1 sample_graph.2 ≠ [])
      by (vm_compute; discriminate).
    assert (Hret : outcome (run (num := Q) sample_graph.1 sample_graph.2
              chain_states None no_fault 100 (isAnimating (idle_state (num := Q))))
              ≠ Pending) by (vm_compute; discriminate).
    pose proof (cleanup_exactly_once (num := Q) sample_graph.1 sample_graph.2
             chain_states None no_fault 100 idle_state eq_refl Hstart Hret)
      as Honce.
    cbv zeta in Honce. exact (proj1 Honce).
  - assert (Hstart : startNodes stateless_graph.1 stateless_graph.2 ≠ [])
      by (vm_compute; discriminate).
    assert (Hret : outcome (run (num := Q) stateless_graph.1
              stateless_graph.2 chain_states None no_fault 100
              (isAnimating (idle_state (num := Q)))) ≠ Pending)
      by (vm_compute; discriminate).
    pose proof (cleanup_exactly_once (num := Q) stateless_graph.1
             stateless_graph.2 chain_states None no_fault 100 idle_state
             eq_refl Hstart Hret) as Honce.
    cbv zeta in Honce. exact (proj1 Honce).
  - assert (Hstart : startNodes sample_graph.1 sample_graph.2 ≠ [])
      by (vm_compute; discriminate).
    assert (Hret : outcome (run (num := Q) sample_graph.1 sample_graph.2
              chain_states (Some 1200) no_fault 100 (isAnimating (idle_state (num := Q))))
              ≠ Pending) by (vm_compute; discriminate).
    pose proof (cleanup_exactly_once (num := Q) sample_graph.1 sample_graph.2
             chain_states (Some 1200) no_fault 100 idle_state eq_refl Hstart
             Hret) as Honce.
    cbv zeta in Honce. exact (proj1 Honce).
  - assert (Hstart : startNodes sample_graph.1 sample_graph.2 ≠ [])
      by (vm_compute; discriminate).
    assert (Hret : outcome (run (num := Q) sample_graph.1 sample_graph.2
              chain_states None publish_fault 100 (isAnimating (idle_state (num := Q))))
              ≠ Pending) by (vm_compute; discriminate).
    pose proof (cleanup_exactly_once (num := Q) sample_graph.1 sample_graph.2
             chain_states None publish_fault 100 idle_state eq_refl Hstart
             Hret) as Honce.
    cbv zeta in Honce. exact (proj1 Honce).
Defined.

(** C8 on the chain: pose "b", reached through the transition, is
    activated and held for 100 ms without a publication. *)
Lemma skip_after_smooth_transition_witness :
  events (loop_body (num := Q) sample_graph.1 sample_graph.2 chain_states None
            no_fault 40
            {| currentNodeId := "b";
               previousJointPose := previousJointPose at_transition;
               skipNextJointApplication := true |} 2000)
    = [(2000, SetActiveNodeId (Some "b")); (2000, Wait 100)].
Proof.
  pose proof (skip_after_smooth_transition (num := Q) sample_graph.1
    sample_graph.2 chain_states None no_fault 40 40 at_transition
    {| currentNodeId := "b";
       previousJointPose := previousJointPose at_transition;
       skipNextJointApplication := true |} 1000 2000
    {| node_id := "t"; node_type := transition |}
    {| node_id := "b"; node_type := joint |}
    (transition_state "t" true 100)
    (pose_state "b" [("j1", 1.5); ("j3", 2)])
    {| smooth := true; smoothness := 100 |}
    (pose_of [ {| name := "j1"; value := 0.5 |};
               {| name := "j2"; value := 1 |} ])
    {| edge_id := "e2"; source := "t"; target := "b" |}
    [ {| name := "j1"; value := 1.5 |}; {| name := "j3"; value := 2 |} ])
    as Hskip.
  destruct Hskip as (_ & Hbody & _).
  - repeat split; vm_compute; reflexivity.
  - reflexivity.
  - reflexivity.
  - repeat split; vm_compute; reflexivity.
  - split; reflexivity.
  - vm_compute. reflexivity.
  - exact (f_equal events Hbody).
Defined.

(** ** Endpoints and finiteness of the interpolation *)

Lemma easedT_Q_0 (t : Q) : t == 0 → easedT t == 0.
Proof.
  intros Ht. unfold easedT; simpl.
  destruct (Qle_bool 0.5 t) eqn:Hhalf; simpl.
  - apply Qle_bool_iff in Hhalf. rewrite Ht in Hhalf. by destruct Hhalf.
  - rewrite Ht. reflexivity.
Qed.

Lemma easedT_Q_1 (t : Q) : t == 1 → easedT t == 1.
Proof.
  intros Ht. unfold easedT; simpl.
  destruct (Qle_bool 0.5 t) eqn:Hhalf; simpl.
  - rewrite Ht. reflexivity.
  - assert (Hle : Qle_bool 0.5 t = true); [|congruence].
    apply Qle_bool_iff. rewrite Ht. discriminate.
Qed.

Lemma framePose_Q_first (P N : gmap string Q) (frames : Q) :
  plain_names P → plain_names N →
  same_pose (framePose P N frames 0) (over (allJointNames P N) P).
Proof.
  intros HP HN j. unfold framePose.
  rewrite plain_frame_lookup, over_lookup by done.
  case_decide; [|done]. simpl.
  rewrite easedT_Q_0; [ring|]. unfold Qdiv. ring.
Qed.

Lemma framePose_Q_last (P N : gmap string Q) (n : Z) :
  plain_names P → plain_names N → n ≠ 0%Z →
  same_pose (framePose P N (inject_Z n) n) (over (allJointNames P N) N).
Proof.
  intros HP HN Hn j. unfold framePose.
  rewrite plain_frame_lookup, over_lookup by done.
  case_decide; [|done]. simpl.
  rewrite easedT_Q_1; [ring|]. apply Qmult_inv_r.
  unfold Qeq; simpl. lia.
Qed.

Lemma frames_Q_counted (n f : Z) :
  (nlit (inject_Z f) <=? (inject_Z n : Q))%js = true ↔ (f ≤ n)%Z.
Proof. simpl. by rewrite Qle_bool_iff, <- Zle_Qle. Qed.

Lemma totalFrames_Q_counted (s : Q) :
  0 <= s → s <= 100 →
  ∃ n : Z, totalFrames s = inject_Z n ∧ (30 ≤ n ≤ 300)%Z ∧
    (∀ f, (0 ≤ f ≤ n)%Z → (nlit (inject_Z f) <=? totalFrames s)%js = true) ∧
    (nlit (inject_Z (n + 1)) <=? totalFrames s)%js = false.
Proof.
  intros H0 H100. exists (Qfloor (durationMs s / frameTime)).
  destruct (totalFrames_Q_bounds s H0 H100) as [Hlo Hhi].
  rewrite totalFrames_Q_floor in *.
  change 30 with (inject_Z 30) in Hlo. change 300 with (inject_Z 300) in Hhi.
  rewrite <- Zle_Qle in Hlo, Hhi. split; [done|]. split; [done|]. split.
  - intros f Hf. apply frames_Q_counted. lia.
  - apply not_true_is_false. rewrite frames_Q_counted. lia.
Qed.

Lemma totalFrames_XQ (s : Q) : totalFrames (Some s) = Some (totalFrames s).
Proof. reflexivity. Qed.

Lemma easedT_XQ (t : Q) : easedT (Some t) = Some (easedT t).
Proof. unfold easedT; simpl. by destruct (Qle_bool 0.5 t). Qed.

Lemma framePose_XQ_finite (P N : gmap string (option Q)) (frames : Q) (f : Z) :
  plain_names P → plain_names N →
  finite_pose P → finite_pose N → ¬ frames == 0 →
  finite_values (framePose P N (Some frames) f).
Proof.
  intros HpP HpN HP HN Hframes j value. unfold framePose.
  rewrite plain_frame_lookup by done. case_decide; [|done].
  assert (Ht : (nlit (inject_Z f) / Some frames)%js
               = Some (inject_Z f / frames)).
  { simpl. destruct (Qeq_bool frames 0) eqn:Hz; [|done].
    by apply Qeq_bool_iff in Hz. }
  rewrite Ht, easedT_XQ.
  assert (Hfin : ∀ pose : gmap string (option Q), finite_pose pose →
            ∃ x, joint_or_0 pose j = Some x).
  { intros pose Hpose. unfold joint_or_0. specialize (Hpose j).
    destruct (pose !! j) as [[x|]|]; simpl; eauto. done. }
  destruct (Hfin P HP) as [x ->], (Hfin N HN) as [y ->].
  intros [= <-]. by eexists.
Qed.

(** *** In binary64 *)

Lemma moderate_joint_or_0 (pose : gmap string float) j :
  moderate_pose pose → moderate (joint_or_0 pose j).
Proof.
  intros Hpose. unfold joint_or_0.
  destruct (pose !! j) as [v|] eqn:Hj; [by apply (Hpose j)|]. by split.
Qed.

(** The frames of a smoothness from 0 to 100. *)
Lemma F64_frames (s : float) :
  in_range s →
  ∃ n : Z, (29 ≤ n ≤ 300)%Z ∧ F64.to_Z (totalFrames s) = n ∧
    is_finite (totalFrames s) = true ∧
    F64.to_Q (totalFrames s) == inject_Z n ∧ counts (totalFrames s) n.
Proof.
  intros (n & Hn & Hfin & Hval)%F64_totalFrames. exists n.
  split; [done|]. split; [by apply F64_to_Z_val|]. split; [done|].
  split; [done|]. apply F64_counts; [done | done | lia].
Qed.

Lemma F64_frame_0 (P N : gmap string float) (frames : float) (n : Z) :
  is_finite frames = true → F64.to_Q frames == inject_Z n → (1 ≤ n)%Z →
  framePose P N frames 0 = interpolatedPose P N 0%float.
Proof.
  intros Hfin Hval Hn. unfold framePose. cbv zeta.
  by rewrite (F64_first_time frames n Hfin Hval Hn).
Qed.

Lemma F64_frame_last (P N : gmap string float) (frames : float) (n : Z) :
  is_finite frames = true → F64.to_Q frames == inject_Z n →
  (1 ≤ n < 2 ^ 52)%Z →
  framePose P N frames n = interpolatedPose P N 1%float.
Proof.
  intros Hfin Hval Hn. unfold framePose. cbv zeta.
  by rewrite (F64_last_time frames n Hfin Hval Hn).
Qed.

Lemma F64_first_frame_is_start (P N : gmap string float) :
  plain_names P → plain_names N → moderate_pose P → moderate_pose N →
  same_numbers (interpolatedPose P N 0%float) (over (allJointNames P N) P).
Proof.
  intros HpP HpN HP HN j.
  rewrite plain_frame_lookup, over_lookup by done.
  case_decide; [|done]. cbn [nadd nsub nmul F64_number].
  apply F64_interpolated_0; by apply moderate_joint_or_0.
Qed.

Lemma F64_frame_finite_numbers (P N : gmap string float) (frames : float)
    (n f : Z) :
  plain_names P → plain_names N → moderate_pose P → moderate_pose N →
  is_finite frames = true → F64.to_Q frames == inject_Z n →
  (1 ≤ n < 2 ^ 52)%Z → (0 ≤ f ≤ n)%Z →
  F64_frame_finite frames f = true ∧
  finite_numbers (framePose P N frames f).
Proof.
  intros HpP HpN HP HN Hfin Hval Hn Hf.
  destruct (F64_time frames n f Hfin Hval Hn Hf) as (Ft & Lt & Ut).
  destruct (F64_easedT _ Ft Lt Ut) as (Fe & Le & Ue).
  assert (C1 : F64.to_Q 1 == 1) by reflexivity.
  split.
  - unfold F64_frame_finite. cbv zeta. rewrite Ft, Fe. cbn [andb].
    rewrite !andb_true_iff. repeat split.
    + by apply (F64_leb 0 _ eq_refl Ft).
    + apply (F64_leb _ 1 Ft eq_refl). by rewrite C1.
    + by apply (F64_leb 0 _ eq_refl Fe).
    + apply (F64_leb _ 1 Fe eq_refl). by rewrite C1.
  - intros j value. unfold framePose. cbv zeta.
    rewrite plain_frame_lookup by done. case_decide; [|done].
    intros [= <-]. eexists. split; [done|].
    cbn [nadd nsub nmul F64_number].
    apply F64_interpolated; try done; by apply moderate_joint_or_0.
Qed.

(** C3, as amended: between poses no joint of which bears the name of a
    member of [Object.prototype], a smooth transition of a smoothness from
    0 to 100 that runs to its end publishes as its first pose P and as its
    last pose N, each over the union of the joint names with 0 for a
    missing name, in exact arithmetic. In binary64, for every double from
    0 to 100 and joint values of moderate size, the first pose published
    equals P in the same way, number by number, and the last is
    P + (N - P) * 1, joint by joint, the eased factor being exactly 1. *)
Theorem smooth_transition_endpoints (P N : gmap string Q) (s : Q)
    (Pf Nf : gmap string float) (sf : float) (fuel : nat) (t : Q)
    (Hs : 0 <= s ∧ s <= 100) (Hsf : in_range sf)
    (plain : plain_names P ∧ plain_names N)
    (plain_f : plain_names Pf ∧ plain_names Nf)
    (sized : moderate_pose Pf ∧ moderate_pose Nf)
    (Hfuel : (302 ≤ fuel)%nat) :
  let o := undisturbed_frames fuel P N (totalFrames s) 0 t in
  let o' := undisturbed_frames fuel Pf Nf (totalFrames sf) 0 t in
  (outcome o = Ret tt ∧
   ∃ first final,
     head (published (events o)) = Some first ∧
     last (published (events o)) = Some final ∧
     same_pose first (over (allJointNames P N) P) ∧
     same_pose final (over (allJointNames P N) N)) ∧
  (outcome o' = Ret tt ∧
   (∃ first,
      head (published (events o')) = Some first ∧
      same_numbers first (over (allJointNames Pf Nf) Pf)) ∧
   last (published (events o')) = Some (interpolatedPose Pf Nf 1%float)).
Proof.
  destruct plain as [HpP HpN], plain_f as [HpPf HpNf], sized as [HmP HmN].
  split.
  - destruct Hs as [H0 H100].
    destruct (totalFrames_Q_counted s H0 H100) as (n & Hn & Hrange & Hin & Hout).
    destruct (frame_loop_endpoints P N (totalFrames s) n fuel t Hin Hout)
      as (Hret & _ & Hhead & Hlast); [lia | lia |].
    split; [done|]. eexists _, _. split; [done|]. split; [done|]. split.
    + by apply framePose_Q_first.
    + rewrite Hn. apply framePose_Q_last; [done | done | lia].
  - destruct (F64_frames sf Hsf) as (n & Hn & _ & Hfin & Hval & Hin & Hout).
    destruct (frame_loop_endpoints Pf Nf (totalFrames sf) n fuel t Hin Hout)
      as (Hret & _ & Hhead & Hlast); [lia | lia |].
    split; [done|]. split.
    + eexists. split; [exact Hhead|].
      rewrite (F64_frame_0 Pf Nf _ n Hfin Hval) by lia.
      by apply F64_first_frame_is_start.
    + rewrite Hlast. f_equal. apply (F64_frame_last Pf Nf _ n Hfin Hval). lia.
Qed.

(** C10, as amended: for every smoothness from 0 to 100 the frame count is
    at least 29 (and so at least 1 and not 0), and the division
    frame/totalFrames meets no zero divisor. Between poses no joint of
    which bears the name of a member of [Object.prototype], every joint
    value of every frame is then a finite number: in exact arithmetic, for
    finite poses, and in binary64, for every double from 0 to 100 and
    joint values of moderate size, where the normalized time and the eased
    factor of every frame are finite and lie in [0,1]. *)
Theorem frames_never_divide_by_zero (s : Q) (sf : float)
    (P N : gmap string (option Q)) (Pf Nf : gmap string float)
    (fuel : nat) (t : Q)
    (Hs : 0 <= s ∧ s <= 100) (Hsf : in_range sf)
    (HP : finite_pose P) (HN : finite_pose N)
    (plain : plain_names P ∧ plain_names N)
    (plain_f : plain_names Pf ∧ plain_names Nf)
    (sized : moderate_pose Pf ∧ moderate_pose Nf)
    (Hfuel : (302 ≤ fuel)%nat) :
  (29 <= totalFrames s ∧ 1 <= totalFrames s ∧ ¬ totalFrames s == 0) ∧
  (let o := undisturbed_frames fuel P N (totalFrames (Some s)) 0 t in
   (∀ frame, finite_values (framePose P N (totalFrames (Some s)) frame)) ∧
   outcome o = Ret tt ∧ (30 ≤ length (published (events o)))%nat ∧
   Forall finite_values (published (events o))) ∧
  (let frames : float := totalFrames sf in
   let o := undisturbed_frames fuel Pf Nf frames 0 t in
   (29 <=? frames)%float = true ∧ is_finite frames = true ∧
   (29 ≤ F64.to_Z frames ≤ 300)%Z ∧
   (∀ frame, (0 ≤ frame ≤ F64.to_Z frames)%Z →
      F64_frame_finite frames frame = true) ∧
   outcome o = Ret tt ∧
   length (published (events o)) = Z.to_nat (F64.to_Z frames + 1) ∧
   Forall finite_numbers (published (events o))).
Proof.
  destruct Hs as [H0 H100].
  destruct plain as [HpP HpN], plain_f as [HpPf HpNf], sized as [HmP HmN].
  destruct (totalFrames_Q_bounds s H0 H100) as [Hlo Hhi].
  assert (Hnz : ¬ totalFrames s == 0).
  { intros Hz. rewrite Hz in Hlo. by destruct Hlo. }
  split; [|split].
  - split; [|split]; [| |done].
    + apply Qle_trans with 30; [discriminate | done].
    + apply Qle_trans with 30; [discriminate | done].
  - cbv zeta. rewrite totalFrames_XQ.
    assert (Hfin : ∀ frame,
              finite_values (framePose P N (Some (totalFrames s)) frame))
      by (intros frame; by apply framePose_XQ_finite).
    split; [done|].
    destruct (totalFrames_Q_counted s H0 H100) as (n & Hn & Hrange & Hin & Hout).
    destruct (frame_loop_all_frames P N (Some (totalFrames s)) n fuel 0 t)
      as [Hret Hpub]; [done | done | lia | lia |].
    split; [done|]. rewrite Hpub. split.
    + rewrite length_map, length_seqZ. lia.
    + apply List.Forall_forall. intros pose Hpose.
      apply in_map_iff in Hpose as (frame & <- & _). apply Hfin.
  - cbv zeta.
    destruct (F64_frames sf Hsf) as (n & Hn & -> & Hfin & Hval & Hin & Hout).
    assert (C29 : F64.to_Q 29 == 29) by reflexivity.
    assert (Hframe : ∀ frame, (0 ≤ frame ≤ n)%Z →
              F64_frame_finite (totalFrames sf) frame = true ∧
              finite_numbers (framePose Pf Nf (totalFrames sf) frame)).
    { intros frame Hframe.
      apply (F64_frame_finite_numbers Pf Nf _ n frame); try done; lia. }
    split.
    { apply (F64_leb 29 _ eq_refl Hfin). rewrite C29, Hval.
      change 29 with (inject_Z 29). rewrite <- Zle_Qle. lia. }
    split; [done|]. split; [done|].
    split; [intros frame Hf; by apply Hframe|].
    destruct (frame_loop_all_frames Pf Nf (totalFrames sf) n fuel 0 t)
      as [Hret Hpub]; [done | done | lia | lia |].
    split; [done|]. rewrite Hpub, Z.sub_0_r. split.
    + by rewrite length_map, length_seqZ.
    + apply List.Forall_forall. intros pose Hpose.
      apply in_map_iff in Hpose as (frame & <- & Hf).
      apply list_elem_of_In, elem_of_seqZ in Hf. apply Hframe. lia.
Qed.

(** ** The two claims on the samples *)

Lemma singleton_plain {num} (jointName : string) (value : num) :
  jointName ∉ object_prototype_members →
  plain_names ({[ jointName := value ]} : gmap string num).
Proof.
  intros Hj j [v Hv]. apply lookup_singleton_Some in Hv as [<- _]. done.
Qed.

Lemma singleton_moderate (jointName : string) (value : float) :
  moderate value → moderate_pose {[ jointName := value ]}.
Proof.
  intros Hv j v Hj. apply lookup_singleton_Some in Hj as [_ <-]. done.
Qed.

Lemma singleton_finite (jointName : string) (value : Q) :
  finite_pose {[ jointName := Some value ]}.
Proof.
  intros j Hj. by apply lookup_singleton_Some in Hj as [_ [=]].
Qed.

Lemma j_is_plain : "j" ∉ object_prototype_members.
Proof. by apply (bool_decide_unpack _). Qed.

(** C3 fails as stated. In binary64 the transition from -2.3 to 2.18 at
    smoothness 100 publishes as its last pose, at frame 29 with t = 1,
    -2.3 + (2.18 - -2.3) * 1, which rounds to 2.1800000000000006 and is
    not the 2.18 of the target pose; from -2^1023 to 2^1023 the first
    pose published holds NaN, the difference of the two having overflowed.
    In any arithmetic, from a pose that lacks a joint named "constructor"
    to one that has it, the first pose published holds for that joint not
    0 but a string. *)
Lemma last_frame_is_rounded :
  let o := undisturbed_frames (num := float) 302 low_pose high_pose
             (totalFrames (nlit 100)) 0 0 in
  let o' := undisturbed_frames (num := Q) 302 other_pose member_pose
              (totalFrames 100) 0 0 in
  let o'' := undisturbed_frames (num := float) 302 huge_low huge_high
               (totalFrames (nlit 100)) 0 0 in
  (outcome o = Ret tt ∧
   last (published (events o)) ≫= (.!! "j")
     = Some (Number 0x1.170a3d70a3d72p+1%float) ∧
   over (allJointNames low_pose high_pose) high_pose !! "j"
     = Some 0x1.170a3d70a3d71p+1%float ∧
   (0x1.170a3d70a3d72p+1 =? 0x1.170a3d70a3d71p+1)%float = false ∧
   ∀ final, last (published (events o)) = Some final →
     ¬ same_numbers final (over (allJointNames low_pose high_pose) high_pose)) ∧
  (outcome o' = Ret tt ∧
   head (published (events o')) ≫= (.!! "constructor")
     = Some (Text "constructor") ∧
   over (allJointNames other_pose member_pose) other_pose !! "constructor"
     = Some 0 ∧
   ∀ first, head (published (events o')) = Some first →
     ¬ same_pose first (over (allJointNames other_pose member_pose)
                          other_pose)) ∧
  (outcome o'' = Ret tt ∧
   head (published (events o'')) ≫= (.!! "j") = Some (Number nan) ∧
   huge_low !! "j" = Some (-0x1p+1023)%float).
Proof.
  cbv zeta. split; [|split; [|repeat split; vm_compute; reflexivity]].
  2: split; [vm_compute; reflexivity|];
     split; [vm_compute; reflexivity|];
     split; [vm_compute; reflexivity|].
  2: { intros first Hfirst Hsame. specialize (Hsame "constructor").
       assert (Hhead : head (published (events
                 (undisturbed_frames (num := Q) 302 other_pose member_pose
                    (totalFrames 100) 0 0))) ≫= (.!! "constructor")
               = Some (Text "constructor")) by (vm_compute; reflexivity).
       rewrite Hfirst in Hhead. simpl in Hhead.
       by rewrite Hhead in Hsame. }
  assert (Hlast : last (published (events
             (undisturbed_frames (num := float) 302 low_pose high_pose
                (totalFrames (nlit 100)) 0 0))) ≫= (.!! "j")
          = Some (Number 0x1.170a3d70a3d72p+1%float))
    by (vm_compute; reflexivity).
  assert (Hhigh : over (num := float) (allJointNames low_pose high_pose)
                    high_pose !! "j"
          = Some 0x1.170a3d70a3d71p+1%float) by (vm_compute; reflexivity).
  split; [vm_compute; reflexivity|]. split; [done|]. split; [done|].
  split; [reflexivity|].
  intros final Hfinal Hsame. rewrite Hfinal in Hlast. simpl in Hlast.
  specialize (Hsame "j"). rewrite Hlast, Hhigh in Hsame.
  vm_compute in Hsame. discriminate Hsame.
Qed.

(** C3 between the two poses at smoothness 100: the last frame is the
    target in exact arithmetic; in binary64 the first frame is the start
    pose and the last is start + (end - start) * 1. *)
Lemma smooth_transition_endpoints_witness :
  same_pose (framePose (num := Q) low_pose high_pose (totalFrames 100) 30)
    (over (allJointNames low_pose high_pose) high_pose) ∧
  (∃ first,
     head (published (events (undisturbed_frames (num := float) 302 low_pose
             high_pose (totalFrames (nlit 100)) 0 0))) = Some first ∧
     same_numbers first (over (allJointNames low_pose high_pose) low_pose)) ∧
  last (published (events (undisturbed_frames (num := float) 302 low_pose
          high_pose (totalFrames (nlit 100)) 0 0)))
    = Some (interpolatedPose low_pose high_pose 1%float).
Proof.
  assert (Hs : 0 <= 100 ∧ 100 <= 100) by (split; discriminate).
  assert (Hsf : in_range (nlit 100)) by (split; reflexivity).
  assert (Hplain : ∀ v : Q, plain_names ({[ "j" := v ]} : gmap string Q))
    by (intros v; apply singleton_plain, j_is_plain).
  assert (Hplain_f : ∀ v : float,
            plain_names ({[ "j" := v ]} : gmap string float))
    by (intros v; apply singleton_plain, j_is_plain).
  assert (Hlow : moderate_pose low_pose)
    by (apply singleton_moderate; split; reflexivity).
  assert (Hhigh : moderate_pose high_pose)
    by (apply singleton_moderate; split; reflexivity).
  destruct (smooth_transition_endpoints low_pose high_pose 100
              low_pose high_pose (nlit 100) 302 0 Hs Hsf
              (conj (Hplain _) (Hplain _)) (conj (Hplain_f _) (Hplain_f _))
              (conj Hlow Hhigh) (le_n 302))
    as [(_ & first & final & _ & Hlast & _ & Hfinal) (_ & Hfirst & Hf)].
  split; [|split; [exact Hfirst | exact Hf]].
  assert (Hframe : last (published (events (undisturbed_frames (num := Q) 302
                     low_pose high_pose (totalFrames 100) 0 0)))
            = Some (framePose low_pose high_pose (totalFrames 100) 30))
    by (vm_compute; reflexivity).
  rewrite Hframe in Hlast. injection Hlast as <-. exact Hfinal.
Defined.

(** Where a joint bears the name of a member of [Object.prototype]: a
    pose that lacks the joint reads the member for it, so that the frames
    towards the pose that has it hold a string, the frames away from it
    NaN, and a joint named [__proto__] is in no frame. *)
Remark member_names_are_not_numbers (eased : Q) :
  interpolatedPose other_pose member_pose eased !! "constructor"
    = Some (Text "constructor") ∧
  interpolatedPose member_pose other_pose eased !! "constructor"
    = Some NotANumber ∧
  interpolatedPose other_pose member_pose eased !! "j"
    = Some (Number (1 + (0 - 1) * eased)) ∧
  interpolatedPose ({[ "__proto__" := 1 ]} : gmap string Q)
    {[ "__proto__" := 2 ]} eased = ∅.
Proof.
  split; [|split; [|split]]; try (rewrite interpolatedPose_lookup; reflexivity).
  apply map_eq. intros j. rewrite interpolatedPose_lookup, lookup_empty.
  case_decide as Hin; [|done]. exfalso.
  apply elem_of_difference in Hin as [Hin Hne]. apply Hne.
  unfold allJointNames in Hin. rewrite !dom_singleton_L in Hin.
  apply elem_of_union in Hin as [Hin | Hin]; exact Hin.
Qed.

(** C10 fails as stated. In binary64, between -2^1023 and 2^1023 the
    difference end - start overflows to infinity, and the first frame, whose
    eased factor is 0, publishes NaN; between 3 * 2^970 and the largest
    double the difference is finite, and the last frame, whose eased factor
    is 1, publishes infinity. In any arithmetic, from a pose that has a
    joint named "constructor" to one that lacks it, every frame publishes
    NaN for that joint. *)
Lemma overflowing_frame_is_not_finite :
  let o := undisturbed_frames (num := float) 302 huge_low huge_high
             (totalFrames (nlit 100)) 0 0 in
  let o' := undisturbed_frames (num := float) 302 top_low top_high
              (totalFrames (nlit 100)) 0 0 in
  let o'' := undisturbed_frames (num := option Q) 302 member_pose other_pose
               (totalFrames (Some 100)) 0 0 in
  (is_finite <$> huge_low !! "j" = Some true ∧
   is_finite <$> huge_high !! "j" = Some true ∧
   outcome o = Ret tt ∧
   head (published (events o)) ≫= (.!! "j") = Some (Number nan)) ∧
  (is_finite <$> top_low !! "j" = Some true ∧
   is_finite <$> top_high !! "j" = Some true ∧
   is_finite (0x1.fffffffffffffp+1023 - 0x1.8p+971) = true ∧
   outcome o' = Ret tt ∧
   last (published (events o')) ≫= (.!! "j") = Some (Number infinity)) ∧
  (finite_pose member_pose ∧ finite_pose other_pose ∧
   outcome o'' = Ret tt ∧
   Forall (λ pose, pose !! "constructor" = Some NotANumber)
     (published (events o''))).
Proof.
  cbv zeta. split; [repeat split; vm_compute; reflexivity|].
  split; [repeat split; vm_compute; reflexivity|].
  split; [apply singleton_finite|]. split; [apply singleton_finite|].
  split; [vm_compute; reflexivity|].
  apply (Forall_fmap (λ pose : gmap string (JsValue (option Q)),
                        pose !! "constructor")
           (λ value, value = Some NotANumber)).
  assert (Hall : (λ pose : gmap string (JsValue (option Q)),
                    pose !! "constructor")
                 <$> published (events
                       (undisturbed_frames (num := option Q) 302 member_pose
                          other_pose (totalFrames (Some 100)) 0 0))
                 = replicate 31 (Some NotANumber))
    by (vm_compute; reflexivity).
  rewrite Hall. by apply Forall_replicate.
Qed.

(** C10 at smoothness 100. *)
Lemma frames_never_divide_by_zero_witness :
  (29 <= totalFrames (100 : Q)) ∧
  finite_values (framePose (num := option Q) low_pose high_pose
                   (totalFrames (Some 100)) 30) ∧
  F64_frame_finite (totalFrames (nlit 100)) 29 = true ∧
  Forall finite_numbers
    (published (events (undisturbed_frames (num := float) 302 low_pose
               high_pose (totalFrames (nlit 100)) 0 0))).
Proof.
  assert (Hs : 0 <= 100 ∧ 100 <= 100) by (split; discriminate).
  assert (Hsf : in_range (nlit 100)) by (split; reflexivity).
  assert (Hplain : ∀ v : option Q,
            plain_names ({[ "j" := v ]} : gmap string (option Q)))
    by (intros v; apply singleton_plain, j_is_plain).
  assert (Hplain_f : ∀ v : float,
            plain_names ({[ "j" := v ]} : gmap string float))
    by (intros v; apply singleton_plain, j_is_plain).
  assert (Hlow : moderate_pose low_pose)
    by (apply singleton_moderate; split; reflexivity).
  assert (Hhigh : moderate_pose high_pose)
    by (apply singleton_moderate; split; reflexivity).
  assert (HP : finite_pose (low_pose (num := option Q)))
    by apply singleton_finite.
  assert (HN : finite_pose (high_pose (num := option Q)))
    by apply singleton_finite.
  destruct (frames_never_divide_by_zero 100 (nlit 100) low_pose high_pose
              low_pose high_pose 302 0 Hs Hsf HP HN
              (conj (Hplain _) (Hplain _)) (conj (Hplain_f _) (Hplain_f _))
              (conj Hlow Hhigh) (le_n 302))
    as ((H29 & _) & (Hframes & _) & (_ & _ & _ & Hf64 & _ & _ & Hall)).
  split; [exact H29|]. split; [apply Hframes|]. split; [|exact Hall].
  apply Hf64. vm_compute. split; discriminate.
Defined.

(** * Further properties *)

Lemma filter_filter_comm {A} (p q : A → bool) (l : list A) :
  List.filter p (List.filter q l) = List.filter q (List.filter p l).
Proof.
  induction l as [|a l IH]; [done|]. simpl.
  destruct (q a) eqn:Hq, (p a) eqn:Hp; simpl; rewrite ?Hq, ?Hp, IH; done.
Qed.

Lemma filter_filter_idem {A} (p : A → bool) (l : list A) :
  List.filter p (List.filter p l) = List.filter p l.
Proof.
  induction l as [|a l IH]; [done|]. simpl.
  destruct (p a) eqn:Hp; simpl; rewrite ?Hp, IH; done.
Qed.

Lemma filter_all {A} (p : A → bool) (l : list A) :
  (∀ a, In a l → p a = true) → List.filter p l = l.
Proof.
  induction l as [|a l IH]; [done|]. intros Hall. simpl.
  rewrite (Hall a) by (by left). f_equal. apply IH. intros b Hb.
  apply Hall. by right.
Qed.

(** X1: deleting an edge by id removes exactly the edges of that id and
    nothing else: nodes and focus are as before, no edge gains a dangling
    endpoint, and the notice "Connection removed" is shown whether or not
    an edge had that id (in which case the graph is unchanged). *)
Theorem onDeleteEdge_removes_by_id (edgeId : string) (graph : GraphState) :
  let graph' := (onDeleteEdge edgeId graph).1 in
  (∀ edge, In edge (graph_edges graph') ↔
     In edge (graph_edges graph) ∧ edge_id edge ≠ edgeId) ∧
  graph_nodes graph' = graph_nodes graph ∧
  focusedNodeId graph' = focusedNodeId graph ∧
  (no_dangling graph → no_dangling graph') ∧
  (onDeleteEdge edgeId graph).2 = [ToastSuccess "Connection removed"] ∧
  ((∀ edge, In edge (graph_edges graph) → edge_id edge ≠ edgeId) →
   onDeleteEdge edgeId graph = (graph, [ToastSuccess "Connection removed"])).
Proof.
  assert (Hedges : ∀ edge, In edge (graph_edges (onDeleteEdge edgeId graph).1) ↔
     In edge (graph_edges graph) ∧ edge_id edge ≠ edgeId).
  { intros edge. simpl. rewrite filter_In, negb_true_iff.
    rewrite <- not_true_iff_false, String.eqb_eq. tauto. }
  cbv zeta. split; [done|]. split; [done|]. split; [done|].
  split; [|split; [done|]].
  - intros closed edge Hin. apply Hedges in Hin as [Hin _].
    exact (closed edge Hin).
  - intros Hnone. unfold onDeleteEdge. rewrite filter_all; [by destruct graph|].
    intros edge Hin. apply negb_true_iff, not_true_iff_false.
    rewrite String.eqb_eq. by apply Hnone.
Qed.

(** X2: node deletion is idempotent, two deletions commute, and deleting
    an id that no node bears, no edge touches and the focus is not on
    leaves the graph as it is. *)
Theorem handleDeleteNode_algebra (a b : string) (graph : GraphState) :
  handleDeleteNode a (handleDeleteNode a graph) = handleDeleteNode a graph ∧
  handleDeleteNode a (handleDeleteNode b graph)
    = handleDeleteNode b (handleDeleteNode a graph) ∧
  ((∀ n, In n (graph_nodes graph) → node_id n ≠ a) →
   (∀ edge, In edge (graph_edges graph) → source edge ≠ a ∧ target edge ≠ a) →
   focusedNodeId graph ≠ Some a →
   handleDeleteNode a graph = graph).
Proof.
  split; [|split].
  - unfold handleDeleteNode; simpl. rewrite !filter_filter_idem. f_equal.
    destruct (focusedNodeId graph) as [focused|]; [|done].
    destruct (String.eqb_spec focused a) as [->|Hne]; [done|].
    by apply String.eqb_neq in Hne as ->.
  - unfold handleDeleteNode; simpl. f_equal.
    + apply filter_filter_comm.
    + apply filter_filter_comm.
    + destruct (focusedNodeId graph) as [focused|]; [|done].
      destruct (focused =? a)%string eqn:Ha, (focused =? b)%string eqn:Hb;
        simpl; by rewrite ?Ha, ?Hb.
  - intros Hnodes Hedges Hfocus. unfold handleDeleteNode.
    rewrite !filter_all.
    + destruct graph as [ns es [focused|]]; simpl in *; [|done].
      destruct (String.eqb_spec focused a); [congruence | done].
    + intros edge Hin. destruct (Hedges edge Hin) as [Hs Ht].
      apply String.eqb_neq in Hs as ->. by apply String.eqb_neq in Ht as ->.
    + intros n Hin. specialize (Hnodes n Hin).
      by apply String.eqb_neq in Hnodes as ->.
Qed.

Lemma startNodes_In nodes edges node :
  In node (startNodes nodes edges) ↔
  In node nodes ∧ ∀ edge, In edge edges → target edge ≠ node_id node.
Proof.
  unfold startNodes. rewrite filter_In, negb_true_iff. split.
  - intros [Hin Hex]. split; [done|]. intros edge He Heq.
    assert (existsb (λ edge, (target edge =? node_id node)%string) edges = true)
      as Hyes; [|congruence].
    apply existsb_exists. exists edge. by rewrite String.eqb_eq.
  - intros [Hin Hall]. split; [done|]. apply not_true_is_false.
    intros (edge & He & Heq)%existsb_exists. apply String.eqb_eq in Heq.
    by apply (Hall edge).
Qed.

(** X3: a deletion never takes the start status from a node that stays:
    a start node other than the deleted one is a start node of the graph
    after [handleDeleteNode], and every start node is one after
    [onDeleteEdge]; a node all of whose incoming edges come from the deleted
    node, or bear the deleted id, becomes a start node. *)
Theorem deletions_keep_start_nodes (nodeId edgeId : string)
    (graph : GraphState) (node : Node) :
  (In node (graph_startNodes graph) → node_id node ≠ nodeId →
   In node (graph_startNodes (handleDeleteNode nodeId graph))) ∧
  (In node (graph_startNodes graph) →
   In node (graph_startNodes (onDeleteEdge edgeId graph).1)) ∧
  (In node (graph_nodes graph) → node_id node ≠ nodeId →
   (∀ edge, In edge (graph_edges graph) → target edge = node_id node →
      source edge = nodeId) →
   In node (graph_startNodes (handleDeleteNode nodeId graph))) ∧
  (In node (graph_nodes graph) →
   (∀ edge, In edge (graph_edges graph) → target edge = node_id node →
      edge_id edge = edgeId) →
   In node (graph_startNodes (onDeleteEdge edgeId graph).1)).
Proof.
  unfold graph_startNodes. rewrite !startNodes_In.
  split; [|split; [|split]].
  - intros [Hin Hall] Hne. split.
    + apply handleDeleteNode_nodes. by split.
    + intros edge He. apply handleDeleteNode_edges in He as (He & _ & _).
      by apply Hall.
  - intros [Hin Hall]. split; [done|]. simpl. intros edge He.
    apply filter_In in He as [He _]. by apply Hall.
  - intros Hin Hne Hall. split.
    + apply handleDeleteNode_nodes. by split.
    + intros edge He Heq. apply handleDeleteNode_edges in He as (He & Hs & _).
      by apply Hs, Hall.
  - intros Hin Hall. split; [done|]. simpl. intros edge He Heq.
    apply filter_In in He as [He Hid]. apply negb_true_iff in Hid.
    apply String.eqb_neq in Hid. by apply Hid, Hall.
Qed.

Lemma deletions_keep_start_nodes_witness :
  In {| node_id := "a"; node_type := joint |}
    (graph_startNodes (handleDeleteNode "b" focused_graph)) ∧
  In {| node_id := "b"; node_type := joint |}
    (graph_startNodes (handleDeleteNode "t" focused_graph)).
Proof.
  split.
  - destruct (deletions_keep_start_nodes "b" "" focused_graph
                {| node_id := "a"; node_type := joint |}) as (Hkeep & _).
    apply Hkeep; [vm_compute; auto | done].
  - destruct (deletions_keep_start_nodes "t" "" focused_graph
                {| node_id := "b"; node_type := joint |})
      as (_ & _ & Hnew & _).
    apply Hnew; [vm_compute; auto | done |].
    intros edge [<- | [<- | []]]; simpl; by intros [=].
Defined.

Section SequencerWalk.
Context {num : Type} `{JsNumber num}.
Context (nodes : list Node) (edges : list Edge).
Context (nodeStates : gmap string (NodeState num)).
Context (cancelAt : option Q).
Context (faulty : call num → bool).

Local Abbreviation frame_loop := (frame_loop cancelAt faulty).
Local Abbreviation pose_step := (pose_step faulty).
Local Abbreviation transition_step :=
  (transition_step edges nodeStates cancelAt faulty).
Local Abbreviation transition_rest := (transition_rest cancelAt faulty).
Local Abbreviation node_step :=
  (node_step edges nodeStates cancelAt faulty).
Local Abbreviation loop_body :=
  (loop_body nodes edges nodeStates cancelAt faulty).
Local Abbreviation while_loop :=
  (while_loop nodes edges nodeStates cancelAt faulty).
Local Abbreviation runAnimation :=
  (runAnimation nodes edges nodeStates cancelAt faulty).
Local Abbreviation run := (run nodes edges nodeStates cancelAt faulty).
Local Abbreviation currentNode := (currentNode nodes).
Local Abbreviation first_locals := (first_locals (num := num)).
Local Abbreviation cancelled := (cancelled cancelAt).

Lemma activated_app (l1 l2 : list (Q * event num)) :
  activated (l1 ++ l2) = activated l1 ++ activated l2.
Proof. apply omap_app. Qed.

Lemma frame_loop_activates_nothing fuel previous next frames frame t :
  activated (events (frame_loop fuel previous next frames frame t)) = [].
Proof.
  revert frame t. induction fuel as [|fuel IH]; intros frame t; [done|].
  rewrite frame_loop_S. destruct (_ && _); [|done]. simpl.
  destruct (faulty _); [done|]. simpl. apply IH.
Qed.

Lemma pose_step_keeps_node joints locals t :
  keeps_node locals (pose_step joints locals t).
Proof.
  rewrite pose_step_eq. simpl.
  destruct (skipNextJointApplication locals); [by split; [|intros ? [= <-]]|].
  destruct (faulty _); split; try done. by intros ? [= <-].
Qed.

Lemma transition_rest_keeps_node fuel trans locals nextNodeState t :
  keeps_node locals (transition_rest fuel trans locals nextNodeState t).
Proof.
  unfold transition_rest.
  destruct (smooth trans), (previousJointPose locals) as [previous|],
    (pose_of_state nextNodeState) as [next|];
    try (split; [done | by intros ? [= <-]]).
  split; [apply frame_loop_activates_nothing|].
  intros locals'. unfold returning; simpl.
  destruct (outcome _); [|done..]. by intros [= <-].
Qed.

Lemma node_step_keeps_node fuel nodeState locals t :
  keeps_node locals (node_step fuel nodeState locals t).
Proof.
  unfold node_step.
  destruct (ns_type nodeState), (ns_joints nodeState),
    (ns_transition nodeState);
    try apply pose_step_keeps_node;
    try (split; [done | by intros ? [= <-]]);
    rewrite transition_step_eq;
    (destruct (nextEdge _ _);
       [destruct (faulty _); [by split|]|]; apply transition_rest_keeps_node).
Qed.

(** The loop body activates its node, if at all, and hands over at the
    successor. *)
Lemma loop_body_walks fuel locals t :
  let o := loop_body fuel locals t in
  (activated (events o) = [currentNodeId locals] ∨
   activated (events o) = [] ∧ outcome o = Throw) ∧
  ∀ locals', outcome o = Ret (Continue locals') →
    currentNodeId locals' = successor edges (currentNodeId locals).
Proof.
  cbv zeta. rewrite loop_body_eq.
  destruct (faulty (CallSetActiveNodeId _)); [by split; [right|]|].
  destruct (faulty (CallGetNodeState _)); [by split; [left|]|].
  destruct (currentNode locals), (nodeStates !! currentNodeId locals)
    as [nodeState|]; try (by split; [left|]).
  destruct (node_step_keeps_node fuel nodeState locals t) as [Hnone Hkeep].
  split.
  - left. simpl. by rewrite Hnone.
  - intros locals' Hret. simpl in Hret.
    destruct (outcome (node_step _ _ _ _)) as [locals1| |]; [|done..].
    injection Hret as <-. specialize (Hkeep locals1 eq_refl).
    unfold advance, successor; simpl. by rewrite Hkeep.
Qed.

Lemma while_loop_route fuel locals t :
  activated (events (while_loop fuel locals t))
    `prefix_of` route edges fuel (currentNodeId locals).
Proof.
  revert locals t. induction fuel as [|fuel IH]; intros locals t;
    [by exists []|].
  rewrite while_loop_S. simpl.
  destruct (String.eqb_spec (currentNodeId locals) "") as [Hempty|Hid];
    simpl; [by exists []|].
  destruct (cancelled t); simpl; [apply prefix_nil|].
  destruct (loop_body_walks fuel locals t) as [Hact Hnext].
  destruct (outcome (loop_body fuel locals t)) as [[|locals']| |] eqn:Hout;
    simpl.
  - destruct Hact as [-> | [-> _]]; [|apply prefix_nil].
    apply prefix_cons, prefix_nil.
  - destruct Hact as [Hact | [_ [=]]].
    rewrite activated_app, Hact, <- (Hnext locals' eq_refl). simpl.
    apply prefix_cons, IH.
  - destruct Hact as [-> | [-> _]]; [|apply prefix_nil].
    apply prefix_cons, prefix_nil.
  - destruct Hact as [-> | [-> _]]; [|apply prefix_nil].
    apply prefix_cons, prefix_nil.
Qed.

Lemma run_activated fuel start rest :
  startNodes nodes edges = start :: rest →
  activated (events (run fuel false))
    = activated (events (while_loop fuel (first_locals start) 0)).
Proof.
  intros Hstart.
  destruct (run_started_events nodes edges nodeStates cancelAt faulty
              fuel start rest Hstart) as (tail & -> & Htail).
  rewrite !activated_app. simpl.
  destruct Htail as [-> | [-> | ->]]; simpl; by rewrite app_nil_r.
Qed.

Lemma route_In steps nodeId i :
  In i (route edges steps nodeId) →
  i = nodeId ∨ ∃ edge, In edge edges ∧ target edge = i.
Proof.
  revert nodeId. induction steps as [|steps IH]; intros nodeId; [done|].
  simpl. destruct (nodeId =? "")%string; [done|].
  intros [<- | Hin]; [by left|]. right.
  destruct (IH _ Hin) as [-> | Hedge]; [|done].
  unfold successor in *. destruct (nextEdge edges nodeId) as [edge|] eqn:He.
  - exists edge. split; [|done]. unfold nextEdge in He.
    by apply find_some in He as [He _].
  - clear IH. exfalso. destruct steps; simpl in Hin; done.
Qed.

Lemma run_activated_In fuel isAnimating i :
  In i (activated (events (run fuel isAnimating))) →
  (∃ start rest, startNodes nodes edges = start :: rest ∧ i = node_id start) ∨
  (∃ edge, In edge edges ∧ target edge = i).
Proof.
  destruct isAnimating; [done|].
  destruct (startNodes nodes edges) as [|start rest] eqn:Hstart.
  { unfold run. by rewrite (runAnimation_no_start _ _ _ _ _ fuel 0 Hstart). }
  rewrite (run_activated fuel start rest Hstart). intros Hin.
  destruct (while_loop_route fuel (first_locals start) 0) as [more Hroute].
  destruct (route_In fuel (node_id start) i) as [-> | Hedge].
  - simpl in Hroute. rewrite Hroute. apply in_or_app. by left.
  - left. by exists start, rest.
  - by right.
Qed.

(** X4: the nodes a run activates are, in order, the first start node and
    then, each time, the target of the first edge leaving the node before:
    the activations are an initial segment of that route, whatever the
    poses, the timing, a cancellation or a fault; a run invoked while
    another is active, or without start node, activates nothing. *)
Theorem playback_follows_first_edges (fuel : nat) (isAnimating : bool) :
  match isAnimating, startNodes nodes edges with
  | false, start :: _ =>
      activated (events (run fuel isAnimating))
        `prefix_of` route edges fuel (node_id start)
  | _, _ => activated (events (run fuel isAnimating)) = []
  end.
Proof.
  destruct isAnimating; [done|].
  destruct (startNodes nodes edges) as [|start rest] eqn:Hstart.
  - unfold run. by rewrite (runAnimation_no_start _ _ _ _ _ fuel 0 Hstart).
  - rewrite (run_activated fuel start rest Hstart).
    apply (while_loop_route fuel (first_locals start) 0).
Qed.

(** X5: the start node a run plays is the first node of the list that has
    no incoming edge: every node before it in the list is the target of
    some edge, and it is not. *)
Theorem first_start_node_is_first_in_list (start : Node) (rest : list Node)
    (Hstart : startNodes nodes edges = start :: rest) :
  ∃ before after,
    nodes = before ++ start :: after ∧
    (∀ node, In node before →
       ∃ edge, In edge edges ∧ target edge = node_id node) ∧
    (∀ edge, In edge edges → target edge ≠ node_id start) ∧
    rest = startNodes after edges.
Proof.
  revert Hstart. unfold startNodes.
  induction nodes as [|node l IH]; [done|]. simpl.
  destruct (existsb _ edges) eqn:Hex; simpl.
  - intros Hstart. destruct (IH Hstart) as (before & after & -> & Hbefore & Hnot & ->).
    exists (node :: before), after. split; [done|]. split; [|done].
    intros n [<- | Hn]; [|by apply Hbefore].
    apply existsb_exists in Hex as (edge & Hin & Heq).
    exists edge. by rewrite String.eqb_eq in Heq.
  - intros [= <- <-]. exists [], l. split; [done|]. split; [by intros ? []|].
    split; [|done]. intros edge Hin Heq.
    assert (existsb (λ edge, (target edge =? node_id node)%string) edges = true)
      as Hyes; [|congruence].
    apply existsb_exists. exists edge. by rewrite String.eqb_eq.
Qed.

(** X6: of several start nodes only the first is played: a start node whose
    id is not that of the first one is never activated. *)
Theorem other_start_nodes_never_activated (fuel : nat) (isAnimating : bool)
    (start other : Node) (rest : list Node)
    (Hstart : startNodes nodes edges = start :: rest)
    (Hother : In other rest) (Hid : node_id other ≠ node_id start) :
  ¬ In (node_id other) (activated (events (run fuel isAnimating))).
Proof.
  intros [(start' & rest' & Hstart' & Heq) | (edge & Hedge & Htarget)]
    %run_activated_In.
  - rewrite Hstart in Hstart'. by injection Hstart' as <- <-.
  - assert (Hin : In other (startNodes nodes edges))
      by (rewrite Hstart; by right).
    apply startNodes_In in Hin as [_ Hnone]. by apply (Hnone edge).
Qed.

End SequencerWalk.

(** X7: a deleted node is never played again: on the graph that
    [handleDeleteNode] leaves, no run activates the deleted id, whatever
    the store still holds for it. *)
Theorem deleted_node_never_activated {num : Type} `{JsNumber num}
    (nodeId : string) (graph : GraphState)
    (nodeStates : gmap string (NodeState num)) (cancelAt : option Q)
    (faulty : call num → bool) (fuel : nat) (isAnimating : bool) :
  let graph' := handleDeleteNode nodeId graph in
  ¬ In nodeId (activated (events
      (run (graph_nodes graph') (graph_edges graph') nodeStates cancelAt
         faulty fuel isAnimating))).
Proof.
  intros graph'
    [(start & rest & Hstart & Heq) | (edge & Hedge & Htarget)]%run_activated_In.
  - assert (Hin : In start (startNodes (graph_nodes graph') (graph_edges graph')))
      by (rewrite Hstart; by left).
    apply startNodes_In in Hin as [Hin _].
    apply handleDeleteNode_nodes in Hin as [_ Hne]. by apply Hne.
  - apply handleDeleteNode_edges in Hedge as (_ & _ & Hne). by apply Hne.
Qed.

(** On the two chains, "c" is a start node and is never activated. *)
Lemma other_start_nodes_never_activated_witness :
  startNodes two_chains.1 two_chains.2
    = [ {| node_id := "a"; node_type := joint |};
        {| node_id := "c"; node_type := joint |} ] ∧
  ¬ In "c" (activated (events
      (run (num := Q) two_chains.1 two_chains.2 chain_states None no_fault
         20 false))).
Proof.
  split; [reflexivity|].
  apply (other_start_nodes_never_activated (num := Q) two_chains.1
           two_chains.2 chain_states None no_fault 20 false
           {| node_id := "a"; node_type := joint |}
           {| node_id := "c"; node_type := joint |}
           [ {| node_id := "c"; node_type := joint |} ]).
  - reflexivity.
  - by left.
  - done.
Defined.

(** On the two chains "a" comes first. *)
Lemma first_start_node_is_first_in_list_witness :
  ∃ before after, two_chains.1
    = before ++ {| node_id := "a"; node_type := joint |} :: after ∧
    startNodes after two_chains.2 = [ {| node_id := "c"; node_type := joint |} ].
Proof.
  destruct (first_start_node_is_first_in_list two_chains.1 two_chains.2
              {| node_id := "a"; node_type := joint |}
              [ {| node_id := "c"; node_type := joint |} ] eq_refl)
    as (before & after & Hnodes & _ & _ & Hrest).
  by exists before, after.
Defined.

Section Faultless.
Context {num : Type} `{JsNumber num}.
Context (nodes : list Node) (edges : list Edge).
Context (nodeStates : gmap string (NodeState num)).
Context (cancelAt : option Q).
Context (faulty : call num → bool).
Context (faultless : ∀ c, faulty c = false).

Local Abbreviation frame_loop := (frame_loop cancelAt faulty).
Local Abbreviation node_step := (node_step edges nodeStates cancelAt faulty).
Local Abbreviation loop_body :=
  (loop_body nodes edges nodeStates cancelAt faulty).
Local Abbreviation while_loop :=
  (while_loop nodes edges nodeStates cancelAt faulty).

Lemma frame_loop_no_throw fuel previous next frames frame t :
  outcome (frame_loop fuel previous next frames frame t) ≠ Throw.
Proof using faultless.
  revert frame t. induction fuel as [|fuel IH]; intros frame t; [done|].
  rewrite frame_loop_S. destruct (_ && _); [|done]. simpl.
  rewrite faultless. apply IH.
Qed.

Lemma node_step_no_throw fuel nodeState locals t :
  outcome (node_step fuel nodeState locals t) ≠ Throw.
Proof using faultless.
  unfold node_step.
  destruct (ns_type nodeState), (ns_joints nodeState) as [joints|],
    (ns_transition nodeState) as [trans|]; try done;
    try (rewrite pose_step_eq; simpl; rewrite faultless;
         by destruct (skipNextJointApplication locals)).
  all: rewrite transition_step_eq;
    assert (Hrest : ∀ nextNodeState,
      outcome (transition_rest cancelAt faulty fuel trans locals
                 nextNodeState t) ≠ Throw);
    [|destruct (nextEdge _ _); [rewrite faultless|]; apply Hrest].
  all: intros nextNodeState; unfold transition_rest;
    destruct (smooth trans), (previousJointPose locals) as [previous|],
      (pose_of_state nextNodeState) as [next|]; try done;
    unfold returning; simpl;
    pose proof (frame_loop_no_throw fuel previous next
                  (totalFrames (smoothness trans)) 0 t) as Hframes;
    by destruct (outcome _).
Qed.

Lemma loop_body_no_throw fuel locals t :
  outcome (loop_body fuel locals t) ≠ Throw.
Proof using faultless.
  rewrite loop_body_eq, !faultless.
  destruct (currentNode nodes locals),
    (nodeStates !! currentNodeId locals) as [nodeState|]; try done.
  pose proof (node_step_no_throw fuel nodeState locals t) as Hstep.
  unfold after, mapped. cbn [outcome]. by destruct (outcome _).
Qed.

Lemma while_loop_no_throw fuel locals t :
  outcome (while_loop fuel locals t) ≠ Throw.
Proof using faultless.
  revert locals t. induction fuel as [|fuel IH]; intros locals t; [done|].
  rewrite while_loop_S. destruct (_ && _); [|done]. cbv zeta.
  pose proof (loop_body_no_throw fuel locals t) as Hbody.
  destruct (outcome (loop_body fuel locals t)) as [[|locals']| |];
    try done. apply IH.
Qed.

End Faultless.

Section Caught.
Context {num : Type} `{JsNumber num}.
Context (nodes : list Node) (edges : list Edge).
Context (nodeStates : gmap string (NodeState num)).
Context (cancelAt : option Q).
Context (faulty : call num → bool).

Local Abbreviation run := (run nodes edges nodeStates cancelAt faulty).

(** X8: a fault never leaves the run: whatever a collaborator throws
    inside the loop is caught, so that the run does not end in an
    exception; it is then logged and reported, once each, and followed by
    the cleanup and nothing else. The error is logged once and reported
    once exactly when the loop has thrown, as it does when the first call
    of the run, the activation of the start node, throws. A run in which
    no call throws reports no error. *)
Theorem faults_are_reported_once (fuel : nat) (isAnimating : bool) :
  let o := run fuel isAnimating in
  outcome o ≠ Throw ∧
  occurrences logs_error (events o) = occurrences toasts_error (events o) ∧
  (occurrences logs_error (events o) = 0%nat ∨
   occurrences logs_error (events o) = 1%nat ∧
   ∃ before t, events o = before ++ caught t ++ cleanup t ∧
     occurrences logs_error before = 0%nat) ∧
  ((∀ c, faulty c = false) → occurrences logs_error (events o) = 0%nat) ∧
  (∀ start rest, isAnimating = false →
     startNodes nodes edges = start :: rest →
     (outcome (while_loop nodes edges nodeStates cancelAt faulty fuel
                 (first_locals start) 0) = Throw
      ↔ occurrences logs_error (events o) = 1%nat ∧
        occurrences toasts_error (events o) = 1%nat) ∧
     (faulty (CallSetActiveNodeId (node_id start)) = true →
      node_id start ≠ "" → cancelled cancelAt 0 = false → fuel ≠ 0%nat →
      occurrences logs_error (events o) = 1%nat ∧
      occurrences toasts_error (events o) = 1%nat)).
Proof.
  cbv zeta. unfold run. destruct isAnimating.
  { split; [done|]. split; [done|]. split; [by left|]. split; [done|].
    by intros start rest [=]. }
  destruct (startNodes nodes edges) as [|start rest] eqn:Hstart.
  { rewrite (runAnimation_no_start _ _ _ _ _ fuel 0 Hstart).
    split; [done|]. split; [done|]. split; [by left|]. split; [done|].
    by intros start rest _ [=]. }
  rewrite (runAnimation_started _ _ _ _ _ fuel start rest 0 Hstart).
  pose proof (while_loop_emits nodes edges nodeStates cancelAt faulty fuel
                (first_locals start) 0) as Hbody.
  assert (Hlogs : occurrences logs_error
            (events (while_loop nodes edges nodeStates cancelAt faulty fuel
                       (first_locals start) 0)) = 0%nat).
  { apply (occurrences_loop cancelAt _ _ Hbody). by intros [| |[]| | | |]. }
  assert (Htoasts : occurrences toasts_error
            (events (while_loop nodes edges nodeStates cancelAt faulty fuel
                       (first_locals start) 0)) = 0%nat).
  { apply (occurrences_loop cancelAt _ _ Hbody). by intros [| |[]| | | |]. }
  assert (Hfirst : faulty (CallSetActiveNodeId (node_id start)) = true →
            node_id start ≠ "" → cancelled cancelAt 0 = false →
            fuel ≠ 0%nat →
            outcome (while_loop nodes edges nodeStates cancelAt faulty fuel
                       (first_locals start) 0) = Throw).
  { intros Hfault Hne Hgo Hfuel. destruct fuel as [|fuel']; [done|].
    rewrite while_loop_S, loop_body_eq.
    change (currentNodeId (first_locals start)) with (node_id start).
    apply String.eqb_neq in Hne. rewrite Hne, Hgo, Hfault. done. }
  cbv zeta.
  destruct (outcome (while_loop _ _ _ _ _ fuel (first_locals start) 0))
    eqn:Hout; cbn [events outcome].
  - rewrite !occurrences_app, Hlogs, Htoasts.
    split; [done|]. split; [done|]. split; [by left|]. split; [done|].
    intros start' rest' _ [= <- <-]. rewrite Hout.
    split; [split; [done | by intros [? ?]]|].
    intros Hfault Hne Hgo Hfuel. by specialize (Hfirst Hfault Hne Hgo Hfuel).
  - rewrite !occurrences_app, Hlogs, Htoasts.
    split; [done|]. split; [done|]. split; [|split].
    + right. split; [done|]. eexists _, _. rewrite app_assoc.
      split; [done|]. by rewrite occurrences_app, Hlogs.
    + intros Hfaultless.
      by pose proof (while_loop_no_throw nodes edges nodeStates cancelAt faulty
                       Hfaultless fuel (first_locals start) 0).
    + intros start' rest' _ [= <- <-]. by rewrite Hout.
  - rewrite !occurrences_app, Hlogs, Htoasts.
    split; [done|]. split; [done|]. split; [by left|]. split; [done|].
    intros start' rest' _ [= <- <-]. rewrite Hout.
    split; [split; [done | by intros [? ?]]|].
    intros Hfault Hne Hgo Hfuel. by specialize (Hfirst Hfault Hne Hgo Hfuel).
Qed.

End Caught.

(** With every publication throwing, the chain logs and reports one
    error. *)
Lemma faults_are_reported_once_witness :
  occurrences logs_error
    (events (chain_run (num := float) None publish_fault 100)) = 1%nat ∧
  occurrences logs_error
    (events (chain_run (num := float) None no_fault 100)) = 0%nat ∧
  occurrences toasts_error
    (events (chain_run (num := float) None activation_fault 100)) = 1%nat.
Proof.
  split; [vm_compute; reflexivity|]. split.
  - destruct (faults_are_reported_once (num := float) sample_graph.1
                sample_graph.2 chain_states None no_fault 100 false)
      as (_ & _ & _ & Hnone & _).
    by apply Hnone.
  - destruct (faults_are_reported_once (num := float) sample_graph.1
                sample_graph.2 chain_states None activation_fault 100 false)
      as (_ & _ & _ & _ & Hthrown).
    destruct (Hthrown {| node_id := "a"; node_type := joint |}
                [] eq_refl eq_refl) as [_ Hfirst].
    by apply Hfirst.
Defined.

Section NeverReturns.
Context {num : Type} `{JsNumber num}.
Context (nodes : list Node) (edges : list Edge).
Context (nodeStates : gmap string (NodeState num)).
Context (faulty : call num → bool).
Context (faultless : ∀ c, faulty c = false).

Local Abbreviation node_step := (node_step edges nodeStates None faulty).
Local Abbreviation loop_body := (loop_body nodes edges nodeStates None faulty).
Local Abbreviation while_loop :=
  (while_loop nodes edges nodeStates None faulty).

Lemma while_loop_never_returns (live : string → Prop) :
  (∀ nodeId, live nodeId →
     nodeId ≠ "" ∧
     is_Some (List.find (λ n, (node_id n =? nodeId)%string) nodes) ∧
     is_Some (nodeStates !! nodeId) ∧ live (successor edges nodeId)) →
  ∀ fuel locals t, live (currentNodeId locals) →
    outcome (while_loop fuel locals t) = Pending.
Proof using faultless.
  intros Hlive. induction fuel as [|fuel IH]; intros locals t Hid; [done|].
  destruct (Hlive _ Hid) as (Hne & [node Hnode] & [nodeState Hstate] & Hnext).
  rewrite while_loop_S. apply String.eqb_neq in Hne as ->. simpl.
  pose proof (loop_body_walks nodes edges nodeStates None faulty fuel locals t)
    as [_ Hsucc].
  rewrite loop_body_eq in *. rewrite !faultless in *.
  unfold currentNode in *. rewrite Hnode, Hstate in *. simpl in *.
  pose proof (node_step_no_throw edges nodeStates None faulty faultless fuel
                nodeState locals t) as Hthrow.
  destruct (outcome (node_step fuel nodeState locals t)) as [locals'| |];
    [|done..].
  simpl. apply IH. by rewrite (Hsucc _ eq_refl).
Qed.

(** X9: a run that gets onto a cycle never returns: if every node met from
    the first start node on is in the graph, has a state and an outgoing
    edge, then without cancellation and without fault the run is in flight
    after any number of steps. *)
Theorem cycle_plays_forever (live : string → Prop) (start : Node)
    (rest : list Node)
    (Hstart : startNodes nodes edges = start :: rest)
    (Hfirst : live (node_id start))
    (Hlive : ∀ nodeId, live nodeId →
       nodeId ≠ "" ∧
       is_Some (List.find (λ n, (node_id n =? nodeId)%string) nodes) ∧
       is_Some (nodeStates !! nodeId) ∧ live (successor edges nodeId)) :
  ∀ fuel, outcome (run nodes edges nodeStates None faulty fuel false) = Pending.
Proof using faultless.
  intros fuel. unfold run.
  rewrite (runAnimation_started _ _ _ _ _ fuel start rest 0 Hstart).
  by rewrite (while_loop_never_returns live Hlive fuel (first_locals start) 0).
Qed.

End NeverReturns.

(** On the lasso the run is in flight after 1000 steps. *)
Lemma cycle_plays_forever_witness :
  outcome (run (num := Q) lasso_graph.1 lasso_graph.2 chain_states None
             no_fault 1000 false) = Pending.
Proof.
  apply (cycle_plays_forever (num := Q) lasso_graph.1 lasso_graph.2
           chain_states no_fault (λ _, eq_refl)
           (λ nodeId, nodeId = "a" ∨ nodeId = "t" ∨ nodeId = "b")
           {| node_id := "a"; node_type := joint |} []).
  - reflexivity.
  - by left.
  - intros nodeId [-> | [-> | ->]];
      (split; [done|]); (split; [by eexists|]); (split; [by eexists|]);
      vm_compute; auto.
Defined.

(** ** Runs that return *)

Lemma frame_wait_nonneg {num} `{JsNumber num} : 0 <= frame_wait (num := num).
Proof. apply Q.le_max_l. Qed.

Lemma longest_step_bounds {num} `{JsNumber num} :
  1000 <= longest_step (num := num) ∧
  301 * frame_wait (num := num) <= longest_step (num := num).
Proof. split; [apply Q.le_max_l | apply Q.le_max_r]. Qed.

Lemma F64_frames_end (s : float) : in_range s → frames_end (totalFrames s).
Proof.
  intros (n & Hn & _ & _ & _ & _ & Hout)%F64_frames.
  exists (n + 1)%Z. split; [lia | done].
Qed.

Lemma in_range_transitions_end (nodeStates : gmap string (NodeState float)) :
  smoothness_in_range nodeStates → transitions_end nodeStates.
Proof.
  intros Hrange nodeId nodeState trans Hstate Htrans.
  apply F64_frames_end. by apply (Hrange nodeId nodeState trans).
Qed.

Section Returns.
Context {num : Type} `{JsNumber num}.
Context (nodes : list Node) (edges : list Edge).
Context (nodeStates : gmap string (NodeState num)).
Context (cancelAt : option Q).
Context (faulty : call num → bool).

Local Abbreviation frame_loop := (frame_loop cancelAt faulty).
Local Abbreviation node_step := (node_step edges nodeStates cancelAt faulty).
Local Abbreviation loop_body :=
  (loop_body nodes edges nodeStates cancelAt faulty).
Local Abbreviation while_loop :=
  (while_loop nodes edges nodeStates cancelAt faulty).

Lemma frame_loop_within (n : Z) previous next frames fuel frame t :
  (nlit (inject_Z n) <=? frames)%js = false →
  (0 ≤ frame ≤ n)%Z → (Z.to_nat (n - frame) < fuel)%nat →
  within t (inject_Z (n - frame) * frame_wait (num := num))
    (frame_loop fuel previous next frames frame t).
Proof.
  intros Hend. pose proof (frame_wait_nonneg (num := num)) as Hft.
  revert frame t. induction fuel as [|fuel IH]; intros frame t Hframe Hfuel;
    [lia|].
  assert (Hmax : 0 <= inject_Z (n - frame) * frame_wait (num := num)).
  { apply Qmult_le_0_compat; [|done].
    change 0 with (inject_Z 0). rewrite <- Zle_Qle. lia. }
  rewrite frame_loop_S.
  destruct (_ && _) eqn:Hgo; [|split; [done|]; split; simpl; lra].
  apply andb_true_iff in Hgo as [Hin _]. cbv zeta.
  destruct (faulty _); [split; [done|]; split; simpl; lra|].
  assert (Hlt : (frame < n)%Z).
  { destruct (Z.eq_dec frame n) as [-> | Hne]; [congruence | lia]. }
  destruct (IH (frame + 1)%Z (Qred (t + timer (nmillis (frameTime : num)))))
    as (Hout & Hlo & Hhi); [lia | lia |].
  split; [exact Hout|]. simpl.
  pose proof (Qred_correct (t + timer (nmillis (frameTime : num)))) as Hred.
  replace (n - frame)%Z with ((n - (frame + 1)) + 1)%Z by lia.
  rewrite inject_Z_plus.
  change (inject_Z 1) with 1.
  unfold frame_wait in *.
  set (t' := Qred _) in *. set (ft := timer _) in *.
  set (m := inject_Z (n - _)) in *. set (x := now _) in *.
  clearbody t' ft m x. split; lra.
Qed.

Lemma node_step_within fuel nodeState locals t :
  (∀ trans, ns_transition nodeState = Some trans →
     frames_end (totalFrames (smoothness trans))) →
  (302 ≤ fuel)%nat →
  within t (longest_step (num := num)) (node_step fuel nodeState locals t).
Proof.
  intros Hsmooth Hfuel.
  pose proof (longest_step_bounds (num := num)) as [Hlong Hlong'].
  pose proof (frame_wait_nonneg (num := num)) as Hft.
  assert (T100 : timer 100 == 100) by reflexivity.
  assert (T1000 : timer 1000 == 1000) by reflexivity.
  unfold node_step.
  destruct (ns_type nodeState), (ns_joints nodeState) as [joints|],
    (ns_transition nodeState) as [trans|];
    try (split; [done|]; split; simpl; lra);
    try (rewrite pose_step_eq; simpl;
         destruct (skipNextJointApplication locals);
           [|destruct (faulty _)]; (split; [done|]); simpl;
         rewrite ?Qred_correct; split; lra).
  all: rewrite transition_step_eq;
    assert (Hrest : ∀ nextNodeState,
      within t (longest_step (num := num))
        (transition_rest cancelAt faulty fuel trans locals nextNodeState t));
    [|destruct (nextEdge _ _); [destruct (faulty _)|]; try apply Hrest;
      split; [done|]; split; simpl; lra].
  all: intros nextNodeState; unfold transition_rest;
    destruct (smooth trans), (previousJointPose locals) as [previous|],
      (pose_of_state nextNodeState) as [next|];
    try (split; [done|]; simpl; rewrite ?Qred_correct; split; lra);
    destruct (Hsmooth trans eq_refl) as (n & Hn & Hend);
    destruct (frame_loop_within n previous next _ fuel 0 t Hend)
      as (Hout & Hlo & Hhi); [lia | lia |];
    (split; [unfold returning; simpl; by destruct (outcome _)|]); simpl;
    (split; [done|]);
    assert (inject_Z (n - 0) <= 301)
      by (change 301 with (inject_Z 301); rewrite <- Zle_Qle; lia);
    assert (0 <= inject_Z (n - 0))
      by (change 0 with (inject_Z 0); rewrite <- Zle_Qle; lia);
    nra.
Qed.

Lemma loop_body_within fuel locals t :
  transitions_end nodeStates → (302 ≤ fuel)%nat →
  within t (longest_step (num := num)) (loop_body fuel locals t).
Proof.
  intros Hsmooth Hfuel.
  pose proof (longest_step_bounds (num := num)) as [Hlong _].
  rewrite loop_body_eq.
  destruct (faulty (CallSetActiveNodeId _));
    [split; [done|]; split; simpl; lra|].
  destruct (faulty (CallGetNodeState _));
    [split; [done|]; split; simpl; lra|].
  destruct (currentNode nodes locals),
    (nodeStates !! currentNodeId locals) as [nodeState|] eqn:Hstate;
    try (split; [done|]; split; simpl; lra).
  destruct (node_step_within fuel nodeState locals t)
    as (Hout & Hlo & Hhi);
    [intros trans Htrans; exact (Hsmooth _ _ _ Hstate Htrans) | done |].
  split; [|done]. simpl. by destruct (outcome _).
Qed.

Lemma while_loop_within (steps : nat) :
  transitions_end nodeStates →
  ∀ fuel locals t,
    Nat.iter steps (successor edges) (currentNodeId locals) = "" →
    (steps + 303 ≤ fuel)%nat →
    within t (inject_Z (Z.of_nat steps) * longest_step (num := num))
      (while_loop fuel locals t).
Proof.
  intros Hsmooth.
  pose proof (longest_step_bounds (num := num)) as [Hlong _].
  induction steps as [|steps IH]; intros fuel locals t Hends Hfuel;
    (destruct fuel as [|fuel]; [lia|]); rewrite while_loop_S.
  - simpl in Hends. rewrite Hends. change (inject_Z (Z.of_nat 0)) with 0.
    split; [done|]. cbn [now negb andb String.eqb]. split; lra.
  - assert (Hpos : 0 <= inject_Z (Z.of_nat steps) * longest_step (num := num)).
    { apply Qmult_le_0_compat; [|lra].
      change 0 with (inject_Z 0). rewrite <- Zle_Qle. lia. }
    assert (Hsucc : inject_Z (Z.of_nat (S steps)) * longest_step (num := num)
                    == inject_Z (Z.of_nat steps) * longest_step (num := num)
                       + longest_step (num := num)).
    { rewrite Nat2Z.inj_succ. unfold Z.succ. rewrite inject_Z_plus. ring. }
    destruct (_ && _); [|split; [done|]; split; simpl; lra]. cbv zeta.
    destruct (loop_body_within fuel locals t Hsmooth)
      as (Hout & Hlo & Hhi); [lia|].
    pose proof (loop_body_walks nodes edges nodeStates cancelAt faulty
                  fuel locals t) as [_ Hnext].
    destruct (outcome (loop_body fuel locals t)) as [[|locals']| |] eqn:Hbody.
    + split; [done|]. cbn [now]. split; lra.
    + rewrite Nat.iter_succ_r, <- (Hnext locals' eq_refl) in Hends.
      destruct (IH fuel locals' (now (loop_body fuel locals t)) Hends)
        as (Hout' & Hlo' & Hhi'); [lia|].
      split; [exact Hout'|]. unfold after. cbn [now]. split; lra.
    + split; [done|]. cbn [now]. split; lra.
    + done.
Qed.

Lemma chain_within (steps fuel : nat) (start : Node) (rest : list Node) :
  startNodes nodes edges = start :: rest →
  Nat.iter steps (successor edges) (node_id start) = "" →
  transitions_end nodeStates → (steps + 303 ≤ fuel)%nat →
  let o := run nodes edges nodeStates cancelAt faulty fuel false in
  outcome o = Ret tt ∧
  0 <= now o ∧ now o <= inject_Z (Z.of_nat steps) * longest_step (num := num).
Proof.
  intros Hstart Hends Hsmooth Hfuel. cbv zeta. unfold run.
  rewrite (runAnimation_started _ _ _ _ _ fuel start rest 0 Hstart).
  destruct (while_loop_within steps Hsmooth fuel (first_locals start) 0)
    as (Hout & Hlo & Hhi); [done | done |].
  rewrite Qplus_0_l in Hhi. cbv zeta.
  by destruct (outcome (while_loop fuel (first_locals start) 0)).
Qed.

End Returns.

(** X10: a run on a chain that ends returns, in the program's own
    arithmetic: if following first outgoing edges from the first start
    node leads out of the graph within [steps] nodes, and every transition
    has a smoothness (a double) from 0 to 100, the run returns, cancelled
    or not, fault or not, and the waits it has made add up to at most
    [steps] times the longest pass through the loop body, which is 301
    frame waits of 1000/60 ms as a double (a little over 5016.67 ms). *)
Theorem finite_chain_returns (nodes : list Node) (edges : list Edge)
    (nodeStates : gmap string (NodeState float)) (cancelAt : option Q)
    (faulty : call float → bool) (steps fuel : nat) (start : Node)
    (rest : list Node)
    (Hstart : startNodes nodes edges = start :: rest)
    (Hends : Nat.iter steps (successor edges) (node_id start) = "")
    (Hsmooth : smoothness_in_range nodeStates)
    (Hfuel : (steps + 303 ≤ fuel)%nat) :
  let o := run nodes edges nodeStates cancelAt faulty fuel false in
  outcome o = Ret tt ∧
  0 <= now o ∧
  now o <= inject_Z (Z.of_nat steps) * longest_step (num := float) ∧
  301 * (50 # 3) < longest_step (num := float) ∧
  longest_step (num := float) < 301 * (50 # 3) + (1 # 1000000000).
Proof.
  cbv zeta.
  destruct (chain_within nodes edges nodeStates cancelAt faulty steps fuel
              start rest Hstart Hends (in_range_transitions_end _ Hsmooth)
              Hfuel) as (Hret & Hlo & Hhi).
  split; [exact Hret|]. split; [exact Hlo|]. split; [exact Hhi|].
  split; reflexivity.
Qed.

Lemma chain_states_in_range : smoothness_in_range chain_states.
Proof.
  intros nodeId nodeState trans Hstate Htrans.
  unfold chain_states in Hstate. simpl in Hstate.
  destruct (decide (nodeId = "a")) as [-> | Ha].
  { rewrite lookup_insert_eq in Hstate. by injection Hstate as <-. }
  rewrite lookup_insert_ne in Hstate by done.
  destruct (decide (nodeId = "t")) as [-> | Ht].
  { rewrite lookup_insert_eq in Hstate. injection Hstate as <-.
    by injection Htrans as <-. }
  rewrite lookup_insert_ne in Hstate by done.
  destruct (decide (nodeId = "b")) as [-> | Hb].
  { rewrite lookup_insert_eq in Hstate. by injection Hstate as <-. }
  by rewrite lookup_insert_ne in Hstate.
Defined.

(** The chain a -> t -> b ends after three nodes; its run returns after
    a settle pause of 1000 ms, 30 frame waits and a pause of 100 ms. *)
Lemma finite_chain_returns_witness :
  outcome (chain_run (num := float) None no_fault 306) = Ret tt ∧
  now (chain_run (num := float) None no_fault 306)
    <= 3 * longest_step (num := float) ∧
  now (chain_run (num := float) None no_fault 306)
    == 1100 + 30 * frame_wait (num := float).
Proof.
  destruct (finite_chain_returns sample_graph.1 sample_graph.2 chain_states
              None no_fault 3 306 {| node_id := "a"; node_type := joint |} []
              eq_refl eq_refl chain_states_in_range (le_n 306))
    as (Hret & _ & Hnow & _).
  split; [exact Hret|]. split; [exact Hnow|]. vm_compute. reflexivity.
Defined.

(** ** One run at a time *)

Section OneRun.
Context {num : Type} `{JsNumber num}.
Context (nodes : list Node) (edges : list Edge).
Context (nodeStates : gmap string (NodeState num)).
Context (cancelAt : option Q).
Context (faulty : call num → bool).

Local Abbreviation run := (run nodes edges nodeStates cancelAt faulty).

Lemma run_wait_flags fuel (st : UiState num) pre t d post :
  events (run fuel false) = pre ++ (t, Wait d) :: post →
  isAnimating (replay pre st) = true ∧ activeNodeId (replay pre st) ≠ None.
Proof.
  intros Hev.
  destruct (startNodes nodes edges) as [|start rest] eqn:Hstart.
  { unfold run in Hev.
    rewrite (runAnimation_no_start _ _ _ _ _ fuel 0 Hstart) in Hev.
    by destruct pre as [|? [|]]. }
  pose proof (wait_states_prefix st pre t d post) as Hin.
  rewrite <- Hev in Hin. revert Hin. generalize (replay pre st).
  apply List.Forall_forall. clear Hev pre t d post.
  destruct (run_started_events nodes edges nodeStates cancelAt faulty fuel
              start rest Hstart) as (tail & -> & Htail).
  pose proof (while_loop_emits nodes edges nodeStates cancelAt faulty fuel
                (first_locals start) 0) as Hbody.
  pose proof (while_loop_head nodes edges nodeStates cancelAt faulty fuel
                (first_locals start) 0) as Hhead.
  set (o := while_loop _ _ _ _ _ fuel (first_locals start) 0) in *.
  assert (Hloop : Forall (λ s, isAnimating s = true ∧ activeNodeId s ≠ None)
                    (wait_states (replay (started 0) st) (events o))).
  { destruct (events o) as [|[t e] body]; [constructor|].
    destruct Hhead as [nodeId Hhead]. simpl in Hhead; subst e.
    apply Forall_cons in Hbody as [_ Hbody]. simpl.
    by apply loop_wait_states with (cancelAt := cancelAt). }
  rewrite !wait_states_app. apply Forall_app; split; [constructor|].
  apply Forall_app; split; [exact Hloop|].
  destruct Htail as [-> | [-> | ->]]; constructor.
Qed.

(** X11: no second run while one is in flight: at every wait of a run, an
    invocation of [runAnimation] that reads [isAnimating] from the store
    returns at once and does nothing, whatever graph it is given. *)
Theorem no_second_run_while_waiting (fuel fuel' : nat) (st : UiState num)
    (pre post : list (Q * event num)) (t d t' : Q)
    (nodes' : list Node) (edges' : list Edge)
    (nodeStates' : gmap string (NodeState num)) (cancelAt' : option Q)
    (faulty' : call num → bool)
    (idle : isAnimating st = false)
    (waiting : events (run fuel (isAnimating st)) = pre ++ (t, Wait d) :: post) :
  runAnimation nodes' edges' nodeStates' cancelAt' faulty' fuel'
    (isAnimating (replay pre st)) t'
  = {| events := []; now := t'; outcome := Ret tt |}.
Proof.
  rewrite idle in waiting.
  destruct (run_wait_flags fuel st pre t d post waiting) as [-> _]. done.
Qed.

End OneRun.

(** At the settle pause of the single pose node a second invocation does
    nothing. *)
Lemma no_second_run_while_waiting_witness :
  runAnimation (num := Q) sample_graph.1 sample_graph.2 chain_states None
    no_fault 100
    (isAnimating (replay (take 4 (events single_run)) idle_state)) 500
  = {| events := []; now := 500; outcome := Ret tt |}.
Proof.
  apply (no_second_run_while_waiting (num := Q) single_graph.1 single_graph.2
           chain_states None no_fault 10 100 idle_state
           (take 4 (events single_run)) (drop 5 (events single_run))
           0 1000 500 sample_graph.1 sample_graph.2 chain_states None no_fault
           eq_refl).
  vm_compute. reflexivity.
Defined.

(** ** The easing curve *)

Lemma easedT_Q_cases (t : Q) :
  (t < 0.5 ∧ easedT t == 2 * t * t) ∨
  (0.5 <= t ∧ easedT t == 1 - 2 * (1 - t) * (1 - t)).
Proof.
  unfold easedT; simpl. destruct (Qle_bool 0.5 t) eqn:Hhalf; simpl.
  - right. apply Qle_bool_iff in Hhalf. split; [done|]. field.
  - left. split; [|reflexivity]. apply Qnot_le_lt.
    intros Hle%Qle_bool_iff. congruence.
Qed.

Lemma easedT_Q_range (t : Q) : 0 <= t → t <= 1 → 0 <= easedT t ∧ easedT t <= 1.
Proof.
  intros H0 H1. destruct (easedT_Q_cases t) as [[Hlt ->] | [Hge ->]];
    split; nra.
Qed.

Lemma easedT_Q_monotone (t1 t2 : Q) :
  0 <= t1 → t1 <= t2 → t2 <= 1 → easedT t1 <= easedT t2.
Proof.
  intros H0 H12 H1.
  destruct (easedT_Q_cases t1) as [[Hlt1 ->] | [Hge1 ->]],
    (easedT_Q_cases t2) as [[Hlt2 ->] | [Hge2 ->]]; nra.
Qed.

Lemma F64_eased_monotone_grid :
  forallb F64_eased_monotone (seqZ 0 101) = true.
Proof. vm_compute. reflexivity. Qed.

(** X12: the easing curve 2t^2 / 1 - (-2t+2)^2/2 maps [0,1] into [0,1],
    does not decrease on [0,1], takes the value 0.5 at 0.5, where its two
    branches meet, and is symmetric about that point; in binary64, for the
    integer smoothness values 0..100, the eased factor does not decrease
    from a frame to the next. *)
Theorem easing_curve :
  (∀ t : Q, 0 <= t → t <= 1 → 0 <= easedT t ∧ easedT t <= 1) ∧
  (∀ t1 t2 : Q, 0 <= t1 → t1 <= t2 → t2 <= 1 → easedT t1 <= easedT t2) ∧
  easedT (0.5 : Q) == 0.5 ∧ 2 * 0.5 * 0.5 == (0.5 : Q) ∧
  (∀ t : Q, easedT (1 - t) == 1 - easedT t) ∧
  (∀ k f : Z, (0 ≤ k ≤ 100)%Z →
     let frames : float := totalFrames (int_smoothness k) in
     (0 ≤ f < F64.to_Z frames)%Z →
     (easedT (nlit (inject_Z f) / frames)
      <=? easedT (nlit (inject_Z (f + 1)) / frames))%js = true).
Proof.
  split; [exact easedT_Q_range|]. split; [exact easedT_Q_monotone|].
  split; [reflexivity|]. split; [reflexivity|]. split.
  - intros t.
    destruct (easedT_Q_cases t) as [[Hlt ->] | [Hge ->]],
      (easedT_Q_cases (1 - t)) as [[Hlt' ->] | [Hge' ->]]; try ring; try lra.
    assert (Ht : t == 0.5) by lra. rewrite Ht. reflexivity.
  - intros k f Hk frames Hf.
    pose proof (forallb_seqZ _ 0 101 F64_eased_monotone_grid k) as Hgrid.
    unfold F64_eased_monotone in Hgrid. cbv zeta in Hgrid. fold frames in Hgrid.
    apply (forallb_seqZ _ 0 _ (Hgrid ltac:(lia))). lia.
Qed.

(** ** The frames of a transition *)





(** ** Poses *)

Section Poses.
Context {num : Type} `{JsNumber num}.

Lemma pose_of_snoc (joints : list (JointParameter num)) j :
  pose_of (joints ++ [j]) = <[name j := value j]> (pose_of joints).
Proof. unfold pose_of. by rewrite foldl_app. Qed.

Lemma pose_of_lookup (joints : list (JointParameter num)) jointName :
  pose_of joints !! jointName
  = value <$> List.find (λ j, (name j =? jointName)%string) (rev joints).
Proof.
  induction joints as [|j joints IH] using rev_ind; [done|].
  rewrite pose_of_snoc, rev_app_distr. simpl.
  destruct (String.eqb_spec (name j) jointName) as [<- | Hne].
  - by rewrite lookup_insert_eq.
  - by rewrite lookup_insert_ne.
Qed.

(** X15: the pose of a joint list ([Object.fromEntries]) has the names of
    the list as its keys, and for a name that occurs more than once the
    value of its last entry. *)
Theorem pose_of_last_entry_wins (joints : list (JointParameter num))
    (jointName : string) :
  pose_of joints !! jointName
    = value <$> List.find (λ j, (name j =? jointName)%string) (rev joints) ∧
  (is_Some (pose_of joints !! jointName) ↔ In jointName (map name joints)) ∧
  (∀ before j after, joints = before ++ j :: after →
     ¬ In (name j) (map name after) →
     pose_of joints !! name j = Some (value j)).
Proof.
  split; [apply pose_of_lookup|]. split.
  - rewrite pose_of_lookup, fmap_is_Some. split.
    + intros [j Hj]. apply find_some in Hj as [Hin Heq].
      apply String.eqb_eq in Heq as <-. apply in_map. by apply in_rev.
    + intros (j & <- & Hin)%in_map_iff.
      destruct (List.find _ (rev joints)) as [j'|] eqn:Hfind; [by eexists|].
      apply in_rev in Hin. apply (find_none _ _ Hfind j) in Hin.
      by rewrite String.eqb_refl in Hin.
  - intros before j after -> Hlast.
    rewrite pose_of_lookup, rev_app_distr. simpl. rewrite <- app_assoc.
    assert (Hnone : List.find (λ j', (name j' =? name j)%string) (rev after)
                    = None).
    { destruct (List.find _ (rev after)) as [j'|] eqn:Hfind; [|done].
      apply find_some in Hfind as [Hin Heq]. apply String.eqb_eq in Heq.
      exfalso. apply Hlast. rewrite <- Heq. apply in_map. by apply in_rev. }
    revert Hnone. generalize (rev after). intros l.
    induction l as [|j' l IH]; simpl; [by rewrite String.eqb_refl|].
    destruct (name j' =? name j)%string; [done | exact IH].
Qed.

End Poses.

(** Two entries for "j1": the second one is the value of the pose. *)
Lemma pose_of_last_entry_wins_witness :
  pose_of (num := Q) [ {| name := "j1"; value := 1 |};
                       {| name := "j2"; value := 2 |};
                       {| name := "j1"; value := 3 |} ] !! "j1" = Some 3.
Proof.
  destruct (pose_of_last_entry_wins (num := Q)
              [ {| name := "j1"; value := 1 |}; {| name := "j2"; value := 2 |};
                {| name := "j1"; value := 3 |} ] "j1") as (_ & _ & Hlast).
  apply (Hlast [ {| name := "j1"; value := 1 |}; {| name := "j2"; value := 2 |} ]
           {| name := "j1"; value := 3 |} []); [reflexivity | by intros []].
Defined.

(** ** Transitions that do not interpolate *)

Section Abrupt.
Context {num : Type} `{JsNumber num}.
Context (nodes : list Node) (edges : list Edge).
Context (nodeStates : gmap string (NodeState num)).
Context (cancelAt : option Q).
Context (faulty : call num → bool).

Local Abbreviation loop_body :=
  (loop_body nodes edges nodeStates cancelAt faulty).

(** X16: a transition that is not smooth, or comes before any pose has been
    applied, or does not lead to a node with a pose, is a pause of 500 ms:
    the loop body activates the node, waits, publishes nothing and leaves
    the previous pose and the skip flag as they are. *)
Theorem abrupt_transition_pauses (fuel : nat) (locals : Locals num) (t : Q)
    (nodeT : Node) (stateT : NodeState num) (trans : TransitionOptions num)
    (at_transition : currentNode nodes locals = Some nodeT ∧
       nodeStates !! currentNodeId locals = Some stateT ∧
       ns_type stateT = transition ∧ ns_transition stateT = Some trans)
    (abrupt : smooth trans = false ∨ previousJointPose locals = None ∨
       pose_of_state (nextEdge edges (currentNodeId locals)
                        ≫= λ edge, nodeStates !! target edge) = None)
    (calls_succeed : ∀ c, faulty c = false) :
  loop_body fuel locals t
    = {| events := [(t, SetActiveNodeId (Some (currentNodeId locals)));
                    (t, Wait 500)];
         now := Qred (t + 500);
         outcome := Ret (Continue (advance edges locals)) |} ∧
  published (events (loop_body fuel locals t)) = [].
Proof.
  destruct at_transition as (Hnode & Hstate & Htype & Htrans).
  assert (Hbody : loop_body fuel locals t
    = {| events := [(t, SetActiveNodeId (Some (currentNodeId locals)));
                    (t, Wait 500)];
         now := Qred (t + 500);
         outcome := Ret (Continue (advance edges locals)) |});
    [|by rewrite Hbody].
  rewrite loop_body_eq, !calls_succeed, Hnode, Hstate.
  unfold node_step. rewrite Htype, Htrans, transition_step_eq.
  assert (Hrest : transition_rest cancelAt faulty fuel trans locals
            (nextEdge edges (currentNodeId locals)
               ≫= λ edge, nodeStates !! target edge) t
          = {| events := [(t, Wait 500)]; now := Qred (t + 500);
               outcome := Ret locals |}).
  { unfold transition_rest.
    destruct abrupt as [-> | [-> | ->]]; [done| |];
      destruct (smooth trans); try done;
      by destruct (previousJointPose locals). }
  destruct (nextEdge edges (currentNodeId locals)) as [edge|]; simpl in Hrest;
    rewrite ?calls_succeed, Hrest; done.
Qed.

End Abrupt.

(** A smooth transition met first does not interpolate. *)
Lemma abrupt_transition_pauses_witness :
  events (loop_body (num := Q) sample_graph.1 sample_graph.2 chain_states None
            no_fault 40 transition_first 0)
    = [(0, SetActiveNodeId (Some "t")); (0, Wait 500)].
Proof.
  destruct (abrupt_transition_pauses (num := Q) sample_graph.1 sample_graph.2
              chain_states None no_fault 40 transition_first 0
              {| node_id := "t"; node_type := transition |}
              (transition_state "t" true 100)
              {| smooth := true; smoothness := 100 |}) as [Hbody _].
  - repeat split; vm_compute; reflexivity.
  - right. by left.
  - done.
  - exact (f_equal events Hbody).
Defined.

(** ** Smoothness values beyond 100 *)

Lemma Qfloor_unit (q : Q) : 0 <= q → q < 1 → Qfloor q = 0%Z.
Proof.
  intros H0 H1. pose proof (Qfloor_le q) as Hlo.
  pose proof (Qlt_floor q) as Hhi.
  assert (Hlt : (Qfloor q < 1)%Z).
  { rewrite Zlt_Qlt. apply Qle_lt_trans with q; [done | exact H1]. }
  assert (Hgt : (0 < Qfloor q + 1)%Z).
  { rewrite Zlt_Qlt. apply Qle_lt_trans with q; [exact H0 | done]. }
  lia.
Qed.

Lemma Qfloor_negative (q : Q) : q < 0 → (Qfloor q < 0)%Z.
Proof.
  intros Hq. pose proof (Qfloor_le q) as Hlo. rewrite Zlt_Qlt.
  apply Qle_lt_trans with q; [done | exact Hq].
Qed.

(** The frame count of a smoothness within an enclosure: every
    intermediate result is finite and within its bounds, and the count is
    the floor of the quotient. *)
Lemma F64_enclosed (b : Enclosure) (s : float) :
  encloses b = true →
  (s_lo b <=? s)%float = true → (s <=? s_hi b)%float = true →
  let q := (durationMs s / frameTime)%js in
  is_finite (totalFrames s) = true ∧
  F64.to_Q (totalFrames s) == inject_Z (Qfloor (F64.to_Q q)) ∧
  F64.to_Q (quotient_lo b) <= F64.to_Q q ∧
  F64.to_Q q <= F64.to_Q (quotient_hi b).
Proof.
  unfold encloses. rewrite !andb_true_iff, !Qle_bool_iff.
  intros (((((((((Flo & Fhi) & R1) & R2) & P1) & P2) & D1) & D2) & Q1) & Q2).
  intros Hlo Hhi.
  assert (Hfin : is_finite s = true)
    by (by apply (F64_between_finite (s_lo b) s (s_hi b))).
  apply (F64_leb _ _ Flo Hfin) in Hlo. apply (F64_leb _ _ Hfin Fhi) in Hhi.
  change (totalFrames s)
    with (F64.floor ((5000 - s / 100 * 4500) / 0x1.0aaaaaaaaaaabp+4)%float).
  change (durationMs s / frameTime)%js
    with ((5000 - s / 100 * 4500) / 0x1.0aaaaaaaaaaabp+4)%float.
  change (F64.to_Q frameTime)
    with (F64.to_Q 0x1.0aaaaaaaaaaabp+4) in Q1, Q2.
  assert (C100 : F64.to_Q 100 == 100) by reflexivity.
  assert (C4500 : F64.to_Q 4500 == 4500) by reflexivity.
  assert (C5000 : F64.to_Q 5000 == 5000) by reflexivity.
  assert (Pft : 0 < F64.to_Q 0x1.0aaaaaaaaaaabp+4) by reflexivity.
  assert (N100 : ¬ F64.to_Q 100 == 0) by (rewrite C100; discriminate).
  assert (Nft : ¬ F64.to_Q 0x1.0aaaaaaaaaaabp+4 == 0) by lra.
  destruct (F64_div_bounds s 100 _ _ Hfin eq_refl N100
              (F64_srepr (ratio_lo b)) (F64_srepr (ratio_hi b)))
    as (F1 & L1 & U1).
  { rewrite C100. apply Qle_shift_div_l; lra. }
  { rewrite C100. apply Qle_shift_div_r; lra. }
  destruct (F64_mul_bounds (s / 100) 4500 _ _ F1 eq_refl
              (F64_srepr (product_lo b)) (F64_srepr (product_hi b)))
    as (F2 & L2 & U2).
  { rewrite C4500. lra. }
  { rewrite C4500. lra. }
  destruct (F64_sub_bounds 5000 (s / 100 * 4500) _ _ eq_refl F2
              (F64_srepr (duration_lo b)) (F64_srepr (duration_hi b)))
    as (F3 & L3 & U3).
  { rewrite C5000. lra. }
  { rewrite C5000. lra. }
  destruct (F64_div_bounds (5000 - s / 100 * 4500) 0x1.0aaaaaaaaaaabp+4 _ _
              F3 eq_refl Nft
              (F64_srepr (quotient_lo b)) (F64_srepr (quotient_hi b)))
    as (F4 & L4 & U4).
  { apply Qle_shift_div_l; lra. }
  { apply Qle_shift_div_r; lra. }
  cbv zeta. destruct (F64_floor _ F4) as [Ff Vf]. done.
Qed.

Lemma F64_overlarge (s : float) :
  overlarge s →
  ∃ n : Z, (n < 0)%Z ∧ is_finite (totalFrames s) = true ∧
    F64.to_Q (totalFrames s) == inject_Z n.
Proof.
  intros [Hlo Hhi].
  destruct (F64_enclosed overlarge_bounds s) as (Hfin & Hval & _ & Hq);
    [by vm_compute | done | done |].
  eexists. split; [|split; [exact Hfin | exact Hval]].
  apply Qfloor_negative.
  assert (Hc : F64.to_Q (quotient_hi overlarge_bounds) == - (1 # 128))
    by reflexivity.
  cbv zeta in Hq. rewrite Hc in Hq. lra.
Qed.

Lemma F64_short_lived (s : float) :
  short_lived s →
  is_finite (totalFrames s) = true ∧ F64.to_Q (totalFrames s) == 0.
Proof.
  intros [Hlo Hhi].
  destruct (F64_enclosed short_bounds s) as (Hfin & Hval & Hq & Hq');
    [by vm_compute | done | done |].
  split; [exact Hfin|]. rewrite Hval. cbv zeta in Hq, Hq'.
  assert (Hc : F64.to_Q (quotient_lo short_bounds) == 1 # 512)
    by reflexivity.
  assert (Hc' : F64.to_Q (quotient_hi short_bounds) == 511 # 512)
    by reflexivity.
  rewrite Hc in Hq. rewrite Hc' in Hq'.
  rewrite Qfloor_unit; [done | lra | lra].
Qed.

Lemma F64_easedT_nan (t : float) : is_nan t = true → is_nan (easedT t) = true.
Proof.
  intros Hnan. unfold easedT. cbn [nltb nmul nadd nsub ndiv npow2 F64_number].
  rewrite (F64_nan_ltb t _ Hnan).
  apply F64_nan_sub_r, F64_nan_div_l, F64_nan_mul_l, F64_nan_add_l.
  by apply F64_nan_mul_r.
Qed.

Lemma interpolated_nan (a b : operand float) (eased : float) :
  is_nan eased = true → no_number (interpolated a b eased).
Proof.
  intros Hnan. destruct a, b; try done. cbn.
  by apply F64_nan_add_r, F64_nan_mul_r.
Qed.

Section Overlarge.
Context (nodes : list Node) (edges : list Edge).
Context (nodeStates : gmap string (NodeState float)).
Context (cancelAt : option Q).
Context (faulty : call float → bool).

Local Abbreviation loop_body :=
  (loop_body nodes edges nodeStates cancelAt faulty).

(** X17: the smoothness is not clamped: for a double from 111.125 on (up to
    2^1000) the frame count, in the program's own arithmetic, is negative,
    and a smooth transition between two poses publishes no frame and takes
    no time, yet sets the skip flag, so that the pose it leads to is not
    applied by the step that follows either. *)
Theorem overlarge_smoothness_skips_pose (fuel : nat)
    (locals : Locals float) (t : Q)
    (nodeT : Node) (stateT stateB : NodeState float)
    (trans : TransitionOptions float) (previous : gmap string float)
    (edge : Edge) (joints : list (JointParameter float))
    (at_transition : currentNode nodes locals = Some nodeT ∧
       nodeStates !! currentNodeId locals = Some stateT ∧
       ns_type stateT = transition ∧ ns_transition stateT = Some trans)
    (is_smooth : smooth trans = true)
    (has_previous : previousJointPose locals = Some previous)
    (leads_to_pose : nextEdge edges (currentNodeId locals) = Some edge ∧
       nodeStates !! target edge = Some stateB ∧
       ns_type stateB = joint ∧ ns_joints stateB = Some joints)
    (too_large : overlarge (smoothness trans))
    (calls_succeed : ∀ c, faulty c = false) :
  (totalFrames (smoothness trans) <? 0)%float = true ∧
  loop_body (S fuel) locals t
    = {| events := [(t, SetActiveNodeId (Some (currentNodeId locals)))];
         now := t;
         outcome := Ret (Continue
           {| currentNodeId := target edge;
              previousJointPose := Some previous;
              skipNextJointApplication := true |}) |}.
Proof.
  destruct at_transition as (Hnode & Hstate & Htype & Htrans).
  destruct leads_to_pose as (Hedge & HstateB & HtypeB & Hjoints).
  destruct (F64_overlarge _ too_large) as (n & Hn & Hfin & Hval).
  split.
  { apply (F64_ltb _ 0 Hfin eq_refl). rewrite Hval.
    change (F64.to_Q 0) with (inject_Z 0). by rewrite <- Zlt_Qlt. }
  rewrite loop_body_eq, !calls_succeed, Hnode, Hstate.
  unfold node_step. rewrite Htype, Htrans, transition_step_eq.
  rewrite Hedge, calls_succeed, HstateB.
  unfold transition_rest, pose_of_state.
  rewrite is_smooth, has_previous.
  destruct stateB as [idB typeB jointsB transB]; simpl in HtypeB, Hjoints.
  subst typeB jointsB. rewrite frame_loop_S.
  assert (Hstop : (nlit (inject_Z 0) <=? totalFrames (smoothness trans))%js
                  = false).
  { apply not_true_is_false.
    rewrite (F64_frame_leb _ n 0 Hfin Hval) by done. lia. }
  rewrite Hstop. simpl. unfold after, mapped, returning, advance; simpl.
  by rewrite Hedge.
Qed.

End Overlarge.

(** With smoothness 120 the chain a -> t -> b publishes pose "a" and
    nothing else: pose "b" is never applied. *)
Lemma overlarge_smoothness_skips_pose_witness :
  events (loop_body sample_graph.1 sample_graph.2 overlarge_states None
            no_fault 3 overlarge_start 1000)
    = [(1000, SetActiveNodeId (Some "t"))] ∧
  published (events (run sample_graph.1 sample_graph.2 overlarge_states None
                       no_fault 10 false))
    = [Number <$> pose_of [ {| name := "j1"; value := 0.5%float |};
                            {| name := "j2"; value := 1%float |} ]].
Proof.
  split; [|vm_compute; reflexivity].
  destruct (overlarge_smoothness_skips_pose sample_graph.1 sample_graph.2
              overlarge_states None no_fault 2 overlarge_start 1000
              {| node_id := "t"; node_type := transition |}
              (transition_state "t" true 120)
              (pose_state "b" [("j1", 1.5); ("j3", 2)])
              {| smooth := true; smoothness := 120%float |}
              (pose_of [ {| name := "j1"; value := 0.5%float |};
                         {| name := "j2"; value := 1%float |} ])
              {| edge_id := "e2"; source := "t"; target := "b" |}
              [ {| name := "j1"; value := 1.5%float |};
                {| name := "j3"; value := 2%float |} ])
    as [_ Hbody].
  - repeat split; vm_compute; reflexivity.
  - reflexivity.
  - reflexivity.
  - repeat split; vm_compute; reflexivity.
  - split; reflexivity.
  - done.
  - exact (f_equal events Hbody).
Defined.

(** X18: for a double smoothness from 110.75 to 111.109375 the frame
    count, in
    the program's own arithmetic, is 0, and the one frame of the
    transition divides 0 by 0: whatever the two poses are, the one pose it
    publishes holds no number but NaN (or, for a joint named like a member
    of Object.prototype, a string). *)
Theorem zero_frame_count_publishes_no_number (s : float)
    (P N : gmap string float) (fuel : nat) (t : Q)
    (Hs : short_lived s) (Hfuel : (2 ≤ fuel)%nat) :
  let frames := totalFrames s in
  let o := undisturbed_frames fuel P N frames 0 t in
  is_finite frames = true ∧ F64.to_Q frames == 0 ∧
  is_nan (nlit (inject_Z 0) / frames)%js = true ∧
  outcome o = Ret tt ∧
  published (events o) = [framePose P N frames 0] ∧
  (∀ j value, framePose P N frames 0 !! j = Some value → no_number value) ∧
  (plain_names P → plain_names N →
   ∀ j, j ∈ allJointNames P N →
     ∃ v, framePose P N frames 0 !! j = Some (Number v) ∧ is_nan v = true).
Proof.
  cbv zeta. destruct (F64_short_lived s Hs) as [Hfin Hval].
  assert (Hnan : is_nan (nlit (inject_Z 0) / totalFrames s)%js = true).
  { destruct (F64_nlit_Z 0) as [F0 V0]; [done|].
    by apply F64_zero_div_zero. }
  pose proof (F64_easedT_nan _ Hnan) as Heased.
  split; [done|]. split; [done|]. split; [done|].
  destruct (frame_loop_all_frames P N (totalFrames s) 0 fuel 0 t)
    as [Hret Hpub]; [| |lia|simpl; lia|].
  { intros f Hf. replace f with 0%Z by lia.
    by apply (F64_frame_leb _ 0 0 Hfin Hval). }
  { apply not_true_is_false.
    rewrite (F64_frame_leb _ 0 1 Hfin Hval) by done. lia. }
  split; [done|]. split; [done|]. split.
  - intros j value. unfold framePose. rewrite interpolatedPose_lookup.
    destruct (decide _); [|done]. intros [= <-].
    by apply interpolated_nan.
  - intros HP HN j Hj. unfold framePose in *.
    rewrite (plain_frame_lookup P N _ j HP HN), decide_True by done.
    eexists. split; [done|].
    by apply F64_nan_add_r, F64_nan_mul_r.
Qed.

(** At smoothness 111. *)
Lemma zero_frame_count_publishes_no_number_witness :
  published (events
    (undisturbed_frames (num := float) 2 low_pose high_pose
       (totalFrames 111%float) 0 0))
    = [framePose low_pose high_pose (totalFrames 111%float) 0] ∧
  is_nan <$> (framePose (num := float) low_pose high_pose
                (totalFrames 111%float) 0 !! "j"
              ≫= λ value, match value with Number v => Some v | _ => None end)
    = Some true.
Proof.
  assert (Hs : short_lived 111) by (split; reflexivity).
  destruct (zero_frame_count_publishes_no_number 111 low_pose high_pose 2 0
              Hs (le_n 2)) as (_ & _ & _ & _ & Hpub & _).
  split; [exact Hpub | vm_compute; reflexivity].
Defined.

Section WholeChain.
Context {num : Type} `{JsNumber num}.
Context (nodes : list Node) (edges : list Edge).
Context (nodeStates : gmap string (NodeState num)).
Context (faulty : call num → bool).
Context (faultless : ∀ c, faulty c = false).

Local Abbreviation while_loop :=
  (while_loop nodes edges nodeStates None faulty).
Local Abbreviation loop_body :=
  (loop_body nodes edges nodeStates None faulty).

Lemma while_loop_whole_route (steps : nat) :
  transitions_end nodeStates →
  ∀ fuel locals t,
    Nat.iter steps (successor edges) (currentNodeId locals) = "" →
    (∀ nodeId, In nodeId (route edges steps (currentNodeId locals)) →
       is_Some (List.find (λ n, (node_id n =? nodeId)%string) nodes) ∧
       is_Some (nodeStates !! nodeId)) →
    (steps + 303 ≤ fuel)%nat →
    activated (events (while_loop fuel locals t))
      = route edges steps (currentNodeId locals).
Proof using faultless.
  intros Hsmooth.
  induction steps as [|steps IH]; intros fuel locals t Hends Hpresent Hfuel;
    (destruct fuel as [|fuel]; [lia|]); rewrite while_loop_S.
  - simpl in Hends. by rewrite Hends.
  - cbn [route] in *.
    destruct (String.eqb_spec (currentNodeId locals) "") as [Hempty|Hid];
      [done|].
    destruct (Hpresent (currentNodeId locals)) as [[node Hnode] [nodeState Hstate]];
      [by left|].
    unfold cancelled. cbn [negb andb]. cbv zeta.
    pose proof (node_step_keeps_node edges nodeStates None faulty fuel
                  nodeState locals t) as [Hnone Hkeep].
    pose proof (node_step_no_throw edges nodeStates None faulty faultless fuel
                  nodeState locals t) as Hthrow.
    destruct (node_step_within edges nodeStates None faulty fuel nodeState
                locals t) as (Hpending & _);
      [intros trans Htrans; exact (Hsmooth _ _ _ Hstate Htrans) | lia |].
    rewrite loop_body_eq, !faultless. unfold currentNode.
    rewrite Hnode, Hstate. unfold after, mapped. cbn [events outcome now].
    destruct (outcome (node_step _ _ _ _ fuel nodeState locals t))
      as [locals1| |]; [|done..].
    cbn [events]. rewrite !activated_app, Hnone. simpl. f_equal.
    assert (Hnext : currentNodeId (advance edges locals1)
                    = successor edges (currentNodeId locals)).
    { unfold advance, successor; simpl. by rewrite (Hkeep locals1 eq_refl). }
    rewrite <- Hnext. apply IH.
    + by rewrite Hnext, <- Nat.iter_succ_r.
    + intros nodeId Hin. apply Hpresent. right. by rewrite <- Hnext.
    + lia.
Qed.

Lemma whole_chain_played (steps fuel : nat) (start : Node)
    (rest : list Node) :
  startNodes nodes edges = start :: rest →
  Nat.iter steps (successor edges) (node_id start) = "" →
  (∀ nodeId, In nodeId (route edges steps (node_id start)) →
     is_Some (List.find (λ n, (node_id n =? nodeId)%string) nodes) ∧
     is_Some (nodeStates !! nodeId)) →
  transitions_end nodeStates → (steps + 303 ≤ fuel)%nat →
  let o := run nodes edges nodeStates None faulty fuel false in
  outcome o = Ret tt ∧
  activated (events o) = route edges steps (node_id start).
Proof using faultless.
  intros Hstart Hends Hpresent Hsmooth Hfuel. cbv zeta. split.
  - unfold run.
    rewrite (runAnimation_started _ _ _ _ _ fuel start rest 0 Hstart).
    destruct (while_loop_within nodes edges nodeStates None faulty steps
                Hsmooth fuel (first_locals start) 0) as (Hout & _);
      [done | done |].
    cbv zeta. by destruct (outcome (while_loop fuel (first_locals start) 0)).
  - rewrite (run_activated nodes edges nodeStates None faulty fuel start rest
               Hstart).
    by apply while_loop_whole_route.
Qed.

End WholeChain.

(** X19: an undisturbed run plays its whole chain, in the program's own
    arithmetic: if the route from the first start node ends within [steps]
    nodes, every node on it is in the graph and has a state, every
    transition has a smoothness (a double) from 0 to 100, nothing throws
    and the run is not cancelled, then the run returns having activated
    every node of the route, in order, and nothing else. *)
Theorem undisturbed_chain_is_played (nodes : list Node) (edges : list Edge)
    (nodeStates : gmap string (NodeState float))
    (faulty : call float → bool) (steps fuel : nat) (start : Node)
    (rest : list Node)
    (faultless : ∀ c, faulty c = false)
    (Hstart : startNodes nodes edges = start :: rest)
    (Hends : Nat.iter steps (successor edges) (node_id start) = "")
    (Hpresent : ∀ nodeId, In nodeId (route edges steps (node_id start)) →
       is_Some (List.find (λ n, (node_id n =? nodeId)%string) nodes) ∧
       is_Some (nodeStates !! nodeId))
    (Hsmooth : smoothness_in_range nodeStates)
    (Hfuel : (steps + 303 ≤ fuel)%nat) :
  let o := run nodes edges nodeStates None faulty fuel false in
  outcome o = Ret tt ∧
  activated (events o) = route edges steps (node_id start).
Proof.
  apply (whole_chain_played nodes edges nodeStates faulty faultless steps fuel
           start rest Hstart Hends Hpresent); [|done].
  by apply in_range_transitions_end.
Qed.

(** The chain a -> t -> b is played in that order. *)
Lemma undisturbed_chain_is_played_witness :
  activated (events (chain_run (num := float) None no_fault 306))
    = ["a"; "t"; "b"].
Proof.
  destruct (undisturbed_chain_is_played sample_graph.1 sample_graph.2
              chain_states no_fault 3 306
              {| node_id := "a"; node_type := joint |} [] (λ _, eq_refl)
              eq_refl eq_refl)
    as [_ Hplayed].
  - intros nodeId [<- | [<- | [<- | []]]]; split; by eexists.
  - exact chain_states_in_range.
  - lia.
  - exact Hplayed.
Defined.

Section NodeCardFacts.
Context {num : Type} `{JsNumber num}.

(** *** Seeding and initialization *)

Lemma initializeNodeState_keeps availableJoints storeJointValues
    (nodeStates : gmap string (NodeState num)) node nodeId nodeState :
  nodeStates !! nodeId = Some nodeState →
  initializeNodeState availableJoints storeJointValues nodeStates node !! nodeId
    = Some nodeState.
Proof.
  intros Hstate. unfold initializeNodeState.
  destruct (nodeStates !! flow_id node) eqn:Hnode; [done|].
  assert (flow_id node ≠ nodeId) by congruence.
  by destruct (data_type (flow_data node)); unfold setNodeState;
    rewrite lookup_insert_ne.
Qed.

Lemma initializeNodeState_covers availableJoints storeJointValues
    (nodeStates : gmap string (NodeState num)) node :
  is_Some (initializeNodeState availableJoints storeJointValues nodeStates node
             !! flow_id node).
Proof.
  unfold initializeNodeState.
  destruct (nodeStates !! flow_id node) eqn:Hnode; [by rewrite Hnode|].
  by destruct (data_type (flow_data node)); unfold setNodeState;
    rewrite lookup_insert_eq.
Qed.

Lemma initializeNodeState_other availableJoints storeJointValues
    (nodeStates : gmap string (NodeState num)) node nodeId :
  flow_id node ≠ nodeId →
  initializeNodeState availableJoints storeJointValues nodeStates node !! nodeId
    = nodeStates !! nodeId.
Proof.
  intros Hne. unfold initializeNodeState.
  destruct (nodeStates !! flow_id node); [done|].
  by destruct (data_type (flow_data node)); unfold setNodeState;
    rewrite lookup_insert_ne.
Qed.

Lemma initialize_fold_keeps availableJoints storeJointValues nodes
    (nodeStates : gmap string (NodeState num)) nodeId nodeState :
  nodeStates !! nodeId = Some nodeState →
  foldl (initializeNodeState availableJoints storeJointValues) nodeStates nodes
    !! nodeId = Some nodeState.
Proof.
  revert nodeStates. induction nodes as [|node nodes IH]; intros nodeStates;
    [done|].
  intros Hstate. simpl. by apply IH, initializeNodeState_keeps.
Qed.

Lemma initialize_fold_covers availableJoints storeJointValues nodes
    (nodeStates : gmap string (NodeState num)) node :
  In node nodes →
  is_Some (foldl (initializeNodeState availableJoints storeJointValues)
             nodeStates nodes !! flow_id node).
Proof.
  revert nodeStates. induction nodes as [|node' nodes IH]; intros nodeStates;
    [done|].
  intros [-> | Hin]; simpl; [|by apply IH].
  destruct (initializeNodeState_covers availableJoints storeJointValues
              nodeStates node) as [nodeState Hstate].
  exists nodeState. by apply initialize_fold_keeps.
Qed.

Lemma initialize_fold_other availableJoints storeJointValues nodes
    (nodeStates : gmap string (NodeState num)) nodeId :
  ¬ In nodeId (map flow_id nodes) →
  foldl (initializeNodeState availableJoints storeJointValues) nodeStates nodes
    !! nodeId = nodeStates !! nodeId.
Proof.
  revert nodeStates. induction nodes as [|node nodes IH]; intros nodeStates;
    [done|].
  intros Hnot. simpl. rewrite IH by (intros Hin; apply Hnot; by right).
  apply initializeNodeState_other. intros Heq. apply Hnot. by left.
Qed.

Lemma initialize_fold_idle availableJoints storeJointValues nodes
    (nodeStates : gmap string (NodeState num)) :
  (∀ node, In node nodes → is_Some (nodeStates !! flow_id node)) →
  foldl (initializeNodeState availableJoints storeJointValues) nodeStates nodes
    = nodeStates.
Proof.
  induction nodes as [|node nodes IH]; [done|]. intros Hall. simpl.
  assert (Hnode : initializeNodeState availableJoints storeJointValues
                    nodeStates node = nodeStates).
  { unfold initializeNodeState.
    by destruct (Hall node) as [nodeState ->]; [by left|]. }
  rewrite Hnode. apply IH. intros node' Hin. apply Hall. by right.
Qed.

(** X20: the initialization of the node states never replaces a state the
    store has, gives every node of the list a state as soon as joints are
    available, touches no other id, and does nothing when run again,
    whatever the joints and values of the store are by then; without
    available joints it does nothing. *)
Theorem initializeNodeStates_only_fills_gaps (availableJoints : list string)
    (storeJointValues : gmap string num) (nodes : list (FlowNode num))
    (nodeStates : gmap string (NodeState num)) :
  let nodeStates' :=
    initializeNodeStates availableJoints storeJointValues nodes nodeStates in
  (∀ nodeId nodeState, nodeStates !! nodeId = Some nodeState →
     nodeStates' !! nodeId = Some nodeState) ∧
  (availableJoints ≠ [] →
   ∀ node, In node nodes → is_Some (nodeStates' !! flow_id node)) ∧
  (∀ nodeId, ¬ In nodeId (map flow_id nodes) →
     nodeStates' !! nodeId = nodeStates !! nodeId) ∧
  (availableJoints ≠ [] →
   ∀ availableJoints' storeJointValues',
     initializeNodeStates availableJoints' storeJointValues' nodes nodeStates'
       = nodeStates') ∧
  initializeNodeStates [] storeJointValues nodes nodeStates = nodeStates.
Proof.
  cbv zeta. unfold initializeNodeStates.
  destruct availableJoints as [|jointName availableJoints].
  { repeat split; try done. }
  split; [|split; [|split; [|split]]]; try done.
  - intros nodeId nodeState. apply initialize_fold_keeps.
  - intros _ node. apply initialize_fold_covers.
  - intros nodeId. apply initialize_fold_other.
  - intros _ availableJoints' storeJointValues'.
    destruct availableJoints'; [done|].
    apply initialize_fold_idle. intros node. apply initialize_fold_covers.
Qed.

Lemma seededJoints_lookup availableJoints (storeJointValues : gmap string num)
    jointName :
  pose_of (seededJoints availableJoints storeJointValues) !! jointName
    = if bool_decide (jointName ∈ availableJoints)
      then Some (joint_or_0 storeJointValues jointName) else None.
Proof.
  induction availableJoints as [|j availableJoints IH] using rev_ind.
  { rewrite bool_decide_eq_false_2; [done | apply not_elem_of_nil]. }
  unfold seededJoints in *. rewrite map_app. simpl.
  rewrite pose_of_snoc. simpl.
  destruct (decide (j = jointName)) as [-> | Hne].
  - rewrite lookup_insert_eq, bool_decide_eq_true_2; [done|].
    rewrite elem_of_app, list_elem_of_singleton. by right.
  - rewrite lookup_insert_ne, IH by done.
    apply (f_equal (λ b : bool, if b then _ else _)), bool_decide_ext.
    rewrite elem_of_app, list_elem_of_singleton.
    split; [by left | intros [?|?]; [done | congruence]].
Qed.

(** X21: a pose node is seeded with one joint per available joint, in that
    order, each with the value the store has for it, or 0; its pose gives
    every available joint that value, and handing the pose to
    [setJointValues] of a store that has a value for every available joint
    leaves the joint values of the store as they are. *)
Theorem seeded_pose_is_the_store_pose (availableJoints : list string)
    (storeJointValues : gmap string num) (st : UiState num)
    (Hstore : jointValues st = Number <$> storeJointValues)
    (Hknown : ∀ jointName, In jointName availableJoints →
       is_Some (storeJointValues !! jointName)) :
  let joints := seededJoints availableJoints storeJointValues in
  map name joints = availableJoints ∧
  (∀ jointName, In jointName availableJoints →
     pose_of joints !! jointName = storeJointValues !! jointName) ∧
  (∀ jointName, ¬ In jointName availableJoints →
     pose_of joints !! jointName = None) ∧
  jointValues (apply_event (SetJointValues (Number <$> pose_of joints)) st)
    = Number <$> storeJointValues.
Proof.
  cbv zeta.
  assert (Hin : ∀ jointName, In jointName availableJoints →
     pose_of (seededJoints availableJoints storeJointValues) !! jointName
       = storeJointValues !! jointName).
  { intros jointName Hj. rewrite seededJoints_lookup.
    rewrite bool_decide_eq_true_2 by (by apply list_elem_of_In).
    unfold joint_or_0.
    by destruct (Hknown jointName Hj) as [v ->]. }
  assert (Hout : ∀ jointName, ¬ In jointName availableJoints →
     pose_of (seededJoints availableJoints storeJointValues) !! jointName
       = None).
  { intros jointName Hj. rewrite seededJoints_lookup.
    by rewrite bool_decide_eq_false_2 by (by rewrite list_elem_of_In). }
  split; [|split; [done|split; [done|]]].
  - unfold seededJoints. rewrite map_map. simpl. apply map_id.
  - simpl. rewrite Hstore, <- map_fmap_union. f_equal.
    apply map_eq. intros jointName. rewrite lookup_union.
    destruct (decide (jointName ∈ availableJoints)) as [Hj | Hj];
      rewrite list_elem_of_In in Hj.
    + rewrite (Hin _ Hj). by destruct (storeJointValues !! jointName).
    + rewrite (Hout _ Hj). by destruct (storeJointValues !! jointName).
Qed.

(** *** Adding a node *)

Lemma node_id_inj (t1 t2 : Z) :
  "node-" +:+ pretty t1 = "node-" +:+ pretty t2 → t1 = t2.
Proof. simpl. intros [= Heq]. by apply (inj pretty). Qed.

(** X22: [addNode] without available joints adds nothing and shows "Please
    upload a URDF file first"; otherwise it appends exactly one node, of the
    type asked for, whose id is "node-" followed by the timestamp, and
    leaves the nodes there are as they are. A pose node carries the seeded
    joints, a transition node is smooth with smoothness 50. The id is not
    checked against those in use: two nodes added at the same timestamp
    bear the same id, at different timestamps different ids. *)
Theorem addNode_appends_one_node (type : NodeType)
    (position mousePosition : option (num * num)) (timestamp timestamp' : Z)
    (onJointChange : option handler) (availableJoints : list string)
    (storeJointValues : gmap string num) (nodes : list (FlowNode num)) :
  addNode type position timestamp mousePosition onJointChange []
    storeJointValues nodes
    = (nodes, [ToastFailure "Please upload a URDF file first"]) ∧
  (availableJoints ≠ [] →
   ∃ newNode,
     addNode type position timestamp mousePosition onJointChange
       availableJoints storeJointValues nodes = (nodes ++ [newNode], []) ∧
     flow_id newNode = "node-" +:+ pretty timestamp ∧
     data_type (flow_data newNode) = type ∧
     (type = joint →
      data_joints (flow_data newNode)
        = Some (seededJoints availableJoints storeJointValues) ∧
      data_onJointChange (flow_data newNode) = onJointChange) ∧
     (type = transition →
      data_transition (flow_data newNode)
        = Some {| smooth := true; smoothness := nlit 50 |}) ∧
     (flow_position newNode
        = default (default (nlit 300, nlit 200) mousePosition) position) ∧
     ∀ type' position' mousePosition',
       map flow_id
         (addNode type' position' timestamp' mousePosition' onJointChange
            availableJoints storeJointValues (nodes ++ [newNode])).1
       = map flow_id nodes ++ [flow_id newNode; "node-" +:+ pretty timestamp'] ∧
       (flow_id newNode = "node-" +:+ pretty timestamp'
        ↔ timestamp = timestamp')).
Proof.
  split; [done|]. intros Havailable.
  destruct availableJoints as [|jointName availableJoints]; [done|].
  eexists. split; [reflexivity|]. cbn [flow_id flow_data flow_position].
  split; [done|]. split; [by destruct type|].
  split; [by intros ->|]. split; [by intros ->|].
  split; [by destruct position, mousePosition|].
  intros type' position' mousePosition'. split.
  - cbn [addNode fst]. rewrite !map_app. simpl. by rewrite <- app_assoc.
  - split; [apply node_id_inj | by intros ->].
Qed.

(** *** The effects that rewrite the node list *)

Lemma with_data_same (node : FlowNode num) :
  with_data node
    {| data_type := data_type (flow_data node);
       data_joints := data_joints (flow_data node);
       data_transition := data_transition (flow_data node);
       data_onJointChange := data_onJointChange (flow_data node);
       data_jointValues := data_jointValues (flow_data node);
       data_selectedJoint := data_selectedJoint (flow_data node);
       data_isFocused := data_isFocused (flow_data node);
       data_onDelete := data_onDelete (flow_data node) |} = node.
Proof. by destruct node as [? ? []]. Qed.

Lemma same_nodes_map (f : FlowNode num → FlowNode num) nodes :
  (∀ node, flow_id (f node) = flow_id node ∧
           flow_position (f node) = flow_position node ∧
           data_type (flow_data (f node)) = data_type (flow_data node)) →
  same_nodes nodes (map f nodes).
Proof.
  intros Hf. unfold same_nodes. rewrite !map_map.
  repeat split; apply map_ext; intros node; by destruct (Hf node) as (? & ? & ?).
Qed.

(** X23: the four effects that rewrite the node list (callbacks, live
    values, selection, data from the store) neither add nor remove nor
    reorder nodes and change no id, position or type; the live values go to
    the focused node alone, and the data from the store to the nodes that
    have a state. *)
Theorem effects_leave_nodes_in_place (onJointChange : option handler)
    (focusedNodeId selectedJoint : option string) (isAnimating : bool)
    (storeJointValues : gmap string num)
    (nodeStates : gmap string (NodeState num))
    (nodes : list (FlowNode num)) :
  same_nodes nodes (updateCallbacks onJointChange nodes) ∧
  same_nodes nodes
    (syncStoreValues focusedNodeId isAnimating storeJointValues nodes) ∧
  same_nodes nodes (syncSelectedJoint selectedJoint focusedNodeId nodes) ∧
  same_nodes nodes (syncNodeData nodeStates nodes) ∧
  (∀ i node, nodes !! i = Some node → focusedNodeId ≠ Some (flow_id node) →
     syncStoreValues focusedNodeId isAnimating storeJointValues nodes !! i
       = Some node) ∧
  (∀ i node, nodes !! i = Some node → nodeStates !! flow_id node = None →
     syncNodeData nodeStates nodes !! i = Some node).
Proof.
  split; [by apply same_nodes_map|]. split; [|split; [|split; [|split]]].
  - unfold syncStoreValues. destruct focusedNodeId as [focused|]; [|done].
    destruct (_ || _); [done|]. by apply same_nodes_map.
  - by apply same_nodes_map.
  - apply same_nodes_map. intros node.
    by destruct (nodeStates !! flow_id node).
  - intros i node Hi Hne. unfold syncStoreValues.
    destruct focusedNodeId as [focused|]; [|done].
    destruct (_ || _); [done|]. rewrite list_lookup_fmap, Hi. simpl.
    assert (Hother : (flow_id node =? focused)%string = false).
    { apply String.eqb_neq. congruence. }
    by rewrite Hother, with_data_same.
  - intros i node Hi Hnone. unfold syncNodeData.
    rewrite list_lookup_fmap, Hi. simpl. by rewrite Hnone.
Qed.

(** *** A click on a node *)

(** X24: a click focuses the node clicked. On a pose node with joints it
    hands the pose to the store only if the node was not focused before,
    and selects the first joint either way: a second click on the same node
    publishes nothing. The joints are those of the store state, if it has
    any, before those of the node itself; a transition node, or a pose
    node without joints, publishes and selects nothing. *)
Theorem onNodeClick_publishes_on_focus_change
    (focusedNodeId : option string)
    (nodeStates : gmap string (NodeState num)) (node : FlowNode num) :
  let click := onNodeClick focusedNodeId nodeStates node in
  let again := onNodeClick (click_focus click) nodeStates node in
  click_focus click = Some (flow_id node) ∧
  click_pose again = None ∧ click_joint again = click_joint click ∧
  (focusedNodeId = Some (flow_id node) → click_pose click = None) ∧
  (data_type (flow_data node) = transition →
   click_pose click = None ∧ click_joint click = None) ∧
  (∀ nodeState first joints,
     data_type (flow_data node) = joint →
     nodeStates !! flow_id node = Some nodeState →
     ns_joints nodeState = Some (first :: joints) →
     focusedNodeId ≠ Some (flow_id node) →
     click_pose click = Some (pose_of (first :: joints)) ∧
     click_joint click = Some (name first)).
Proof.
  cbv zeta. unfold onNodeClick.
  destruct (data_type (flow_data node)) eqn:Htype.
  - set (joints := match nodeStates !! flow_id node ≫= ns_joints with
                   | Some joints => Some joints
                   | None => data_joints (flow_data node)
                   end).
    assert (Hfocus : click_focus
      match joints with
      | Some ((first :: _) as joints) =>
          {| click_focus := Some (flow_id node);
             click_pose :=
               if bool_decide (focusedNodeId = Some (flow_id node)) then None
               else Some (pose_of joints);
             click_joint := Some (name first) |}
      | _ => {| click_focus := Some (flow_id node); click_pose := None;
                click_joint := None |}
      end = Some (flow_id node)) by (by destruct joints as [[|]|]).
    rewrite Hfocus. split; [done|].
    split; [destruct joints as [[|]|]; simpl; try done;
            by rewrite bool_decide_eq_true_2|].
    split; [by destruct joints as [[|]|]|].
    split; [intros ->; destruct joints as [[|]|]; simpl; try done;
            by rewrite bool_decide_eq_true_2|].
    split; [done|].
    intros nodeState first js _ Hstate Hjoints Hne. subst joints.
    rewrite Hstate. simpl. rewrite Hjoints. simpl.
    rewrite bool_decide_eq_false_2 by done. by split.
  - repeat split; try done.
Qed.

End NodeCardFacts.

(** ** Live values and the run *)

Section LiveSync.
Context {num : Type} `{JsNumber num}.
Context (nodes : list Node) (edges : list Edge).
Context (nodeStates : gmap string (NodeState num)).
Context (cancelAt : option Q).
Context (faulty : call num → bool).

(** X25: the live values of the store reach no node card while a run is in
    flight: at every wait of a run the effect that copies the store values
    to the focused node leaves the cards as they are, whichever node is
    focused; without a run it gives the values to every card of the focused
    id, which must not be empty. *)
Theorem live_sync_suspended_during_run (fuel : nat) (st : UiState num)
    (pre post : list (Q * event num)) (t d : Q)
    (focusedNodeId : option string) (storeJointValues : gmap string num)
    (cards : list (FlowNode num))
    (idle : isAnimating st = false)
    (waiting : events (run nodes edges nodeStates cancelAt faulty fuel
                         (isAnimating st)) = pre ++ (t, Wait d) :: post) :
  syncStoreValues focusedNodeId (isAnimating (replay pre st))
    storeJointValues cards = cards ∧
  (∀ focused i card, focusedNodeId = Some focused → focused ≠ "" →
     cards !! i = Some card → flow_id card = focused →
     ∃ card',
       syncStoreValues focusedNodeId (isAnimating st) storeJointValues cards
         !! i = Some card' ∧
       data_jointValues (flow_data card') = Some storeJointValues) ∧
  syncStoreValues (Some "") (isAnimating st) storeJointValues cards = cards.
Proof.
  rewrite idle in *.
  destruct (run_wait_flags nodes edges nodeStates cancelAt faulty fuel st pre
              t d post waiting) as [-> _].
  split; [|split].
  - unfold syncStoreValues. destruct focusedNodeId as [focused|]; [|done].
    by rewrite orb_true_r.
  - intros focused i card -> Hne Hi Hid. unfold syncStoreValues.
    apply String.eqb_neq in Hne as ->. simpl.
    rewrite list_lookup_fmap, Hi. simpl. eexists. split; [done|]. simpl.
    by rewrite Hid, String.eqb_refl.
  - done.
Qed.

End LiveSync.

(** At the settle pause of the single pose node the focused card "a" is
    left as it is. *)
Lemma live_sync_suspended_during_run_witness :
  syncStoreValues (Some "a")
    (isAnimating (replay (take 4 (events single_run)) idle_state))
    sample_values sample_cards = sample_cards.
Proof.
  destruct (live_sync_suspended_during_run (num := Q) single_graph.1
              single_graph.2 chain_states None no_fault 10 idle_state
              (take 4 (events single_run)) (drop 5 (events single_run))
              0 1000 (Some "a") sample_values sample_cards eq_refl)
    as [Hsync _]; [vm_compute; reflexivity|].
  exact Hsync.
Defined.

(** The pose seeded from the sample values is the sample values. *)
Lemma seeded_pose_is_the_store_pose_witness :
  jointValues (apply_event
    (SetJointValues
       (Number <$> pose_of (seededJoints ["j1"; "j2"] sample_values)))
    {| jointValues := Number <$> sample_values; isAnimating := false;
       activeNodeId := None; animationAbortController := false |})
  = Number <$> sample_values.
Proof.
  destruct (seeded_pose_is_the_store_pose (num := Q) ["j1"; "j2"] sample_values
              {| jointValues := Number <$> sample_values; isAnimating := false;
                 activeNodeId := None; animationAbortController := false |}
              eq_refl) as (_ & _ & _ & Hsame).
  - intros jointName [<- | [<- | []]]; by eexists.
  - exact Hsame.
Defined.

(** ** The page *)

(** X26: on the page, a joint change sets that joint and no other, and a
    later change of the same joint replaces it; loading the joints of a
    robot replaces the joint values wholesale (earlier changes are gone),
    and selects the first joint unless a joint is selected already, which
    then stays selected whether or not the robot has it; loading a file
    leaves the meshes of an earlier upload in place. *)
Theorem page_state_updates {num : Type} (st : IndexState num)
    (jointName other : string) (value value' : num)
    (joints : list string) (angles : gmap string num) (file : string) :
  index_jointValues (handleJointChange jointName value st) !! jointName
    = Some value ∧
  (other ≠ jointName →
   index_jointValues (handleJointChange jointName value st) !! other
     = index_jointValues st !! other) ∧
  handleJointChange jointName value' (handleJointChange jointName value st)
    = handleJointChange jointName value' st ∧
  index_jointValues
    (onRobotJointsLoaded joints angles (handleJointChange jointName value st))
    = angles ∧
  (∀ selected, selectedJoint st = Some selected → selected ≠ "" →
     selectedJoint (onRobotJointsLoaded joints angles st) = Some selected) ∧
  (∀ first rest, joints = first :: rest →
     selectedJoint st = None ∨ selectedJoint st = Some "" →
     selectedJoint (onRobotJointsLoaded joints angles st) = Some first) ∧
  meshFiles (handleFileUpload file st) = meshFiles st.
Proof.
  split; [apply lookup_insert_eq|]. split; [intros Hne; by apply lookup_insert_ne|].
  split; [unfold handleJointChange; simpl; by rewrite insert_insert_eq|].
  split; [done|]. split; [|split; [|done]].
  - intros selected Hsel Hne. unfold onRobotJointsLoaded; simpl.
    rewrite Hsel. apply String.eqb_neq in Hne.
    destruct joints; [done | by rewrite Hne].
  - intros first rest -> [Hsel | Hsel]; unfold onRobotJointsLoaded; simpl;
      by rewrite Hsel.
Qed.

(** The selection "j9" survives the loading of a robot without that
    joint. *)
Lemma page_state_updates_witness :
  selectedJoint (onRobotJointsLoaded ["j1"; "j2"] sample_values sample_page)
    = Some "j9".
Proof.
  destruct (page_state_updates sample_page "j9" "j1" 1 2 ["j1"; "j2"]
              sample_values "arm.urdf") as (_ & _ & _ & _ & Hkeep & _).
  by apply Hkeep.
Defined.

Section Stop.
Context (nodes : list Node) (edges : list Edge).
Context (nodeStates : gmap string (NodeState float)).
Context (c : Q).
Context (faulty : call float → bool).

Local Abbreviation frame_loop := (frame_loop (Some c) faulty).
Local Abbreviation node_step := (node_step edges nodeStates (Some c) faulty).
Local Abbreviation loop_body :=
  (loop_body nodes edges nodeStates (Some c) faulty).
Local Abbreviation while_loop :=
  (while_loop nodes edges nodeStates (Some c) faulty).

Lemma not_cancelled (t : Q) : cancelled (Some c) t = false → t < c.
Proof.
  unfold cancelled. intros Hgo. apply Qnot_le_lt.
  intros Hle%Qle_bool_iff. congruence.
Qed.

Lemma frame_wait_F64 :
  frame_wait (num := float) == 4691249611844267 # 281474976710656.
Proof. reflexivity. Qed.

Lemma frame_loop_stops (n : Z) previous next frames fuel frame t :
  counts frames n →
  (0 ≤ frame ≤ n + 1)%Z → (Z.to_nat (n + 1 - frame) < fuel)%nat →
  let o := frame_loop fuel previous next frames frame t in
  outcome o ≠ Pending ∧
  now o <= Qmax t (c + frame_wait (num := float)) ∧
  (outcome o = Throw ∨
   now o == t + inject_Z (n + 1 - frame) * frame_wait (num := float) ∨
   c <= now o).
Proof.
  intros [Hcount Hlast]. pose proof frame_wait_F64 as Hft.
  revert frame t. induction fuel as [|fuel IH]; intros frame t Hframe Hfuel;
    [lia|].
  cbv zeta. rewrite frame_loop_S.
  pose proof (Q.le_max_l t (c + frame_wait (num := float))) as Hmax.
  destruct (nlit (inject_Z frame) <=? frames)%js eqn:Hin; cbn [andb].
  - destruct (cancelled (Some c) t) eqn:Hgo; cbn [negb].
    { split; [done|]. split; [done|]. right. right.
      unfold cancelled in Hgo. by apply Qle_bool_iff. }
    apply not_cancelled in Hgo.
    assert (Hlt : (frame ≤ n)%Z).
    { destruct (Z.eq_dec frame (n + 1)%Z) as [-> | Hne]; [congruence | lia]. }
    destruct (faulty _); [split; [done|]; split; [done|]; by left|].
    destruct (IH (frame + 1)%Z
                (Qred (t + timer (nmillis (frameTime : float)))))
      as (Hout & Hhi & Hrun); [lia | lia |].
    split; [exact Hout|]. unfold after. cbn [now outcome].
    pose proof (Qred_correct (t + timer (nmillis (frameTime : float))))
      as Hred.
    fold (frame_wait (num := float)) in *.
    set (t' := Qred _) in *. set (ft := frame_wait) in *.
    set (x := now _) in *.
    assert (Hlate : Qmax t' (c + ft) == c + ft).
    { apply Q.max_r. clearbody t' ft. lra. }
    pose proof (Q.le_max_r t (c + ft)) as Hmax'.
    split; [rewrite Hlate in Hhi; clearbody x; lra|].
    destruct Hrun as [Hthrow | [Hall | Hstop]]; [by left | | by right; right].
    right. left.
    replace (n + 1 - frame)%Z with ((n + 1 - (frame + 1)) + 1)%Z by lia.
    rewrite inject_Z_plus. change (inject_Z 1) with 1.
    set (m := inject_Z _) in *. clearbody t' ft x m. lra.
  - split; [done|]. split; [done|]. right. left.
    assert (frame = (n + 1)%Z) as ->.
    { destruct (Z.eq_dec frame (n + 1)%Z) as [-> | Hne]; [done|].
      rewrite Hcount in Hin by lia. done. }
    rewrite Z.sub_diag.
    cbn [now]. change (inject_Z 0) with 0. ring.
Qed.

Lemma node_step_ends fuel nodeState locals t :
  match ns_type nodeState with
  | joint => is_Some (ns_joints nodeState)
  | transition =>
      ∃ trans, ns_transition nodeState = Some trans ∧
        in_range (smoothness trans)
  end →
  t < c → (302 ≤ fuel)%nat →
  step_ends c t (node_step fuel nodeState locals t).
Proof.
  intros Hplay Hgo Hfuel. unfold node_step.
  pose proof frame_wait_F64 as Hft.
  destruct (ns_type nodeState).
  - destruct Hplay as [joints ->]. rewrite pose_step_eq. simpl.
    destruct (skipNextJointApplication locals); [|destruct (faulty _)];
      (split; [done|]); simpl; rewrite ?Qred_correct;
      (split; [lra|]); first [by left | right; left; lra].
  - destruct Hplay as (trans & -> & Hs).
    assert (Hrest : ∀ nextNodeState, step_ends c t
      (transition_rest (Some c) faulty fuel trans locals nextNodeState t)).
    { intros nextNodeState. unfold transition_rest.
      destruct (smooth trans), (previousJointPose locals) as [previous|],
        (pose_of_state nextNodeState) as [next|];
        try (split; [done|]; simpl; rewrite ?Qred_correct;
             split; [lra|]; right; left; lra).
      destruct (F64_frames (smoothness trans) Hs)
        as (n & Hn & _ & _ & _ & Hcounts).
      destruct (frame_loop_stops n previous next _ fuel 0 t Hcounts)
        as (Hout & Hhi & Hrun); [lia | lia |].
      unfold step_ends, returning. cbn [now outcome].
      assert (Hlate : Qmax t (c + frame_wait (num := float))
                      == c + frame_wait (num := float))
        by (apply Q.max_r; lra).
      rewrite Hlate in Hhi.
      split; [by destruct (outcome _)|].
      split; [apply Qle_trans with (c + frame_wait (num := float));
              [exact Hhi | lra]|].
      destruct Hrun as [Hthrow | [Hall | Hstop]].
      - left. by rewrite Hthrow.
      - right. left. rewrite Hall, Z.sub_0_r.
        assert (30 <= inject_Z (n + 1))
          by (change 30 with (inject_Z 30); rewrite <- Zle_Qle; lia).
        set (m := inject_Z (n + 1)) in *. clearbody m.
        rewrite Hft. lra.
      - by right; right. }
    destruct (ns_joints nodeState); rewrite transition_step_eq;
      (destruct (nextEdge _ _); [destruct (faulty _)|]; try apply Hrest;
       split; [done|]; split; [simpl; lra | by left]).
Qed.

Lemma loop_body_ends fuel locals t :
  playable nodeStates → t < c → (302 ≤ fuel)%nat →
  let o := loop_body fuel locals t in
  outcome o ≠ Pending ∧ now o <= c + 1000 ∧
  (∀ locals', outcome o = Ret (Continue locals') →
     t + 100 <= now o ∨ c <= now o).
Proof.
  intros Hplay Hgo Hfuel. cbv zeta. rewrite loop_body_eq.
  destruct (faulty (CallSetActiveNodeId _));
    [split; [done|]; split; [simpl; lra | done]|].
  destruct (faulty (CallGetNodeState _));
    [split; [done|]; split; [simpl; lra | done]|].
  destruct (currentNode nodes locals),
    (nodeStates !! currentNodeId locals) as [nodeState|] eqn:Hstate;
    try (split; [done|]; split; [simpl; lra | done]).
  destruct (node_step_ends fuel nodeState locals t (Hplay _ _ Hstate) Hgo Hfuel)
    as (Hout & Hhi & Hrun).
  unfold after, mapped. cbn [now outcome].
  split; [by destruct (outcome _)|]. split; [done|].
  intros locals' Hret. destruct Hrun as [Hthrow | Hrun]; [|done].
  by rewrite Hthrow in Hret.
Qed.

Lemma while_loop_stops (n : nat) :
  playable nodeStates →
  ∀ fuel locals t,
    c <= t + inject_Z (Z.of_nat n) * 100 → (n + 303 ≤ fuel)%nat →
    let o := while_loop fuel locals t in
    outcome o ≠ Pending ∧ now o <= Qmax t (c + 1000).
Proof.
  intros Hplay.
  induction n as [|n IH]; intros fuel locals t Hn Hfuel;
    (destruct fuel as [|fuel]; [lia|]); cbv zeta; rewrite while_loop_S;
    pose proof (Q.le_max_l t (c + 1000)) as Hmax;
    pose proof (Q.le_max_r t (c + 1000)) as Hmax'.
  - destruct (cancelled (Some c) t) eqn:Hgo;
      [by rewrite andb_false_r|].
    apply not_cancelled in Hgo. change (inject_Z (Z.of_nat 0)) with 0 in Hn.
    lra.
  - destruct (_ && _) eqn:Hcond; [|done].
    apply andb_true_iff in Hcond as [_ Hgo%negb_true_iff].
    apply not_cancelled in Hgo. cbv zeta.
    destruct (loop_body_ends fuel locals t Hplay Hgo) as (Hout & Hhi & Hrun);
      [lia|].
    destruct (outcome (loop_body fuel locals t)) as [[|locals']| |] eqn:Hbody.
    + split; [done|]. cbn [now]. lra.
    + rewrite Nat2Z.inj_succ in Hn. unfold Z.succ in Hn.
      rewrite inject_Z_plus in Hn. change (inject_Z 1) with 1 in Hn.
      assert (Hpos : 0 <= inject_Z (Z.of_nat n)).
      { change 0 with (inject_Z 0). rewrite <- Zle_Qle. lia. }
      destruct (IH fuel locals' (now (loop_body fuel locals t)))
        as (Hout' & Hhi'); [|lia|].
      { set (m := inject_Z (Z.of_nat n)) in *. clearbody m.
        destruct (Hrun locals' eq_refl); nra. }
      split; [exact Hout'|]. unfold after. cbn [now].
      assert (Hlate : Qmax (now (loop_body fuel locals t)) (c + 1000)
                      == c + 1000) by (by apply Q.max_r).
      rewrite Hlate in Hhi'. lra.
    + split; [done|]. cbn [now]. lra.
    + done.
Qed.

(** X27: a stop ends the run, in the program's own arithmetic: with every
    state of the store a pose with joints or a transition with options of
    a smoothness (a double) in [0,100], a run whose signal reads aborted
    from [c] on returns, on any graph, cycles included, cancelled or not
    at its start, fault or not, no later than 1000 ms after [c], the
    longest single wait. *)
Theorem stop_ends_the_run (n fuel : nat) (isAnimating : bool)
    (Hplay : playable nodeStates)
    (Hn : c <= inject_Z (Z.of_nat n) * 100)
    (Hfuel : (n + 303 ≤ fuel)%nat) :
  let o := run nodes edges nodeStates (Some c) faulty fuel isAnimating in
  outcome o = Ret tt ∧ now o <= Qmax 0 (c + 1000).
Proof.
  cbv zeta. unfold run. pose proof (Q.le_max_l 0 (c + 1000)) as Hmax.
  destruct isAnimating; [done|].
  destruct (startNodes nodes edges) as [|start rest] eqn:Hstart.
  { by rewrite (runAnimation_no_start _ _ _ _ _ fuel 0 Hstart). }
  rewrite (runAnimation_started _ _ _ _ _ fuel start rest 0 Hstart).
  destruct (while_loop_stops n Hplay fuel (first_locals start) 0)
    as (Hout & Hhi); [by rewrite Qplus_0_l | done |].
  cbv zeta. by destruct (outcome (while_loop fuel (first_locals start) 0)).
Qed.

End Stop.

Lemma chain_states_playable : playable chain_states.
Proof.
  intros nodeId nodeState Hstate.
  unfold chain_states in Hstate. simpl in Hstate.
  destruct (decide (nodeId = "a")) as [-> | Ha].
  { rewrite lookup_insert_eq in Hstate. injection Hstate as <-. by eexists. }
  rewrite lookup_insert_ne in Hstate by done.
  destruct (decide (nodeId = "t")) as [-> | Ht].
  { rewrite lookup_insert_eq in Hstate. injection Hstate as <-. simpl.
    eexists. split; [done|]. split; reflexivity. }
  rewrite lookup_insert_ne in Hstate by done.
  destruct (decide (nodeId = "b")) as [-> | Hb].
  { rewrite lookup_insert_eq in Hstate. injection Hstate as <-. by eexists. }
  by rewrite lookup_insert_ne in Hstate.
Defined.

(** On the lasso, which plays forever when left alone, a stop at 5000 ms
    ends the run. *)
Lemma stop_ends_the_run_witness :
  outcome (run (num := float) lasso_graph.1 lasso_graph.2 chain_states
             (Some 5000) no_fault 353 false) = Ret tt ∧
  now (run (num := float) lasso_graph.1 lasso_graph.2 chain_states
         (Some 5000) no_fault 353 false) <= Qmax 0 (5000 + 1000).
Proof.
  apply (stop_ends_the_run lasso_graph.1 lasso_graph.2 chain_states 5000
           no_fault 50 353 false chain_states_playable).
  - by vm_compute.
  - lia.
Defined.

(** ** The stop button *)

Section StopButton.
Context {num : Type} `{JsNumber num}.
Context (nodes : list Node) (edges : list Edge).
Context (nodeStates : gmap string (NodeState num)).
Context (cancelAt : option Q).
Context (faulty : call num → bool).

Local Abbreviation run := (run nodes edges nodeStates cancelAt faulty).

Lemma loop_wait_controller body (st : UiState num) :
  Forall (loop_event cancelAt) body →
  animationAbortController st = true →
  Forall (λ s, animationAbortController s = true) (wait_states st body).
Proof.
  intros Hbody. revert st.
  induction Hbody as [|[t e] l [_ He] _ IH]; intros st Hctl; [constructor|].
  simpl in *. destruct e as [| |[]| | | |]; try done; simpl.
  - by apply IH.
  - by apply IH.
  - constructor; [done | by apply IH].
Qed.

Lemma run_wait_controller fuel (st : UiState num) pre t d post :
  events (run fuel false) = pre ++ (t, Wait d) :: post →
  animationAbortController (replay pre st) = true.
Proof.
  intros Hev.
  destruct (startNodes nodes edges) as [|start rest] eqn:Hstart.
  { unfold run in Hev.
    rewrite (runAnimation_no_start _ _ _ _ _ fuel 0 Hstart) in Hev.
    by destruct pre as [|? [|]]. }
  pose proof (wait_states_prefix st pre t d post) as Hin.
  rewrite <- Hev in Hin. revert Hin. generalize (replay pre st).
  apply List.Forall_forall. clear Hev pre t d post.
  destruct (run_started_events nodes edges nodeStates cancelAt faulty fuel
              start rest Hstart) as (tail & -> & Htail).
  pose proof (while_loop_emits nodes edges nodeStates cancelAt faulty fuel
                (first_locals start) 0) as Hbody.
  rewrite !wait_states_app. apply Forall_app; split; [constructor|].
  apply Forall_app; split; [by apply loop_wait_controller|].
  destruct Htail as [-> | [-> | ->]]; constructor.
Qed.

(** X28: the stop button acts on a run in flight and on nothing else: at
    every wait of a run a controller is installed, so that [stopAnimation]
    aborts the signal at that time; once the run has returned, and before
    any run, there is no controller and [stopAnimation] does nothing. *)
Theorem stop_button_is_live_during_run (fuel : nat) (st : UiState num)
    (t' : Q)
    (idle : isAnimating st = false)
    (no_handle : animationAbortController st = false) :
  let o := run fuel (isAnimating st) in
  stopAnimation (animationAbortController st) t' = None ∧
  (∀ pre t d post, events o = pre ++ (t, Wait d) :: post →
     stopAnimation (animationAbortController (replay pre st)) t' = Some t') ∧
  (outcome o = Ret tt →
   stopAnimation (animationAbortController (replay (events o) st)) t' = None).
Proof.
  rewrite idle. cbv zeta. split; [by rewrite no_handle|]. split.
  - intros pre t d post Hev.
    by rewrite (run_wait_controller fuel st pre t d post Hev).
  - intros Hret.
    destruct (startNodes nodes edges) as [|start rest] eqn:Hstart.
    + unfold run.
      rewrite (runAnimation_no_start _ _ _ _ _ fuel 0 Hstart). simpl.
      by rewrite no_handle.
    + destruct (run_returned nodes edges nodeStates cancelAt faulty fuel
                  start rest Hstart) as (mid & _ & ->); [by rewrite Hret|].
      by rewrite replay_app.
Qed.

End StopButton.

(** At the settle pause of the single pose node the stop button aborts;
    after the run it does not. *)
Lemma stop_button_is_live_during_run_witness :
  stopAnimation
    (animationAbortController (replay (take 4 (events single_run)) idle_state))
    500 = Some 500 ∧
  stopAnimation
    (animationAbortController (replay (events single_run) idle_state)) 2000
    = None.
Proof.
  split.
  - destruct (stop_button_is_live_during_run (num := Q) single_graph.1
                single_graph.2 chain_states None no_fault 10 idle_state 500
                eq_refl eq_refl) as (_ & Hlive & _).
    apply (Hlive (take 4 (events single_run)) 0 1000
             (drop 5 (events single_run))).
    vm_compute. reflexivity.
  - destruct (stop_button_is_live_during_run (num := Q) single_graph.1
                single_graph.2 chain_states None no_fault 10 idle_state 2000
                eq_refl eq_refl) as (_ & _ & Hidle).
    apply Hidle. vm_compute. reflexivity.
Defined.

Section Pace.
Context {num : Type} `{JsNumber num}.
Context (nodes : list Node) (edges : list Edge).
Context (nodeStates : gmap string (NodeState num)).
Context (cancelAt : option Q).
Context (faulty : call num → bool).
Context (gap : Q).
Context (gap_frame : 0 <= gap ∧ gap <= frame_wait (num := num) ∧ gap <= 100).

Lemma publish_times_app (l1 l2 : list (Q * event num)) :
  publish_times (l1 ++ l2) = publish_times l1 ++ publish_times l2.
Proof. apply omap_app. Qed.

Lemma publish_times_stamped (t : Q) (trace : list (Q * event num)) :
  Forall (λ te, t <= te.1) trace → Forall (λ t1, t <= t1) (publish_times trace).
Proof.
  induction 1 as [|[t1 e] l Hle _ IH]; [constructor|].
  unfold publish_times; simpl. destruct e; try done. by constructor.
Qed.

Lemma spaced_app (l1 l2 : list Q) (mid : Q) :
  spaced gap l1 → spaced gap l2 →
  Forall (λ t1, t1 + gap <= mid) l1 → Forall (λ t2, mid <= t2) l2 →
  spaced gap (l1 ++ l2).
Proof.
  intros H1 H2 Hlo Hhi. induction l1 as [|t1 l1 IH]; [done|].
  destruct H1 as [Hall H1]. apply Forall_cons in Hlo as [Ht1 Hlo]. simpl.
  split; [|by apply IH].
  apply Forall_app. split; [done|].
  eapply Forall_impl; [exact Hhi|]. intros t2 Ht2. simpl in *. lra.
Qed.

Lemma paced_thrown {A} (t : Q) :
  paced gap t (thrown (num := num) (A := A) t).
Proof.
  split; [apply Qle_refl|]. split; [constructor|]. split; [constructor|done].
Qed.

Lemma paced_stop {A} (t : Q) (r : result A) :
  paced gap t {| events := @nil (Q * event num); now := t; outcome := r |}.
Proof.
  split; [apply Qle_refl|]. split; [constructor|]. split; [constructor|done].
Qed.

(** Two computations in sequence. *)
Lemma paced_seq {A B} (t : Q) (o1 : Outcome num A) (o2 : Outcome num B)
    (r : result B) :
  paced gap t o1 → paced gap (now o1) o2 →
  paced gap t {| events := events o1 ++ events o2; now := now o2;
                 outcome := r |}.
Proof.
  intros (Hnow1 & Hev1 & Hpub1 & Hsp1) (Hnow2 & Hev2 & Hpub2 & Hsp2).
  unfold paced; simpl. rewrite publish_times_app.
  split; [lra|]. split; [|split].
  - apply Forall_app. split; [done|].
    eapply Forall_impl; [exact Hev2|]. intros te Hte. simpl in *. lra.
  - apply Forall_app. split; [|done].
    eapply Forall_impl; [exact Hpub1|]. intros t1 Ht1. simpl in *. lra.
  - apply (spaced_app _ _ (now o1)); try done.
    by apply publish_times_stamped.
Qed.

(** A publication, or none, followed by a wait. *)
Lemma paced_wait {A} (t d : Q) (pose : option (gmap string (JsValue num)))
    (a : result A) :
  gap <= d →
  paced gap t
    {| events := match pose with
                 | Some pose => [(t, SetJointValues pose); (t, Wait d)]
                 | None => [(t, Wait d)]
                 end;
       now := Qred (t + d); outcome := a |}.
Proof using gap_frame.
  intros Hd. destruct gap_frame as [Hgap _].
  pose proof (Qred_correct (t + d)) as Hred.
  unfold paced; cbn [now events].
  set (stop := Qred (t + d)) in *. clearbody stop.
  split; [lra|]. destruct pose; unfold publish_times; simpl.
  - split; [repeat constructor; simpl; lra|].
    split; [constructor; [lra | constructor]|]. by split; [constructor|].
  - split; [repeat constructor; simpl; lra|]. by split; [constructor|].
Qed.

Lemma frame_loop_paced fuel previous next frames frame t :
  paced gap t (frame_loop cancelAt faulty fuel previous next frames frame t).
Proof using gap_frame.
  revert frame t. induction fuel as [|fuel IH]; intros frame t;
    [apply paced_stop|].
  rewrite frame_loop_S. destruct (_ && _); [|apply paced_stop]. cbv zeta.
  destruct (faulty _); [apply paced_thrown|].
  apply (paced_seq t
           {| events := [(t, SetJointValues
                               (framePose previous next frames frame));
                         (t, Wait (timer (nmillis (frameTime : num))))];
              now := Qred (t + timer (nmillis (frameTime : num)));
              outcome := Ret tt |}).
  - apply (paced_wait t _ (Some _)). apply gap_frame.
  - apply IH.
Qed.

Lemma node_step_paced fuel nodeState locals t :
  paced gap t (node_step edges nodeStates cancelAt faulty fuel nodeState
                 locals t).
Proof using gap_frame.
  destruct gap_frame as (Hgap0 & _ & Hgap).
  unfold node_step.
  destruct (ns_type nodeState), (ns_joints nodeState) as [joints|],
    (ns_transition nodeState) as [trans|]; try apply paced_stop.
  1,2: rewrite pose_step_eq; cbv zeta;
    destruct (skipNextJointApplication locals);
      [apply (paced_wait t 100 None); lra|];
    destruct (faulty _); [apply paced_thrown|];
    apply (paced_wait t 1000 (Some _)); lra.
  all: rewrite transition_step_eq;
    assert (Hrest : ∀ nextNodeState, paced gap t
      (transition_rest cancelAt faulty fuel trans locals nextNodeState t));
    [|destruct (nextEdge _ _); [destruct (faulty _)|];
      first [apply Hrest | apply paced_thrown]].
  all: intros nextNodeState; unfold transition_rest;
    destruct (smooth trans), (previousJointPose locals) as [previous|],
      (pose_of_state nextNodeState) as [next|];
    try (apply (paced_wait t 500 None); lra);
    apply (frame_loop_paced fuel previous next _ 0 t).
Qed.

Lemma loop_body_paced fuel locals t :
  paced gap t (loop_body nodes edges nodeStates cancelAt faulty fuel locals t).
Proof using gap_frame.
  rewrite loop_body_eq. destruct (faulty _); [apply paced_thrown|].
  apply (paced_seq t
           {| events := [(t, SetActiveNodeId (Some (currentNodeId locals)))];
              now := t; outcome := Ret tt |}).
  { split; [apply Qle_refl|]. split; [by repeat constructor; apply Qle_refl|].
    by split; [constructor|]. }
  simpl. destruct (faulty _); [apply paced_thrown|].
  destruct (currentNode nodes locals),
    (nodeStates !! currentNodeId locals) as [nodeState|];
    try apply paced_stop.
  apply (node_step_paced fuel nodeState locals t).
Qed.

Lemma while_loop_paced fuel locals t :
  paced gap t (while_loop nodes edges nodeStates cancelAt faulty fuel locals t).
Proof using gap_frame.
  revert locals t. induction fuel as [|fuel IH]; intros locals t;
    [apply paced_stop|].
  rewrite while_loop_S. destruct (_ && _); [|apply paced_stop]. cbv zeta.
  pose proof (loop_body_paced fuel locals t) as Hbody.
  destruct (outcome (loop_body _ _ _ _ _ fuel locals t)) as [[|locals']| |];
    try exact Hbody.
  apply (paced_seq t _ _ _ Hbody), IH.
Qed.

Lemma run_paced fuel isAnimating :
  let o := run nodes edges nodeStates cancelAt faulty fuel isAnimating in
  spaced gap (publish_times (events o)) ∧
  Forall (λ t1, 0 <= t1 ∧ t1 + gap <= now o) (publish_times (events o)).
Proof using gap_frame.
  cbv zeta. unfold run. destruct isAnimating; [by split; [|constructor]|].
  destruct (startNodes nodes edges) as [|start rest] eqn:Hstart.
  { rewrite (runAnimation_no_start _ _ _ _ _ fuel 0 Hstart).
    by split; [|constructor]. }
  rewrite (runAnimation_started _ _ _ _ _ fuel start rest 0 Hstart).
  destruct (while_loop_paced fuel (first_locals start) 0)
    as (Hnow & Hev & Hpub & Hsp).
  assert (Hpubs : ∀ tail : list (Q * event num), publish_times tail = [] →
    publish_times (started 0 ++
      events (while_loop nodes edges nodeStates cancelAt faulty fuel
                (first_locals start) 0) ++ tail)
    = publish_times (events (while_loop nodes edges nodeStates cancelAt faulty
                               fuel (first_locals start) 0))).
  { intros tail Htail. rewrite !publish_times_app, Htail.
    by rewrite app_nil_r. }
  assert (Hboth : Forall (λ t1, 0 <= t1 ∧
      t1 + gap <= now (while_loop nodes edges nodeStates cancelAt faulty
                         fuel (first_locals start) 0))
      (publish_times (events (while_loop nodes edges nodeStates cancelAt
                                faulty fuel (first_locals start) 0)))).
  { apply Forall_and. split; [by apply publish_times_stamped | done]. }
  cbv zeta. destruct (outcome (while_loop _ _ _ _ _ fuel _ 0));
    cbn [events now].
  - by rewrite (Hpubs (cleanup _)).
  - by rewrite (Hpubs (caught _ ++ cleanup _)).
  - by rewrite <- (app_nil_r (events _)), (Hpubs []).
Qed.

End Pace.

(** X29: the store is never updated faster than the frame rate, in the
    program's own arithmetic: in a run, every publication is followed by
    its wait before anything else is published, so that two publications
    are at least one frame wait apart, and the last one lies at least that
    long before the run returns (any graph and node states, cancelled or
    not, fault or not). The frame wait is the double 1000/60 taken as
    milliseconds, a little more than 50/3 ms. *)
Theorem publications_are_paced (nodes : list Node) (edges : list Edge)
    (nodeStates : gmap string (NodeState float)) (cancelAt : option Q)
    (faulty : call float → bool) (fuel : nat) (isAnimating : bool) :
  let o := run nodes edges nodeStates cancelAt faulty fuel isAnimating in
  let gap := frame_wait (num := float) in
  spaced gap (publish_times (events o)) ∧
  Forall (λ t1, 0 <= t1 ∧ t1 + gap <= now o) (publish_times (events o)) ∧
  50 # 3 < gap ∧ gap < (50 # 3) + (1 # 1000000000).
Proof.
  assert (Hgap : 0 <= frame_wait (num := float) ∧
                 frame_wait (num := float) <= frame_wait (num := float) ∧
                 frame_wait (num := float) <= 100)
    by (split; [|split]; discriminate).
  cbv zeta.
  destruct (run_paced nodes edges nodeStates cancelAt faulty _ Hgap fuel
              isAnimating) as [Hspaced Hlast].
  split; [exact Hspaced|]. split; [exact Hlast|]. split; reflexivity.
Qed.

(** The chain publishes 31 poses, the second 1000 ms after the first. *)
Lemma publications_are_paced_witness :
  take 2 (publish_times (events (chain_run (num := float) None no_fault 306)))
    = [0; 1000] ∧
  length (publish_times (events (chain_run (num := float) None no_fault 306)))
    = 31%nat ∧
  spaced (frame_wait (num := float))
    (publish_times (events (chain_run (num := float) None no_fault 306))).
Proof.
  split; [vm_compute; reflexivity|]. split; [vm_compute; reflexivity|].
  exact (proj1 (publications_are_paced sample_graph.1 sample_graph.2
                  chain_states None no_fault 306 false)).
Defined.

(** ** The properties on the samples *)

(** No edge of the chain has the id "zz": the graph stays as it is and the
    notice is shown all the same. *)
Lemma onDeleteEdge_removes_by_id_witness :
  onDeleteEdge "zz" focused_graph
    = (focused_graph, [ToastSuccess "Connection removed"]).
Proof.
  destruct (onDeleteEdge_removes_by_id "zz" focused_graph)
    as (_ & _ & _ & _ & _ & Hsame).
  apply Hsame. intros edge [<- | [<- | []]]; done.
Defined.

(** Deleting an id the chain does not have. *)
Lemma handleDeleteNode_algebra_witness :
  handleDeleteNode "zz" focused_graph = focused_graph.
Proof.
  destruct (handleDeleteNode_algebra "zz" "a" focused_graph) as (_ & _ & Hsame).
  apply Hsame.
  - intros n [<- | [<- | [<- | []]]]; done.
  - intros edge [<- | [<- | []]]; done.
  - done.
Defined.

(** The transition deleted from the chain is not activated: the run plays
    "a" alone. *)
Lemma deleted_node_never_activated_witness :
  activated (events
    (run (num := Q) (graph_nodes (handleDeleteNode "t" focused_graph))
       (graph_edges (handleDeleteNode "t" focused_graph)) chain_states None
       no_fault 20 false)) = ["a"] ∧
  ¬ In "t" (activated (events
      (run (num := Q) (graph_nodes (handleDeleteNode "t" focused_graph))
         (graph_edges (handleDeleteNode "t" focused_graph)) chain_states None
         no_fault 20 false))).
Proof.
  split; [vm_compute; reflexivity|].
  exact (deleted_node_never_activated (num := Q) "t" focused_graph
           chain_states None no_fault 20 false).
Defined.

(** The eased factor at a quarter and at three quarters. *)
Lemma easing_curve_witness : easedT (1 # 4 : Q) <= easedT (3 # 4 : Q).
Proof.
  destruct easing_curve as (_ & Hmono & _).
  apply Hmono; discriminate.
Defined.

(** Both sample cards get a state, and a second initialization, with other
    joints, changes nothing. *)
Lemma initializeNodeStates_only_fills_gaps_witness :
  is_Some (sample_store !! "a") ∧ is_Some (sample_store !! "t") ∧
  initializeNodeStates ["j9"] ∅ sample_cards sample_store = sample_store.
Proof.
  destruct (initializeNodeStates_only_fills_gaps (num := Q) ["j1"; "j2"]
              sample_values sample_cards ∅) as (_ & Hcovers & _ & Hagain & _).
  split; [|split].
  - apply (Hcovers ltac:(done)
             {| flow_id := "a"; flow_position := (0, 0);
                flow_data := {| data_type := joint; data_joints := None;
                  data_transition := None; data_onJointChange := None;
                  data_jointValues := None; data_selectedJoint := None;
                  data_isFocused := None; data_onDelete := None |} |}).
    by left.
  - apply (Hcovers ltac:(done)
             {| flow_id := "t"; flow_position := (100, 0);
                flow_data := {| data_type := transition; data_joints := None;
                  data_transition := Some {| smooth := true; smoothness := 50 |};
                  data_onJointChange := None;
                  data_jointValues := None; data_selectedJoint := None;
                  data_isFocused := None; data_onDelete := None |} |}).
    right. by left.
  - by apply Hagain.
Defined.

(** A transition node added to the sample cards at timestamp 1700000000000. *)
Lemma addNode_appends_one_node_witness :
  map flow_id (addNode (num := Q) transition None 1700000000000 None None
                 ["j1"; "j2"] sample_values sample_cards).1
    = ["a"; "t"; "node-1700000000000"].
Proof.
  destruct (addNode_appends_one_node (num := Q) transition None None
              1700000000000 0 None ["j1"; "j2"] sample_values sample_cards)
    as [_ Hadd].
  destruct Hadd as (newNode & -> & Hid & _); [done|].
  cbn [fst]. rewrite map_app. cbn [map]. rewrite Hid. vm_compute. reflexivity.
Defined.

(** With card "a" focused the transition card is left as it is. *)
Lemma effects_leave_nodes_in_place_witness :
  syncStoreValues (Some "a") false sample_values sample_cards !! 1%nat
    = sample_cards !! 1%nat.
Proof.
  destruct (effects_leave_nodes_in_place (num := Q) None (Some "a") None false
              sample_values ∅ sample_cards) as (_ & _ & _ & _ & Hother & _).
  by apply Hother.
Defined.

(** A first click on the pose card "a" hands its seeded pose to the store. *)
Lemma onNodeClick_publishes_on_focus_change_witness :
  click_pose (onNodeClick None sample_store
                {| flow_id := "a"; flow_position := (0, 0);
                   flow_data := {| data_type := joint; data_joints := None;
                     data_transition := None; data_onJointChange := None;
                     data_jointValues := None; data_selectedJoint := None;
                     data_isFocused := None; data_onDelete := None |} |})
    = Some sample_values.
Proof.
  destruct (onNodeClick_publishes_on_focus_change (num := Q) None sample_store
              {| flow_id := "a"; flow_position := (0, 0);
                 flow_data := {| data_type := joint; data_joints := None;
                   data_transition := None; data_onJointChange := None;
                   data_jointValues := None; data_selectedJoint := None;
                   data_isFocused := None; data_onDelete := None |} |})
    as (_ & _ & _ & _ & _ & Hpose).
  destruct (Hpose {| ns_id := "a"; ns_type := joint;
                     ns_joints := Some (seededJoints ["j1"; "j2"] sample_values);
                     ns_transition := None |}
              {| name := "j1"; value := 0.5 |}
              [ {| name := "j2"; value := 1 |} ]) as [-> _]; try done.
Defined.
